(** * Accessibility audit backend: crawl, scan, persist, search

    A shallow embedding of the crawl -> scan -> enhance -> persist pipeline
    and of the semantic search engine, with the properties the specification
    states about them.

    Source files embedded here:
    - [services/crawler.js]          ([SiteCrawler.crawl])
    - [scanner/axeScanner.js]        ([enhanceResults],
                                      [simulateScreenReader])
    - the AI utilities               ([generateFixSuggestions],
                                      [calculateRiskScore])
    - the indexer                    ([storePageResults],
                                      [compressEmbedding])
    - [services/searchEngine.js]     ([semanticSearch], [cosineSimilarity],
                                      [searchViolations])
    - the search routes              ([GET /violations])
    - the server                     ([/api/generate-pdf], the validation
                                      of the posted scan)

    JavaScript numbers are IEEE-754 binary64 values; they are embedded as
    the kernel's primitive floats, whose operations round exactly as the
    JavaScript ones do. *)

From Stdlib Require Import ZArith QArith Qround Floats Uint63 Reals Lra Lia.
From Stdlib Require Import Ascii String.
From stdpp Require Import base strings list sorting gmap.

Local Open Scope Z_scope.

(* ================================================================== *)
(** * Part I. Definitions *)
(* ================================================================== *)

(** ** JavaScript numbers *)

Module JS.

(** An integer below 2^63 as a number (exact below 2^53). *)
Definition of_Z (z : Z) : float :=
  if z <? 0 then PrimFloat.opp (PrimFloat.of_uint63 (Uint63.of_Z (- z)))
  else PrimFloat.of_uint63 (Uint63.of_Z z).

(** [Math.round]: the nearest integer, ties towards +infinity; NaN, the
    infinities and integral values are returned unchanged, and a result of
    zero keeps the sign of the argument. *)
Definition Math_round (x : float) : float :=
  match Prim2SF x with
  | S754_finite s m e =>
      if 0 <=? e then x
      else
        let d := 2 ^ (- e) in
        let n := if s then Z.neg m else Z.pos m in
        let r := (2 * n + d) / (2 * d) in
        if r =? 0 then (if s then (-0)%float else 0%float) else of_Z r
  | _ => x
  end.

Definition is_nan (x : float) : bool := negb (PrimFloat.eqb x x).

(** [Math.min] of two numbers: NaN if either is NaN. *)
Definition Math_min (x y : float) : float :=
  if is_nan x || is_nan y then nan
  else if PrimFloat.ltb y x then y else x.

(** [ToBoolean] on a number: false for +0, -0 and NaN. *)
Definition truthy (x : float) : bool :=
  negb (is_nan x) && negb (PrimFloat.eqb x 0%float).

(** Names every object literal inherits from [Object.prototype]: a lookup
    [table[key]] with one of these keys yields the inherited function (or
    prototype object), never [undefined]. *)
Definition prototype_keys : list string :=
  [ "constructor"; "toString"; "toLocaleString"; "valueOf";
    "hasOwnProperty"; "isPrototypeOf"; "propertyIsEnumerable";
    "__proto__"; "__defineGetter__"; "__defineSetter__";
    "__lookupGetter__"; "__lookupSetter__" ]%string.

(** The result of a property read [table[key]] on an object literal. *)
Inductive property (A : Type) : Type :=
  | Own (a : A)        (* a key written in the literal *)
  | Inherited          (* a member of [Object.prototype] *)
  | Undefined.
Arguments Own {A} a.
Arguments Inherited {A}.
Arguments Undefined {A}.

Fixpoint assoc {A} (key : string) (table : list (string * A)) : option A :=
  match table with
  | [] => None
  | (k, a) :: rest => if String.eqb k key then Some a else assoc key rest
  end.

Definition get {A} (table : list (string * A)) (key : string) : property A :=
  match assoc key table with
  | Some a => Own a
  | None =>
      if existsb (String.eqb key) prototype_keys then Inherited else Undefined
  end.

(** [s.substring(0, n)]. *)
Fixpoint substring0 (n : nat) (s : string) : string :=
  match n, s with
  | S n', String c s' => String c (substring0 n' s')
  | _, _ => EmptyString
  end.

(** [parts.join(sep)]. *)
Fixpoint join (sep : string) (parts : list string) : string :=
  match parts with
  | [] => ""
  | [p] => p
  | p :: rest => p +:+ sep +:+ join sep rest
  end.

(** [xs.slice(i, i + size)] repeated for [i = 0, size, 2*size, ...]: the
    fixed-size batches both the scanner and the indexer iterate over.  The
    fuel is the length of the list, which bounds the number of batches. *)
Fixpoint batches_aux {A} (fuel size : nat) (xs : list A) : list (list A) :=
  match fuel, xs with
  | _, [] => []
  | O, _ => []
  | S fuel', _ => take size xs :: batches_aux fuel' size (drop size xs)
  end.

Definition batches {A} (size : nat) (xs : list A) : list (list A) :=
  batches_aux (length xs) size xs.

End JS.

(** ** Scanner: severity mapping, fix suggestions, risk score

    [enhanceResults] is lines 226-287 of [scanner/axeScanner.js];
    [generateFixSuggestions] (lines 248-348) and [calculateRiskScore]
    (lines 350-368) are the AI utilities it requires. *)

Module Scanner.
Import JS.

(** A call either returns or throws (an [async] function: resolves or rejects). *)
Inductive outcome (A : Type) : Type :=
  | Returned (a : A)
  | Threw (e : string).
Arguments Returned {A} a.
Arguments Threw {A} e.

(** One affected element of a raw violation, as the rule engine reports it. *)
Record node := { html : string; target : list string }.

(** A raw violation.  [impact] and [helpUrl] may be missing. *)
Record violation := {
  id : string;
  impact : option string;
  helpUrl : option string;
  description : string;
  tags : list string;
  nodes : list node
}.

(** [SEVERITY_MAPPING], keys in the order of the literal. *)
Definition SEVERITY_MAPPING : list (string * list string) :=
  [ ("critical", ["serious"; "critical"]);
    ("high", ["moderate"]);
    ("medium", ["minor"]);
    ("low", ["cosmetic"]) ]%string.

(** [SEVERITY_MAPPING[level].includes(impact)]; a missing impact is in no list. *)
Definition includes (impacts : list string) (impact : option string) : bool :=
  match impact with
  | Some i => existsb (String.eqb i) impacts
  | None => false
  end.

(** [Object.keys(SEVERITY_MAPPING).find(level => ...includes(impact)) || 'unknown'] *)
Definition severity_of (impact : option string) : string :=
  match find (fun level => includes (snd level) impact) SEVERITY_MAPPING with
  | Some level => fst level
  | None => "unknown"
  end.

(** *** Fix suggestions and their cache *)

(** A text is a sequence of UTF-16 code units below 256, one character
    each.  Among these, [\s] and [trim] take as white space the code units
    9 to 13 (tab, line feed, vertical tab, form feed, carriage return), 32
    (space) and 160 (no-break space); the other white-space characters of
    JavaScript lie above 255. *)
Definition is_space (c : ascii) : bool :=
  let n := nat_of_ascii c in
  ((9 <=? n) && (n <=? 13))%nat || (n =? 32)%nat || (n =? 160)%nat.

(** [s.replace(/\s+/g, ' ')] *)
Fixpoint collapse_spaces (in_run : bool) (s : string) : string :=
  match s with
  | EmptyString => EmptyString
  | String c rest =>
      if is_space c
      then (if in_run then collapse_spaces true rest
            else String " "%char (collapse_spaces true rest))
      else String c (collapse_spaces false rest)
  end.

Fixpoint trim_start (s : string) : string :=
  match s with
  | String c rest => if is_space c then trim_start rest else s
  | EmptyString => EmptyString
  end.

Fixpoint rev_string (acc s : string) : string :=
  match s with
  | EmptyString => acc
  | String c rest => rev_string (String c acc) rest
  end.

(** [s.trim()] *)
Definition trim (s : string) : string :=
  rev_string "" (trim_start (rev_string "" (trim_start s))).

Definition cache_key : Type := string * string * option string * option string.

(** The object [generateFixSuggestions] resolves to: a suggestion, or the
    error payload built in its [catch] block. *)
Inductive payload : Type :=
  | Suggestion (id suggestion : string) (model : option string)
               (timestamp : string) (cached : bool)
  | Unavailable (id error : string) (fallback : option string) (cached : bool).

(** [{ ...cached, cached: true }] *)
Definition mark_cached (p : payload) : payload :=
  match p with
  | Suggestion i s m t _ => Suggestion i s m t true
  | Unavailable i e f _ => Unavailable i e f true
  end.

Definition VIOLATION_TEMPLATES : list (string * string) :=
  [ ("color-contrast",
     "Fix color contrast ratio of at least 4.5:1 for normal text. Current element: {html}");
    ("image-alt", "Add descriptive alt text to this image: {html}");
    ("empty-heading", "Remove or add content to this empty heading: {html}") ]%string.

(** The user prompt: a template with the element's HTML substituted, or the
    generic text over the violation's id, impact, help URL and element. *)
Inductive prompt : Type :=
  | FromTemplate (template element : string)
  | Generic (id : string) (impact helpUrl : option string) (element : string).

(** The chat request: the system message's context and the user prompt. *)
Record request := {
  system_context : option string;
  system_element : string;
  user : prompt
}.

(** What the suggestion provider does with one call: it answers with a text,
    or the call fails (time-out, rate limit, service error), possibly with
    an error code. *)
Inductive reply : Type :=
  | Completed (content : string)
  | Failed (code : option string).

(** The collaborators outside the process.  Calls are numbered in the order
    they are issued, so the same request may be answered differently. *)
Record world := {
  complete : nat -> request -> reply;
  clock : nat -> string;
  OPENAI_MODEL : option string
}.

(** [RESPONSE_CACHE] and the number of provider calls issued so far. *)
Record state := {
  RESPONSE_CACHE : gmap cache_key payload;
  calls : nat
}.

(** [error.code || 'Timeout'] *)
Definition code_or_timeout (code : option string) : string :=
  match code with
  | Some c => if String.eqb c "" then "Timeout" else c
  | None => "Timeout"
  end.

Definition error_payload (v : violation) (code : option string) : payload :=
  Unavailable (id v) ("AI Service Unavailable: " +:+ code_or_timeout code)
    (helpUrl v) false.

(** The part of [generateFixSuggestions] that runs before its [await]. *)
Inductive pending : Type :=
  | Settled (o : outcome payload)
  | Awaiting (key : cache_key) (req : request).

Definition begin_suggestion (v : violation) (cache : gmap cache_key payload)
  : pending :=
  match nodes v with
  | [] =>
      (* [violation.nodes[0].html] outside the [try]: a TypeError *)
      Settled (Threw "TypeError: Cannot read properties of undefined (reading 'html')")
  | n0 :: _ =>
      let cacheKey :=
        (id v, trim (collapse_spaces false (html n0)), impact v, helpUrl v) in
      match cache !! cacheKey with
      | Some cached => Settled (Returned (mark_cached cached))
      | None =>
          let element := substring0 300 (html n0) in
          match get VIOLATION_TEMPLATES (id v) with
          | Own template =>
              Awaiting cacheKey
                {| system_context := helpUrl v; system_element := element;
                   user := FromTemplate template (html n0) |}
          | Undefined =>
              Awaiting cacheKey
                {| system_context := helpUrl v; system_element := element;
                   user := Generic (id v) (impact v) (helpUrl v) element |}
          | Inherited =>
              (* an inherited member has no [replace]: a TypeError inside
                 the [try], which the [catch] turns into the error payload *)
              Settled (Returned (error_payload v None))
          end
      end
  end.

(** The rest: the provider's answer is awaited, a text is cached and
    returned, a failure becomes the error payload. *)
Definition finish_suggestion (w : world) (v : violation) (p : pending)
    (st : state) : outcome payload * state :=
  match p with
  | Settled o => (o, st)
  | Awaiting key req =>
      let ticket := calls st in
      match complete w ticket req with
      | Completed content =>
          let result :=
            Suggestion (id v) (trim content) (OPENAI_MODEL w)
              (clock w ticket) false in
          (Returned result,
           {| RESPONSE_CACHE := <[key := result]> (RESPONSE_CACHE st);
              calls := S ticket |})
      | Failed code =>
          (Returned (error_payload v code),
           {| RESPONSE_CACHE := RESPONSE_CACHE st; calls := S ticket |})
      end
  end.

Definition generateFixSuggestions (w : world) (v : violation) (st : state)
  : outcome payload * state :=
  finish_suggestion w v (begin_suggestion v (RESPONSE_CACHE st)) st.

(** *** Risk score *)

Definition SEVERITY_WEIGHTS : list (string * Z) :=
  [ ("critical", 10); ("high", 6); ("medium", 3); ("low", 1) ]%string.

(** The running total of the [reduce]: a number, or, once an inherited
    member has been added to it, a string that does not read as a number. *)
Inductive total : Type :=
  | Num (n : Z)
  | Text.

(** [total + (SEVERITY_WEIGHTS[severity] || 1)] *)
Definition add_weight (t : total) (severity : string) : total :=
  match t, get SEVERITY_WEIGHTS severity with
  | Num n, Own w => Num (n + (if w =? 0 then 1 else w))
  | Num n, Undefined => Num (n + 1)
  | Num _, Inherited => Text
  | Text, _ => Text
  end.

Definition rawScore (severities : list string) : total :=
  fold_left add_weight severities (Num 0).

(** [calculateRiskScore], over the [severity] fields of the violations. *)
Definition calculateRiskScore (severities : list string) : float :=
  let maxPossibleScore := Z.of_nat (length severities) * 10 in
  if 0 <? maxPossibleScore then
    match rawScore severities with
    | Num raw =>
        Math_min (Math_round ((of_Z raw / of_Z maxPossibleScore) * 100)%float)
                 100%float
    | Text => nan
    end
  else 0%float.

(** *** Enhancing a scan result *)

Record enhanced_node := { e_html : string; e_target : string }.

Record enhanced := {
  raw : violation;
  severity : string;
  e_nodes : list enhanced_node;
  suggestion : payload
}.

Definition enhance_node (n : node) : enhanced_node :=
  {| e_html := substring0 500 (html n); e_target := join " > " (target n) |}.

(** The object handed to [generateFixSuggestions]:
    [{ ...violation, severity, nodes }] with the truncated nodes. *)
Definition with_nodes (v : violation) : violation :=
  {| id := id v; impact := impact v; helpUrl := helpUrl v;
     description := description v; tags := tags v;
     nodes := map (fun n => {| html := substring0 500 (html n);
                               target := [join " > " (target n)] |}) (nodes v) |}.

(** The answers of the calls of a batch are consumed, here in the order
    the calls were issued; a call that missed the cache stores its answer
    when it is consumed, over whatever the cache holds under its key by
    then. *)
Fixpoint finish_pending (w : world)
    (ps : list (violation * pending)) (st : state)
  : list (violation * outcome payload) * state :=
  match ps with
  | [] => ([], st)
  | (v, p) :: rest =>
      let '(o, st1) := finish_suggestion w (with_nodes v) p st in
      let '(os, st2) := finish_pending w rest st1 in
      ((v, o) :: os, st2)
  end.

(** One batch under [Promise.all]: [batch.map] starts the callbacks one
    after the other and each runs [generateFixSuggestions] up to its
    [await], so every call has consulted the cache as the batch found it
    before any answer arrives; then the answers are consumed.  The batch
    throws if one of its calls threw. *)
Definition finish_batch (w : world) (vs : list violation) (st : state)
  : list (violation * outcome payload) * state :=
  finish_pending w
    (map (fun v => (v, begin_suggestion (with_nodes v) (RESPONSE_CACHE st))) vs)
    st.

Definition enhance (v : violation) (s : payload) : enhanced :=
  {| raw := v; severity := severity_of (impact v);
     e_nodes := map enhance_node (nodes v); suggestion := s |}.

(** [await Promise.all(...)]: the enhanced batch, or the first rejection. *)
Fixpoint settle_all (os : list (violation * outcome payload))
  : outcome (list enhanced) :=
  match os with
  | [] => Returned []
  | (v, Threw e) :: _ => Threw e
  | (v, Returned s) :: rest =>
      match settle_all rest with
      | Returned es => Returned (enhance v s :: es)
      | Threw e => Threw e
      end
  end.

(** The [for (const batch of violationBatches)] loop: batches run one after
    the other; a rejected batch rejects [enhanceResults]. *)
Fixpoint process_batches (w : world) (bs : list (list violation))
    (acc : list enhanced) (st : state) : outcome (list enhanced) * state :=
  match bs with
  | [] => (Returned acc, st)
  | batch :: rest =>
      let '(os, st1) := finish_batch w batch st in
      match settle_all os with
      | Returned enhancedBatch =>
          process_batches w rest (acc ++ enhancedBatch) st1
      | Threw e => (Threw e, st1)
      end
  end.

(** [acc[v.severity] = (acc[v.severity] || 0) + 1], keys in insertion order.
    The severities counted here are the five names [severity_of] produces. *)
Fixpoint bump (key : string) (acc : list (string * Z)) : list (string * Z) :=
  match acc with
  | [] => [(key, 1)]
  | (k, n) :: rest =>
      if String.eqb k key then (k, n + 1) :: rest else (k, n) :: bump key rest
  end.

Record metrics := {
  riskScore : float;
  violationCount : nat;
  severityBreakdown : list (string * Z)
}.

Record scan := {
  violations : list enhanced;
  scan_metrics : metrics
}.

Definition BATCH_SIZE : nat := 5.

Definition enhanceResults (w : world) (results : list violation) (st : state)
  : outcome scan * state :=
  let violationBatches := batches BATCH_SIZE results in
  match process_batches w violationBatches [] st with
  | (Returned processedViolations, st') =>
      (Returned
         {| violations := processedViolations;
            scan_metrics :=
              {| riskScore :=
                   calculateRiskScore (map severity processedViolations);
                 violationCount := length processedViolations;
                 severityBreakdown :=
                   fold_left (fun acc v => bump (severity v) acc)
                     processedViolations [] |} |},
       st')
  | (Threw e, st') => (Threw e, st')
  end.

(** *** The risk score as the specification words it *)

(** The five severities of the data model. *)
Inductive Severity : Type := critical | high | medium | low | unknown.

Definition severity_name (s : Severity) : string :=
  match s with
  | critical => "critical"
  | high => "high"
  | medium => "medium"
  | low => "low"
  | unknown => "unknown"
  end.

(** Weights: critical=10, high=6, medium=3, low=1, unknown=1. *)
Definition weight (s : Severity) : Z :=
  match s with
  | critical => 10
  | high => 6
  | medium => 3
  | low => 1
  | unknown => 1
  end.

End Scanner.

(** ** The reference definition of the risk score

    The formula of the specification, read as written: the quotient, the
    product and the rounding are those of exact arithmetic, over the
    rationals. *)

Module ScoreReference.
Import JS Scanner.




End ScoreReference.

(** ** Crawler: breadth-first page discovery

    [SiteCrawler.crawl], lines 18-63 of [services/crawler.js]. *)

Module Crawler.

(** What loading a page yields: a navigation error (or any other failure
    inside the [try]), or the page's title and the [href]s of its anchors. *)
Inductive loaded : Type :=
  | NavigationError (message : string)
  | Page (title : string) (hrefs : list string).

(** The collaborators: the browser, whose answers may change from one
    navigation to the next (navigations are numbered), and the URL parser
    ([None]: [new URL(link)] throws). *)
Record web := {
  goto : nat -> string -> loaded;
  hostname : string -> option string
}.

Record item := { url : string; depth : Z }.

(** What a run does, in the order it does it. *)
Inductive event : Type :=
  | Enqueued (url : string) (depth : Z)     (* [queue.push], and the seed *)
  | Marked (url : string)                   (* [this.visited.add(url)] *)
  | Fetched (url : string)                  (* [page.goto(url)] *)
  | Recorded (url title : string).          (* [pages.push({url, title})] *)

Record state := {
  queue : list item;
  visited : gset string;
  pages : list (string * string);
  trace : list event;
  navigations : nat
}.

(** [href.startsWith('http')] *)
Definition starts_with_http (href : string) : bool :=
  String.prefix "http" href.

(** The links of a page that are queued: absolute http(s) links that parse
    and whose host name is the start URL's. *)
Definition internal (w : web) (domain : string) (link : string) : bool :=
  match hostname w link with
  | Some h => String.eqb h domain
  | None => false
  end.

Definition internal_links (w : web) (domain : string) (hrefs : list string)
  : list string :=
  filter (fun l => internal w domain l = true)
         (filter (fun h => starts_with_http h = true) hrefs).

(** One iteration of the [while (queue.length > 0)] loop. *)
Definition step (w : web) (domain : string) (maxDepth : Z) (st : state)
  : state :=
  match queue st with
  | [] => st
  | {| url := u; depth := d |} :: rest =>
      if (maxDepth <? d) || bool_decide (u ∈ visited st) then
        {| queue := rest; visited := visited st; pages := pages st;
           trace := trace st; navigations := navigations st |}
      else
        let visited' := {[u]} ∪ visited st in
        match goto w (navigations st) u with
        | NavigationError _ =>
            {| queue := rest; visited := visited'; pages := pages st;
               trace := trace st ++ [Marked u; Fetched u];
               navigations := S (navigations st) |}
        | Page title hrefs =>
            let links := internal_links w domain hrefs in
            {| queue := rest ++ map (fun l => {| url := l; depth := d + 1 |}) links;
               visited := visited';
               pages := pages st ++ [(u, title)];
               trace := trace st ++ [Marked u; Fetched u; Recorded u title]
                          ++ map (fun l => Enqueued l (d + 1)) links;
               navigations := S (navigations st) |}
        end
  end.

(** The loop, for at most [fuel] iterations. *)
Fixpoint run (w : web) (domain : string) (maxDepth : Z) (fuel : nat)
    (st : state) : state :=
  match fuel with
  | O => st
  | S fuel' =>
      match queue st with
      | [] => st
      | _ => run w domain maxDepth fuel' (step w domain maxDepth st)
      end
  end.

Definition start (baseUrl : string) (visited0 : gset string) : state :=
  {| queue := [{| url := baseUrl; depth := 0 |}]; visited := visited0;
     pages := []; trace := [Enqueued baseUrl 0]; navigations := 0 |}.

(** The result of [crawl]: it throws when the start URL does not parse,
    and otherwise returns the pages once the queue is empty. *)
Inductive result : Type :=
  | Threw
  | OutOfFuel
  | Returned (pages : list (string * string)) (final : state).

(** [crawl(baseUrl, maxDepth)] on a crawler whose visited set is [visited0]
    (empty for a new crawler). *)
Definition crawl (w : web) (fuel : nat) (baseUrl : string) (maxDepth : Z)
    (visited0 : gset string) : result :=
  match hostname w baseUrl with
  | None => Threw
  | Some domain =>
      let st := run w domain maxDepth fuel (start baseUrl visited0) in
      match queue st with
      | [] => Returned (pages st) st
      | _ => OutOfFuel
      end
  end.

End Crawler.

(** ** Numbers of the embedding code

    The embedding codec and the similarity measure are written over the
    operations they use on numbers; the program runs them on binary64. *)

Module Numbers.

Class Number (N : Type) : Type := {
  of_int : Z -> N;
  add : N -> N -> N;
  sub : N -> N -> N;
  mul : N -> N -> N;
  div : N -> N -> N;
  sqrt : N -> N;
  ltb : N -> N -> bool;          (* [a < b] *)
  truthy : N -> bool;            (* [ToBoolean]: neither zero nor NaN *)
  round : N -> N;                (* [Math.round] *)
  trunc : N -> Z                 (* the integer part; 0 for NaN and infinities *)
}.

(** The conversion an [Int8Array] applies to an integer: modulo 2^8, into
    [-128, 127]. *)
Definition wrap8 (z : Z) : Z := (z + 128) mod 256 - 128.

Definition float_trunc (x : float) : Z :=
  match Prim2SF x with
  | S754_finite s m e =>
      let a := if 0 <=? e then Z.pos m * 2 ^ e else Z.pos m / 2 ^ (- e) in
      if s then - a else a
  | _ => 0
  end.

#[export] Instance binary64 : Number float := {|
  of_int := JS.of_Z;
  add := PrimFloat.add;
  sub := PrimFloat.sub;
  mul := PrimFloat.mul;
  div := PrimFloat.div;
  sqrt := PrimFloat.sqrt;
  ltb := PrimFloat.ltb;
  truthy := JS.truthy;
  round := JS.Math_round;
  trunc := float_trunc
|}.

End Numbers.

(** ** Indexer: the embedding codec and the page transaction

    [AIIndexer]: [storePageResults] (lines 75-159 of the indexer) and
    [compressEmbedding] (196-200); the tables are those of the schema
    ([db/schema]), whose foreign keys cascade on delete. *)

Module Indexer.
Import JS Numbers.

(** [compressEmbedding]: every component is scaled by 127, rounded and
    stored in an [Int8Array]; the result is the JSON text of that array,
    kept here as the integers it lists. *)
Definition compressEmbedding {N} `{Number N} (embedding : list N) : list Z :=
  map (fun val => wrap8 (trunc (round (mul val (of_int 127))))) embedding.

(** *** Tables *)

Record website := {
  w_id : Z;
  w_domain : string;
  compliance_score : float
}.

Record page := {
  p_id : Z;
  website_id : Z;
  p_url : string;
  p_title : string;
  risk_score : float;
  scan_data : string
}.

Record violation_row := {
  page_id : Z;
  violation_id : string;
  v_description : string;
  v_severity : string;
  v_html : string;
  v_suggestion : string;
  embedding : option (list Z)
}.

(** The three tables and the two AUTOINCREMENT counters that matter. *)
Record tables := {
  websites : list website;
  pages : list page;
  violations : list violation_row;
  website_seq : Z;
  page_seq : Z
}.

(** A connection: the tables as this connection sees them and, inside a
    transaction, the tables as they were when it began. *)
Record db := {
  data : tables;
  undo : option tables
}.

(** What any other reader sees: the last committed tables. *)
Definition committed (d : db) : tables :=
  match undo d with
  | Some t => t
  | None => data d
  end.

Definition begin_transaction (d : db) : db :=
  match undo d with
  | None => {| data := data d; undo := Some (data d) |}
  | Some _ => d
  end.

Definition rollback (d : db) : db :=
  match undo d with
  | Some t => {| data := t; undo := None |}
  | None => d
  end.

Definition set_data (d : db) (t : tables) : db :=
  {| data := t; undo := undo d |}.

(** Deleting pages cascades to their violations. *)
Definition delete_pages (doomed : page -> bool) (t : tables) : tables :=
  let gone := map p_id (filter (fun p => doomed p = true) (pages t)) in
  {| websites := websites t;
     pages := filter (fun p => doomed p = false) (pages t);
     violations :=
       filter (fun v => bool_decide (page_id v ∈ gone) = false) (violations t);
     website_seq := website_seq t; page_seq := page_seq t |}.

(** Deleting a website cascades to its pages. *)
Definition delete_website (domain : string) (t : tables) : tables :=
  let gone := map w_id (filter (fun w => w_domain w = domain) (websites t)) in
  let t' := delete_pages (fun p => bool_decide (website_id p ∈ gone)) t in
  {| websites := filter (fun w => w_domain w ≠ domain) (websites t');
     pages := pages t'; violations := violations t';
     website_seq := website_seq t'; page_seq := page_seq t' |}.

(** [INSERT OR REPLACE INTO websites (domain, compliance_score)]: a row
    with the same domain is deleted first; the new row gets a fresh id. *)
Definition upsert_website (domain : string) (score : float) (t : tables)
  : tables :=
  let t' := delete_website domain t in
  let i := website_seq t' + 1 in
  {| websites := websites t' ++
       [{| w_id := i; w_domain := domain; compliance_score := score |}];
     pages := pages t'; violations := violations t';
     website_seq := i; page_seq := page_seq t' |}.

(** [INSERT OR REPLACE INTO pages ...], the website id read by the
    sub-select; the result is the new row's id ([this.lastID]), or nothing
    when the sub-select finds no website ([website_id] is NOT NULL). *)
Definition upsert_page (domain url title : string) (risk : float)
    (blob : string) (t : tables) : option (Z * tables) :=
  match filter (fun w => w_domain w = domain) (websites t) with
  | [] => None
  | w :: _ =>
      let t' := delete_pages (fun p => String.eqb (p_url p) url) t in
      let i := page_seq t' + 1 in
      Some (i,
        {| websites := websites t';
           pages := pages t' ++
             [{| p_id := i; website_id := w_id w; p_url := url;
                 p_title := title; risk_score := risk; scan_data := blob |}];
           violations := violations t';
           website_seq := website_seq t'; page_seq := i |})
  end.

(** The violations stored for the page with a given URL. *)
Definition violations_of (url : string) (t : tables) : list violation_row :=
  let ids := map p_id (filter (fun p => p_url p = url) (pages t)) in
  filter (fun v => page_id v ∈ ids) (violations t).

(** *** Storing one page *)

(** What can go wrong while one page is stored: the website upsert and the
    page upsert may fail.  No later statement is ever run, see
    [storePageResults]. *)
Record environment := {
  website_fails : bool;
  page_fails : bool
}.

Inductive step_name : Type :=
  | WebsiteUpsert | PageUpsert | ViolationDelete.

(** How a call ends: the promise it returned is resolved, or rejected, or
    left pending for ever because an exception escaped from a callback and
    neither [resolve] nor [reject] was called. *)
Inductive ending : Type :=
  | Resolved
  | Rejected (at_step : step_name)
  | Pending (at_step : step_name).

Record stored := {
  result : ending;
  connection : db
}.

(** [this.db.run('ROLLBACK'); reject(err)] where [this] is the indexer. *)
Definition reject (s : step_name) (d : db) : stored :=
  {| result := Rejected s; connection := rollback d |}.

(** [this.db.run(...)] where [this] is a statement: [this.db] is
    [undefined] and the call throws a TypeError, which escapes from the
    callback.  Nothing is run on the connection. *)
Definition escape (s : step_name) (d : db) : stored :=
  {| result := Pending s; connection := d |}.

(** [storePageResults(domain, url, title, scanData)]; [blob] is
    [JSON.stringify(scanData)].  In the method, [this.db] is taken to be
    the open sqlite3 connection, as the constructor means it to be.

    The callback of the website upsert is an arrow function: its [this]
    is the indexer.  The callback of the page upsert (lines 101-149) is an
    [async function]: sqlite3 calls it with the statement as [this], which
    has a [lastID] and no [db].  So every [this.db.run(...)] in it throws:
    - when the upsert failed, [this.db.run('ROLLBACK')] throws before
      [return reject(err)];
    - otherwise [this.db.run('DELETE ...')] throws inside the executor of
      the awaited promise, the [catch] is entered, and its
      [this.db.run('ROLLBACK')] throws before [reject(err)].
    Either way the exception rejects the promise of the callback itself,
    which nobody holds.  Lines 118-143 (the inserts and the COMMIT, with
    the only [resolve()]) are never reached. *)
Definition storePageResults (env : environment) (domain url title : string)
    (scanData : Scanner.scan) (blob : string) (d : db) : stored :=
  let risk := Scanner.riskScore (Scanner.scan_metrics scanData) in
  let complianceScore := (100 - risk)%float in
  let d0 := begin_transaction d in
  (* 1. Insert/Update website *)
  if website_fails env then reject WebsiteUpsert d0 else
  let d1 := set_data d0 (upsert_website domain complianceScore (data d0)) in
  (* 2. Insert/Update page *)
  if page_fails env then escape PageUpsert d1 else
  match upsert_page domain url title risk blob (data d1) with
  | None => escape PageUpsert d1
  | Some (pageId, t2) =>
      let d2 := set_data d1 t2 in
      (* 3. Delete old violations *)
      escape ViolationDelete d2
  end.

End Indexer.

(** ** Search engine: cosine similarity and semantic search

    [services/searchEngine.js]: [semanticSearch] (lines 117-170, the second
    definition in the class, which is the one in effect),
    [cosineSimilarity] (172-197) and [generateEmbedding] (202-213). *)

Module SearchEngine.
Import JS Numbers.

(** An argument of [cosineSimilarity]: the stored JSON text of a
    compressed embedding (the integers it lists), or an array of numbers. *)
Inductive vector (N : Type) : Type :=
  | Text (ints : list Z)
  | Array (xs : list N).
Arguments Text {N} ints.
Arguments Array {N} xs.

(** A violation joined with its page and website.  [r_embedding] is what
    [JSON.parse(v.embedding)] yields; [None] when it throws. *)
Record row (N : Type) := {
  r_id : Z;
  r_violation_id : string;
  r_description : string;
  r_severity : string;
  r_embedding : option (list N);
  r_url : string;
  r_title : string;
  r_domain : string
}.
Arguments r_id {N} _.
Arguments r_violation_id {N} _.
Arguments r_description {N} _.
Arguments r_severity {N} _.
Arguments r_embedding {N} _.
Arguments r_url {N} _.
Arguments r_title {N} _.
Arguments r_domain {N} _.

(** The collaborators: the embedding provider ([None]: the call fails) and
    the store's answer to the SELECT, before its LIMIT is applied: the
    violations that have an embedding, joined with their page and website
    ([None]: the query fails). *)
Record services (N : Type) := {
  embeddings_create : string -> option (list N);
  db_all : option (list (row N))
}.
Arguments embeddings_create {N} _ _.
Arguments db_all {N} _.

Section Engine.
Context {N : Type} `{Number N}.

(** [decompress]: a text is parsed and every integer divided by 127. *)
Definition decompress (v : vector N) : list N :=
  match v with
  | Text ints => map (fun val => div (of_int val) (of_int 127)) ints
  | Array xs => xs
  end.

(** The [for] loop of [cosineSimilarity] over two arrays of equal length. *)
Fixpoint accumulate (a b : list N) (dot magA magB : N) : N * N * N :=
  match a, b with
  | x :: a', y :: b' =>
      accumulate a' b' (add dot (mul x y)) (add magA (mul x x))
        (add magB (mul y y))
  | _, _ => (dot, magA, magB)
  end.

(** [cosineSimilarity(vecA, vecB)]; a missing argument is [None]. *)
Definition cosineSimilarity (vecA vecB : option (vector N)) : N :=
  match vecA, vecB with
  | Some va, Some vb =>
      let a := decompress va in
      let b := decompress vb in
      if negb (length a =? length b)%nat then of_int 0
      else
        let '(dot, magA, magB) :=
          accumulate a b (of_int 0) (of_int 0) (of_int 0) in
        if truthy magA && truthy magB
        then div dot (mul (sqrt magA) (sqrt magB))
        else of_int 0
  | _, _ => of_int 0
  end.

(** [generateEmbedding]: a failure is caught and an empty array returned. *)
Definition generateEmbedding (s : services N) (text : string) : list N :=
  match embeddings_create s text with
  | Some e => e
  | None => []
  end.

(** The threshold literal [0.3]. *)
Definition threshold : N := div (of_int 3) (of_int 10).

(** A search result: the row and its similarity to the query. *)
Definition scored : Type := row N * N.

(** The callback of [violations.map]: [null] (here [None]) for a row whose
    embedding does not parse or has another length than the query's. *)
Definition score (queryEmbedding : list N) (v : row N) : option scored :=
  match r_embedding v with
  | None => None
  | Some vec =>
      if negb (length vec =? length queryEmbedding)%nat then None
      else Some (v, cosineSimilarity (Some (Array queryEmbedding))
                                     (Some (Array vec)))
  end.

(** The comparator [(a, b) => b.similarity - a.similarity]. *)
Definition compare_desc (a b : scored) : N := sub (snd b) (snd a).

(** [Array.prototype.sort] with a comparator: a stable sort, [a] staying
    before [b] unless the comparator's value is positive. *)
Fixpoint insert_sorted (cmp : scored -> scored -> N) (x : scored)
    (l : list scored) : list scored :=
  match l with
  | [] => [x]
  | y :: rest =>
      if ltb (of_int 0) (cmp x y) then y :: insert_sorted cmp x rest
      else x :: l
  end.

Definition sort (cmp : scored -> scored -> N) (l : list scored)
  : list scored :=
  foldr (insert_sorted cmp) [] l.

(** [xs.slice(0, limit)]: a negative limit counts from the end. *)
Definition slice0 {A} (limit : Z) (xs : list A) : list A :=
  if limit <? 0 then take (Z.to_nat (Z.of_nat (length xs) + limit)) xs
  else take (Z.to_nat limit) xs.

(** [semanticSearch(query, limit)] *)
Definition semanticSearch (s : services N) (query : string) (limit : Z)
  : list scored :=
  let contextualQuery :=
    ("Accessibility violation about " +:+ query +:+ " in web development")%string in
  let queryEmbedding := generateEmbedding s contextualQuery in
  match queryEmbedding with
  | [] => []                       (* thrown, caught: empty result *)
  | _ =>
      match db_all s with
      | None => []                 (* the query failed: caught *)
      | Some rows =>
          let violations := take 1000 rows in
          let results := omap (score queryEmbedding) violations in
          slice0 limit
            (sort compare_desc
               (filter (fun r => ltb threshold (snd r) = true) results))
      end
  end.

End Engine.

End SearchEngine.

(** ** Vocabulary: scans and their severities *)

Module ScannerTerms.
Import JS Scanner.

(** The fixed table as the specification words it: critical <- serious,
    critical; high <- moderate; medium <- minor; low <- cosmetic; else
    unknown. *)
Definition severity_table (impact : option string) : string :=
  match impact with
  | None => "unknown"
  | Some i =>
      if String.eqb i "serious" || String.eqb i "critical" then "critical"
      else if String.eqb i "moderate" then "high"
      else if String.eqb i "minor" then "medium"
      else if String.eqb i "cosmetic" then "low"
      else "unknown"
  end.

(** The violation lists at least one affected node. *)
Definition has_node (v : violation) : Prop := nodes v <> [].

(** The enhanced entry carries the severity the table gives its impact. *)
Definition by_table (e : enhanced) : Prop :=
  severity e = severity_table (impact (raw e)).

(** The [severity] fields of violations with the given severities. *)
Definition names (vs : list Severity) : list string := map severity_name vs.

(** The sum of their weights. *)
Definition weights (vs : list Severity) : Z := foldr Z.add 0 (map weight vs).

(** A provider whose every call is rate limited. *)
Definition rate_limited : world :=
  {| complete := fun _ _ => Failed (Some "rate_limit_exceeded"%string);
     clock := fun _ => "2024-01-01T00:00:00.000Z"%string;
     OPENAI_MODEL := None |}.

(** The cache of a process that has just started. *)
Definition fresh : state := {| RESPONSE_CACHE := ∅; calls := 0 |}.

(** A violation of the given rule and impact, on one image element. *)
Definition sample (rule : string) (i : option string) : violation :=
  {| id := rule; impact := i;
     helpUrl := Some "https://rules.example/help"%string;
     description := "sample"%string; tags := ["wcag2a"%string];
     nodes := [{| html := "<img src=logo.png>"%string;
                  target := ["body"; "img"]%string |}] |}.

(** A scan with three violations: serious, moderate, and without impact. *)
Definition three_findings : list violation :=
  [sample "image-alt" (Some "serious"%string);
   sample "region" (Some "moderate"%string);
   sample "label" None].

(** A violation without any node: the first node's HTML is read before
    the [try] block is entered. *)
Definition no_nodes : violation :=
  {| id := "region"%string; impact := Some "moderate"%string;
     helpUrl := Some "https://rules.example/help"%string;
     description := "sample"%string; tags := []; nodes := [] |}.

End ScannerTerms.

(** ** Vocabulary: what a crawl does *)

Module CrawlerTerms.
Import Crawler.

(** The URLs navigated to, in order. *)
Definition fetches (tr : list event) : list string :=
  omap (fun e => match e with Fetched u => Some u | _ => None end) tr.

(** The [queue.push] calls (and the seed), in order. *)
Definition enqueues (tr : list event) : list (string * Z) :=
  omap (fun e => match e with Enqueued u d => Some (u, d) | _ => None end) tr.

(** Every navigation to [u] comes after [u] was added to the visited set. *)
Definition marked_first (tr : list event) : Prop :=
  forall i u, tr !! i = Some (Fetched u) ->
    exists j, (j < i)%nat /\ tr !! j = Some (Marked u).

(** What every iteration of the crawl loop preserves. *)
Record invariant (st : state) : Prop := {
  fetched_once : NoDup (fetches (trace st));
  fetched_visited : forall u, u ∈ fetches (trace st) -> u ∈ visited st;
  recorded_once : NoDup (map fst (pages st));
  recorded_visited : forall u, u ∈ map fst (pages st) -> u ∈ visited st;
  marked : marked_first (trace st)
}.

(** The pages a crawl of depth 0 returns: the start page, if it loads. *)
Definition seed_page (w : web) (baseUrl : string) : list (string * string) :=
  match goto w 0 baseUrl with
  | Page title _ => [(baseUrl, title)]
  | NavigationError _ => []
  end.

(** The links of the start page that are pushed on the queue. *)
Definition seed_links (w : web) (domain baseUrl : string) : list string :=
  match goto w 0 baseUrl with
  | Page _ hrefs => internal_links w domain hrefs
  | NavigationError _ => []
  end.

(** A two-page site: the home page links to an internal page and to
    another host. *)
Definition small_site : web :=
  {| goto := fun _ u =>
       if String.eqb u "https://site.example/"
       then Page "Home" ["https://site.example/about";
                         "https://other.example/"; "mailto:a@site.example"]
       else Page "About" ["https://site.example/"];
     hostname := fun u =>
       if String.prefix "https://site.example/" u then Some "site.example"
       else if String.prefix "https://" u then Some "other.example"
       else None |}%string.

End CrawlerTerms.

(** ** Vocabulary: a stored page and a new scan of it *)

Module IndexerTerms.
Import JS Numbers Indexer.

(** A violation row of page 1, as an earlier scan left it. *)
Definition old_row (rule : string) : violation_row :=
  {| page_id := 1; violation_id := rule; v_description := "old"%string;
     v_severity := "high"%string; v_html := ""%string;
     v_suggestion := ""%string; embedding := None |}.

(** A store holding one page with two violations, no transaction open. *)
Definition one_page : db :=
  {| data :=
       {| websites := [{| w_id := 1; w_domain := "site.example"%string;
                          compliance_score := 40%float |}];
          pages := [{| p_id := 1; website_id := 1;
                       p_url := "https://site.example/"%string;
                       p_title := "Home"%string; risk_score := 60%float;
                       scan_data := "{}"%string |}];
          violations := [old_row "label"; old_row "region"];
          website_seq := 1; page_seq := 1 |};
     undo := None |}.

(** A new scan of that page, with three violations. *)
Definition rescan : Scanner.scan :=
  let entry rule :=
    Scanner.enhance (ScannerTerms.sample rule (Some "serious"%string))
      (Scanner.Unavailable rule "AI Service Unavailable: Timeout" None false) in
  {| Scanner.violations := [entry "image-alt"; entry "color-contrast";
                            entry "empty-heading"]%string;
     Scanner.scan_metrics :=
       {| Scanner.riskScore := 100%float; Scanner.violationCount := 3;
          Scanner.severityBreakdown := [("critical"%string, 3)] |} |}.

(** The page upsert fails. *)
Definition page_upsert_fails : environment :=
  {| website_fails := false; page_fails := true |}.

(** The website upsert fails. *)
Definition website_upsert_fails : environment :=
  {| website_fails := true; page_fails := false |}.

(** Neither upsert fails. *)
Definition all_succeed : environment :=
  {| website_fails := false; page_fails := false |}.

End IndexerTerms.

(** ** Vocabulary: the order of binary64 *)

Module Binary64Terms.

(** The rank of a number in the order of binary64: class, then exponent,
    then mantissa. *)
Definition rank (x : spec_float) : Z * Z * Z :=
  match x with
  | S754_infinity true => (-2, 0, 0)
  | S754_finite true m e => (-1, - e, Z.neg m)
  | S754_zero _ => (0, 0, 0)
  | S754_nan => (0, 0, 0)
  | S754_finite false m e => (1, e, Z.pos m)
  | S754_infinity false => (2, 0, 0)
  end.

(** The lexicographic order of ranks. *)
Definition rank_lt (a b : Z * Z * Z) : Prop :=
  let '(a1, a2, a3) := a in
  let '(b1, b2, b3) := b in
  a1 < b1 \/ (a1 = b1 /\ (a2 < b2 \/ (a2 = b2 /\ a3 < b3))).

(** Anything but NaN. *)
Definition is_number (x : spec_float) : Prop := x <> S754_nan.

(** The value of a finite number in units of [2^ez]. *)
Definition scaled (s : bool) (m : positive) (e ez : Z) : Z :=
  cond_Zopp s (Z.pos (fst (shl_align m e ez))).

(** A positive finite number or +infinity. *)
Definition positive_result (x : spec_float) : Prop :=
  match x with
  | S754_finite false _ _ | S754_infinity false => True
  | _ => False
  end.

End Binary64Terms.

(** ** Vocabulary: the value of a binary64 number *)

Module Binary64Value.

(** 2^e as a real number. *)
Definition bpow (e : Z) : R := powerRZ 2 e.

(** The value of a positive finite number. *)
Definition value (m : positive) (e : Z) : R := (IZR (Z.pos m) * bpow e)%R.

(** A positive normal number with its mantissa and exponent. *)
Definition normal (x : float) (m : positive) (e : Z) : Prop :=
  Prim2SF x = S754_finite false m e /\ 2 ^ 52 <= Z.pos m < 2 ^ 53.

(** The relative error of one rounding, 2^-52 (one unit in the last place
    of the result). *)
Definition ulp_error : R := bpow (-52).

(** [v] is the exact [x], rounded: within one unit in the last place. *)
Definition near (v x : R) : Prop := (Rabs (v - x) <= v * ulp_error)%R.

End Binary64Value.

Module Binary64Number.
Import Binary64Value.

(** A positive normal number whose value is [r]. *)
Definition num (x : float) (r : R) : Prop :=
  exists m e, normal x m e /\ value m e = r.

(** Far from overflow and underflow. *)
Definition safe (r : R) : Prop := (bpow (-500) <= r <= bpow 500)%R.

End Binary64Number.

(** ** Vocabulary: ranked search results *)

Module SearchTerms.
Import JS Numbers SearchEngine Binary64Terms.

Section Results.
Context {N : Type} `{Number N}.

(** No result is followed by one of greater similarity. *)
Definition descending : list scored -> Prop :=
  StronglySorted (fun a b => ltb (snd a) (snd b) = false).

(** The embedding of the query, in its contextual template. *)
Definition query_embedding (s : services N) (query : string) : list N :=
  generateEmbedding s
    ("Accessibility violation about " +:+ query +:+ " in web development")%string.

(** A row that may be returned for a query: it is among the first 1000
    stored rows, its embedding parses and has the query's length, and its
    similarity to the query exceeds the threshold. *)
Definition candidate (s : services N) (query : string) (r : scored) : Prop :=
  exists rows vec,
    db_all s = Some rows /\ fst r ∈ take 1000 rows
    /\ r_embedding (fst r) = Some vec
    /\ length vec = length (query_embedding s query)
    /\ snd r = cosineSimilarity (Some (Array (query_embedding s query)))
                                (Some (Array vec))
    /\ ltb threshold (snd r) = true.

End Results.

(** A binary64 value other than NaN. *)
Definition is_float_number (x : float) : Prop := is_number (Prim2SF x).

(** Later results have a similarity less than or equal to earlier ones. *)
Definition ranked (results : list (row float * float)) : Prop :=
  StronglySorted (fun a b => PrimFloat.leb (snd b) (snd a) = true) results.

(** A stored violation with the given embedding. *)
Definition stored (n : Z) (rule : string) (e : list float) : row float :=
  {| r_id := n; r_violation_id := rule; r_description := rule;
     r_severity := "critical"%string; r_embedding := Some e;
     r_url := "https://site.example/"%string; r_title := "Home"%string;
     r_domain := "site.example"%string |}.

(** Five stored violations with an embedding; the query's embedding is
    [1; 0], to which two of them are similar enough. *)
Definition five_rows : services float :=
  {| embeddings_create := fun _ => Some [1; 0]%float;
     db_all := Some [ stored 1 "label" [0.5; 0.75]%float;
                      stored 2 "image-alt" [1; 0]%float;
                      stored 3 "region" [0; 1]%float;
                      stored 4 "empty-heading" [-1; 0]%float;
                      stored 5 "color-contrast" [0.25; 1]%float ]%string |}.

End SearchTerms.

(** ** Vocabulary: a stored vector against itself *)

Module CodecTerms.
Import JS Numbers Indexer SearchEngine.

(** The similarity of a compressed vector with itself, after decompression. *)
Definition self_cosine {N} `{Number N} (c : list Z) : N :=
  cosineSimilarity (Some (Text c)) (Some (Text c)).

End CodecTerms.

(** ** Scanner: a batch whose calls run one after the other

    What a batch would do if each call of [generateFixSuggestions] were
    awaited before the next one starts: every call then sees the answers
    of the calls before it.  This is not what [enhanceResults] does; it is
    here to be compared with [finish_batch]. *)

Module ScannerBatch.
Import JS Scanner.

Fixpoint sequential_batch (w : world) (vs : list violation) (st : state)
  : list (violation * outcome payload) * state :=
  match vs with
  | [] => ([], st)
  | v :: rest =>
      let '(o, st1) := generateFixSuggestions w (with_nodes v) st in
      let '(os, st2) := sequential_batch w rest st1 in
      ((v, o) :: os, st2)
  end.

End ScannerBatch.

(** ** Scanner: screen reader simulation

    [simulateScreenReader], lines 103-145 of [scanner/axeScanner.js].  The
    page is read through the elements [page.$$] returns, each with the
    properties the function evaluates on it. *)

Module ScreenReader.
Import JS Scanner.

Record element := {
  tagName : string;              (* [el.tagName] *)
  alt : option string;           (* [el.alt]; [undefined] where there is none *)
  aria_label : option string;    (* [el.getAttribute('aria-label')], or [null] *)
  textContent : string;          (* [el.textContent] *)
  outerHTML : string             (* [el.outerHTML] *)
}.

Record issue := {
  i_type : string;
  i_element : string;
  i_message : string;
  i_suggestion : payload
}.

(** [!x] on a string that may be missing. *)
Definition missing (x : option string) : bool :=
  match x with
  | Some s => String.eqb s ""
  | None => true
  end.

(** The object passed to [generateFixSuggestions]: an id, a description and
    one node holding the element's markup; no impact, no help URL. *)
Definition finding (rule text : string) (el : element) : violation :=
  {| id := rule; impact := None; helpUrl := None; description := text;
     tags := []; nodes := [{| html := outerHTML el; target := [] |}] |}.

(** A computation over the suggestion cache that returns or throws. *)
Definition action (A : Type) : Type := state -> outcome A * state.

Definition ret {A} (a : A) : action A := fun st => (Returned a, st).

Definition bind {A B} (m : action A) (f : A -> action B) : action B :=
  fun st =>
    match m st with
    | (Returned a, st1) => f a st1
    | (Threw e, st1) => (Threw e, st1)
    end.

Notation "'let*' x ':=' m 'in' f" := (bind m (fun x => f))
  (at level 10, x name, m at level 100, f at level 200).

(** The first [if] of the loop body: an image without alternative text. *)
Definition check_alt (w : world) (el : element) (issues : list issue)
  : action (list issue) :=
  if String.eqb (tagName el) "IMG" && missing (alt el) && missing (aria_label el)
  then
    let* suggestion :=
      generateFixSuggestions w
        (finding "screenreader-missing-alt" "Image missing alt text" el) in
    ret (issues ++ [{| i_type := "screenreader-missing-alt";
                       i_element := tagName el;
                       i_message := "Image missing alt text for screen readers";
                       i_suggestion := suggestion |}])
  else ret issues.

(** The second: a button or link without a label and without text. *)
Definition check_aria (w : world) (el : element) (issues : list issue)
  : action (list issue) :=
  if existsb (String.eqb (tagName el)) ["BUTTON"; "A"]%string
     && missing (aria_label el)
     && String.eqb (trim (textContent el)) ""
  then
    let* suggestion :=
      generateFixSuggestions w
        (finding "screenreader-missing-aria"
           "Interactive element missing ARIA label" el) in
    ret (issues ++ [{| i_type := "screenreader-missing-aria";
                       i_element := tagName el;
                       i_message := "Interactive element missing ARIA label";
                       i_suggestion := suggestion |}])
  else ret issues.

(** The [for (const element of elements)] loop. *)
Fixpoint each_element (w : world) (elements : list element)
    (issues : list issue) : action (list issue) :=
  match elements with
  | [] => ret issues
  | el :: rest =>
      let* issues1 := check_alt w el issues in
      let* issues2 := check_aria w el issues1 in
      each_element w rest issues2
  end.

Definition simulateScreenReader (w : world) (elements : list element)
  : action (list issue) :=
  each_element w elements [].

End ScreenReader.

(** ** Search engine: violation search and its route

    [SearchEngine.searchViolations], lines 215-280 of
    [services/searchEngine.js], and the [/violations] route of the search
    routes.  Filter values are strings, absent when [undefined]. *)

Module ViolationSearch.
Import JS.
Local Open Scope string_scope.

Record filters := {
  violationId : option string;
  severity : option string;
  domain : option string
}.

(** [if (x)] on a filter: [undefined] and the empty string are skipped. *)
Definition given (x : option string) : option string :=
  match x with
  | Some s => if String.eqb s "" then None else Some s
  | None => None
  end.

(** A value bound to a placeholder. *)
Inductive param : Type :=
  | Text (s : string)
  | Number (n : Z).

Definition nl : string := String (ascii_of_nat 10) "".

(** The template literal the query starts from, line by line. *)
Definition base_query : string :=
  String.concat nl
    [ "";
      "      SELECT ";
      "        v.id,";
      "        v.violation_id as violationId,";
      "        v.description,";
      "        v.severity,";
      "        v.html,";
      "        v.suggestion,";
      "        p.url,";
      "        p.title,";
      "        w.domain";
      "      FROM violations v";
      "      JOIN pages p ON v.page_id = p.id";
      "      JOIN websites w ON p.website_id = w.id";
      "      WHERE 1=1";
      "    " ].

(** One row of the result. *)
Record found := {
  f_id : Z;
  f_violationId : string;
  f_description : string;
  f_severity : string;
  f_html : string;
  f_suggestion : string;
  f_url : string;
  f_title : string;
  f_domain : string
}.

Section Engine.
(** [String.prototype.toLowerCase], and the store's answer to a statement
    with its parameters ([None]: the query fails). *)
Variable toLowerCase : string -> string.
Variable db_all : string -> list param -> option (list found).

(** The statement and its parameters, clause by clause. *)
Definition build (f : filters) (limit : Z) : string * list param :=
  let query := base_query in
  let params : list param := [] in
  let '(query, params) :=
    match given (violationId f) with
    | Some v => (query ++ " AND v.violation_id = ?", (params ++ [Text v])%list)
    | None => (query, params)
    end in
  let '(query, params) :=
    match given (severity f) with
    | Some s =>
        (query ++ " AND LOWER(v.severity) = ?",
         (params ++ [Text (toLowerCase s)])%list)
    | None => (query, params)
    end in
  let '(query, params) :=
    match given (domain f) with
    | Some d =>
        (query ++ " AND w.domain LIKE ?",
         (params ++ [Text ("%" ++ d ++ "%")])%list)
    | None => (query, params)
    end in
  (query ++ " ORDER BY v.severity DESC LIMIT ?",
   (params ++ [Number limit])%list).




End Engine.

End ViolationSearch.

(** ** Server: the validation of posted scan data

    The object the [/api/generate-pdf] handler of the server builds from
    the posted scan and hands to the report generator (lines 346-386); an
    exception sends the handler to its [catch], which answers 500. *)

Module Report.
Import JS Scanner.
Local Open Scope string_scope.

(** A parsed JSON text; an object lists its own properties, each key
    once. *)
Unset Elimination Schemes.
Inductive value : Type :=
  | Null
  | Bool (b : bool)
  | Num (x : float)
  | Str (s : string)
  | Arr (items : list value)
  | Obj (fields : list (string * value)).
Set Elimination Schemes.

(** [ToBoolean]; [None] is [undefined]. *)
Definition to_boolean (v : option value) : bool :=
  match v with
  | None | Some Null => false
  | Some (Bool b) => b
  | Some (Num x) => JS.truthy x
  | Some (Str s) => negb (String.eqb s "")
  | Some (Arr _) | Some (Obj _) => true
  end.

(** [v.key] on a value other than [null], for a key that names no built-in
    member (none of the keys the handler reads does): the object's own
    property, [undefined] on any other value. *)
Definition field (v : value) (key : string) : option value :=
  match v with
  | Obj fields => assoc key fields
  | _ => None
  end.

(** [a?.key] *)
Definition field_opt (a : option value) (key : string) : option value :=
  match a with
  | None | Some Null => None
  | Some v => field v key
  end.

(** [a || d] *)
Definition or_else (a : option value) (d : value) : value :=
  match a with
  | Some v => if to_boolean a then v else d
  | None => d
  end.

(** [Array.isArray(a) ? a : d] *)
Definition array_or (a : option value) (d : list value) : list value :=
  match a with
  | Some (Arr items) => items
  | _ => d
  end.

(** [items.map(f)] with a callback that may throw. *)
Fixpoint map_throwing (f : value -> outcome value) (items : list value)
  : outcome (list value) :=
  match items with
  | [] => Returned []
  | v :: rest =>
      match f v with
      | Threw e => Threw e
      | Returned v' =>
          match map_throwing f rest with
          | Threw e => Threw e
          | Returned rest' => Returned (v' :: rest')
          end
      end
  end.

(** [Array.isArray(a) ? a.map(f) : []] *)
Definition map_array (f : value -> outcome value) (a : option value)
  : outcome value :=
  match a with
  | Some (Arr items) =>
      match map_throwing f items with
      | Returned items' => Returned (Arr items')
      | Threw e => Threw e
      end
  | _ => Returned (Arr [])
  end.

(** The callback of [data.violations.map]; reading a property of [null]
    throws. *)
Definition validated_violation (v : value) : outcome value :=
  match v with
  | Null => Threw "TypeError: Cannot read properties of null (reading 'id')"
  | _ =>
      Returned (Obj
        [ ("id", or_else (field v "id") (Str "unknown"));
          ("description",
           or_else (field v "description") (Str "No description available"));
          ("severity", or_else (field v "severity") (Str "medium"));
          ("nodes",
           Arr (array_or (field v "nodes")
                  [Obj [("html", or_else (field v "html")
                                   (Str "<div>No HTML available</div>"))]]));
          ("suggestion",
           Obj [("suggestion",
                 or_else (field_opt (field v "suggestion") "suggestion")
                   (Str "No suggestion available"))]) ])
  end.

(** The callback of [data.screenReaderIssues.map]. *)
Definition validated_issue (issue : value) : outcome value :=
  match issue with
  | Null => Threw "TypeError: Cannot read properties of null (reading 'type')"
  | _ =>
      Returned (Obj
        [ ("type", or_else (field issue "type") (Str "screenreader-issue"));
          ("message",
           or_else (field issue "message") (Str "No message available"));
          ("element", or_else (field issue "element") (Str "Unknown element"));
          ("suggestion",
           or_else (field issue "suggestion")
             (or_else (field issue "parsedSuggestion")
                (Obj [("suggestion", Str "No suggestion available")]))) ])
  end.

Definition default_breakdown : value :=
  Obj [("critical", Num 0); ("high", Num 0); ("medium", Num 0); ("low", Num 0)].

(** [validatedData], for posted data that is truthy; [now] is
    [new Date().toISOString()]. *)
Definition validatedData (now : string) (data : value) : outcome value :=
  let metrics := field data "metrics" in
  match map_array validated_violation (field data "violations") with
  | Threw e => Threw e
  | Returned violations =>
      match map_array validated_issue (field data "screenReaderIssues") with
      | Threw e => Threw e
      | Returned screenReaderIssues =>
          Returned (Obj
            [ ("url", or_else (field data "url") (Str "Unknown URL"));
              ("scannedAt", or_else (field data "scannedAt") (Str now));
              ("scanDuration",
               or_else (field data "scanDuration") (Str "Not measured"));
              ("metrics",
               Obj [ ("riskScore",
                      or_else (field_opt metrics "riskScore") (Num 0));
                     ("violationCount",
                      or_else (field_opt metrics "violationCount") (Num 0));
                     ("severityBreakdown",
                      or_else (field_opt metrics "severityBreakdown")
                        default_breakdown);
                     ("elementsScanned",
                      or_else (field_opt metrics "elementsScanned") (Num 0)) ]);
              ("violations", violations);
              ("keyboardIssues", Arr (array_or (field data "keyboardIssues") []));
              ("screenReaderIssues", screenReaderIssues) ])
      end
  end.

End Report.

(** ** Vocabulary: where a crawl goes *)

Module CrawlerReach.
Import Crawler CrawlerTerms.


(** The start URL, or an absolute http(s) link on the crawled host. *)
Definition on_site (w : web) (domain baseUrl u : string) : Prop :=
  u = baseUrl \/ (starts_with_http u = true /\ hostname w u = Some domain).

(** The depth of a queued item: 0 for the start URL, otherwise at most one
    more than the greatest depth that is fetched. *)
Definition depth_ok (maxDepth d : Z) : Prop := d = 0 \/ 1 <= d <= maxDepth + 1.

(** A recorded page carries the title some navigation to it reported. *)
Definition loaded_as (w : web) (p : string * string) : Prop :=
  exists n hrefs, goto w n (fst p) = Page (snd p) hrefs.

(** What every iteration of the crawl loop preserves, besides
    [invariant]. *)
Record reach (w : web) (domain baseUrl : string) (maxDepth : Z)
    (visited0 : gset string) (st : state) : Prop := {
  queued_on_site :
    Forall (fun it => on_site w domain baseUrl (url it)
                      /\ depth_ok maxDepth (depth it)) (queue st);
  fetched_on_site : Forall (on_site w domain baseUrl) (fetches (trace st));
  fetched_new : Forall (fun u => u ∉ visited0) (fetches (trace st));
  fetched_marked : Forall (fun u => u ∈ visited st) (fetches (trace st));
  visited_grows : visited0 ⊆ visited st;
  enqueued_depth :
    Forall (fun e => depth_ok maxDepth (snd e)) (enqueues (trace st));
  recorded_fetched : sublist (map fst (pages st)) (fetches (trace st));
  recorded_loaded : Forall (loaded_as w) (pages st);
  fetched_count : length (fetches (trace st)) = navigations st
}.

(** The state a crawl ends in when its start URL is skipped. *)
Definition skipped (baseUrl : string) (seen : gset string) : state :=
  {| queue := []; visited := seen; pages := [];
     trace := [Enqueued baseUrl 0]; navigations := 0 |}.

End CrawlerReach.

(** ** Vocabulary: the metrics and the cache of a scan *)

Module ScanTerms.
Import JS Scanner ScannerTerms.

(** How many of the severities are [s]. *)
Definition occurrences (s : string) (severities : list string) : Z :=
  Z.of_nat (length (filter (fun x => x = s) severities)).

(** [acc[key] || 0] on a breakdown. *)
Definition count_of (key : string) (acc : list (string * Z)) : Z :=
  match assoc key acc with
  | Some n => n
  | None => 0
  end.

(** The [reduce] that builds [severityBreakdown], over the severities. *)
Definition breakdown (severities : list string) : list (string * Z) :=
  fold_left (fun acc s => bump s acc) severities [].

(** The cache key of a violation: its id, the first node's HTML with white
    space collapsed and trimmed, its impact and its help URL. *)
Definition key_of (v : violation) : option cache_key :=
  match nodes v with
  | [] => None
  | n0 :: _ =>
      Some (id v, trim (collapse_spaces false (html n0)), impact v, helpUrl v)
  end.

(** What the process does between two calls: a call of
    [generateFixSuggestions] that is started and runs to its end, or a
    whole [enhanceResults] with its batches. *)
Inductive activity : Type :=
  | Call (w : world) (v : violation)
  | Scan (w : world) (results : list violation).

Definition run_activity (st : state) (a : activity) : state :=
  match a with
  | Call w v => snd (generateFixSuggestions w v st)
  | Scan w results => snd (enhanceResults w results st)
  end.

Definition run_activities (l : list activity) (st : state) : state :=
  fold_left run_activity l st.

(** An enhanced node agrees with the raw node it was made from. *)
Definition truncated (en : enhanced_node) (n : node) : Prop :=
  String.prefix (e_html en) (html n) = true
  /\ (String.length (e_html en) <= 500)%nat
  /\ ((String.length (html n) <= 500)%nat -> e_html en = html n)
  /\ e_target en = join " > " (target n).

(** A provider that answers every request with the same text. *)
Definition helpful : world :=
  {| complete := fun _ _ => Completed "  Add an alt attribute.  "%string;
     clock := fun _ => "2024-01-01T00:00:00.000Z"%string;
     OPENAI_MODEL := Some "gpt-4-turbo"%string |}.


End ScanTerms.

(** ** Vocabulary: signs in binary64 *)

Module Binary64Sign.

(** +0, a positive finite number or +infinity. *)
Definition nonneg_result (x : spec_float) : Prop :=
  match x with
  | S754_zero false | S754_finite false _ _ | S754_infinity false => True
  | _ => False
  end.

(** The whole numbers from 0 to 100. *)
Definition percentages : list Z := seqZ 0 101.

End Binary64Sign.

(** ** Vocabulary: the rows of a site *)

Module StoreTerms.
Import JS Numbers Indexer IndexerTerms.







End StoreTerms.

(** ** Vocabulary: stored bytes in binary64 *)

Module Binary64CodecTerms.
Import JS Numbers Indexer SearchEngine.

(** The values an [Int8Array] holds. *)
Definition bytes : list Z := seqZ (-128) 256.

(** A stored byte, decompressed and compressed again. *)
Definition recompress (k : Z) : Z :=
  wrap8 (trunc (round (mul (div (of_int (N := float) k) (of_int 127))
                           (of_int 127)))).

(** +0 or -0. *)
Definition is_zero (x : float) : Prop := PrimFloat.eqb x 0 = true.

End Binary64CodecTerms.

(** ** Vocabulary: the squares a self-similarity adds up *)

Module Binary64SquareTerms.
Import JS Numbers Indexer SearchEngine Binary64Value Binary64Number.




End Binary64SquareTerms.

(** ** Vocabulary: what the screen reader simulation reports *)

Module ScreenReaderTerms.
Import JS Scanner ScreenReader.

(** An issue of one of the two kinds the simulation reports. *)
Definition reported (i : issue) : Prop :=
  i_type i = "screenreader-missing-alt"%string
  \/ i_type i = "screenreader-missing-aria"%string.

(** An element that carries a label. *)
Definition labelled (el : element) : Prop := missing (aria_label el) = false.

(** What one check adds: nothing, or one issue and at most one request to
    the provider. *)
Definition adds_at_most_one (m : action (list issue)) (issues : list issue)
    (st : state) : Prop :=
  exists extra st1,
    m st = (Returned (issues ++ extra), st1)
    /\ (length extra <= 1)%nat /\ Forall reported extra
    /\ (calls st <= calls st1 <= calls st + length extra)%nat.

(** An image without alternative text, a link without text, and a labelled
    button. *)
Definition three_elements : list element :=
  [ {| tagName := "IMG"; alt := Some ""; aria_label := None;
       textContent := ""; outerHTML := "<img src=logo.png>" |};
    {| tagName := "A"; alt := None; aria_label := None;
       textContent := "  "; outerHTML := "<a href=/about>  </a>" |};
    {| tagName := "BUTTON"; alt := None; aria_label := Some "Close";
       textContent := ""; outerHTML := "<button aria-label=Close></button>" |}
  ]%string.

End ScreenReaderTerms.

(** ** Vocabulary: statements and their placeholders *)

Module ViolationSearchTerms.
Import ViolationSearch.

(** How often a character occurs in a text. *)
Fixpoint count (c : ascii) (s : string) : nat :=
  match s with
  | EmptyString => 0
  | String a rest => (if Ascii.eqb a c then 1 else 0) + count c rest
  end.

(** Two filter objects use the same filters. *)
Definition same_shape (f g : filters) : Prop :=
  (given (violationId f) = None <-> given (violationId g) = None)
  /\ (given (severity f) = None <-> given (severity g) = None)
  /\ (given (domain f) = None <-> given (domain g) = None).



End ViolationSearchTerms.

(** ** Vocabulary: posted scan data *)

Module ReportTerms.
Import JS Scanner Report.
Local Open Scope string_scope.

(** An array that holds [null]. *)
Definition holds_null (a : option value) : Prop :=
  exists items, a = Some (Arr items) /\ Null ∈ items.

(** A posted scan with one violation that has nothing but an id. *)
Definition sparse : value :=
  Obj [("url", Str "https://site.example/");
       ("violations", Arr [Obj [("id", Str "image-alt")]])].

End ReportTerms.

(* ================================================================== *)
(** * Part II. Properties *)
(* ================================================================== *)

(** ** Batches *)

Section Batches.
Context {A : Type}.
Import JS.

Lemma batches_aux_concat (size fuel : nat) (xs : list A) :
  (0 < size)%nat -> (length xs <= fuel)%nat ->
  concat (batches_aux fuel size xs) = xs.
Proof.
  intros Hsize. revert xs.
  induction fuel as [|fuel IH]; intros xs Hlen.
  - destruct xs; [reflexivity | simpl in Hlen; lia].
  - destruct xs as [|x xs]; [reflexivity |].
    change (batches_aux (S fuel) size (x :: xs))
      with (take size (x :: xs)
              :: batches_aux fuel size (drop size (x :: xs))).
    rewrite concat_cons, IH.
    + apply take_drop.
    + rewrite length_drop. simpl in *. lia.
Qed.

Lemma batches_concat (size : nat) (xs : list A) :
  (0 < size)%nat -> concat (batches size xs) = xs.
Proof. intros Hsize. apply batches_aux_concat; [assumption | lia]. Qed.

End Batches.

(** ** Severity mapping *)

Module SeverityFacts.
Import JS Scanner ScannerTerms.
Local Open Scope string_scope.

Lemma severity_of_table (impact : option string) :
  severity_of impact = severity_table impact.
Proof.
  destruct impact as [i|]; [| reflexivity].
  unfold severity_of, severity_table, SEVERITY_MAPPING, includes; simpl.
  destruct (String.eqb i "serious"); [reflexivity |].
  destruct (String.eqb i "critical"); [reflexivity |].
  destruct (String.eqb i "moderate"); [reflexivity |].
  destruct (String.eqb i "minor"); [reflexivity |].
  destruct (String.eqb i "cosmetic"); reflexivity.
Qed.

End SeverityFacts.

(** ** Fix suggestions never escape their [catch] *)

Module SuggestionFacts.
Import JS Scanner ScannerTerms.

Lemma with_nodes_has_node (v : violation) :
  has_node v -> has_node (with_nodes v).
Proof. unfold has_node. destruct v as [? ? ? ? ? [|n ns]]; simpl; congruence. Qed.

(** Before its [await], a call on a violation with a node has not thrown. *)
Lemma begin_not_thrown (v : violation) (cache : gmap cache_key payload) :
  has_node v ->
  (exists p, begin_suggestion v cache = Settled (Returned p)) \/
  (exists key req, begin_suggestion v cache = Awaiting key req).
Proof.
  unfold has_node, begin_suggestion. intros Hn.
  destruct (nodes v) as [|n0 ns]; [congruence |].
  destruct (cache !! _); [left; eauto |].
  destruct (get VIOLATION_TEMPLATES (id v)); eauto.
Qed.

Lemma finish_returns (w : world) (v : violation) (p : pending) (st : state) :
  (forall e, p <> Settled (Threw e)) ->
  exists r, fst (finish_suggestion w v p st) = Returned r.
Proof.
  intros Hp. destruct p as [[r|e]|key req]; simpl.
  - eauto.
  - exfalso. exact (Hp e eq_refl).
  - destruct (complete w (calls st) req); simpl; eauto.
Qed.

Lemma generate_returns (w : world) (v : violation) (st : state) :
  has_node v -> exists r, fst (generateFixSuggestions w v st) = Returned r.
Proof.
  intros Hn. unfold generateFixSuggestions. apply finish_returns.
  intros e He.
  destruct (begin_not_thrown v (RESPONSE_CACHE st) Hn) as [[p Hp]|[k [r Hr]]];
    congruence.
Qed.

(** A batch whose violations all have a node settles with one enhanced
    entry per violation, in order. *)
Lemma finish_pending_settles (w : world) (ps : list (violation * pending))
    (st : state) :
  Forall (fun vp => forall e, snd vp <> Settled (Threw e)) ps ->
  exists ss, settle_all (fst (finish_pending w ps st)) =
               Returned (zip_with enhance (map fst ps) ss)
             /\ length ss = length ps.
Proof.
  intros Hall. revert st.
  induction Hall as [|[v p] ps Hp Hps IH]; intros st.
  - exists []. split; reflexivity.
  - cbn [finish_pending map fst].
    destruct (finish_returns w (with_nodes v) p st Hp) as [r Hr].
    destruct (finish_suggestion w (with_nodes v) p st) as [o st1].
    simpl in Hr. subst o.
    destruct (IH st1) as [ss [Hss Hlen]].
    destruct (finish_pending w ps st1) as [os st2]. simpl in *.
    rewrite Hss. exists (r :: ss). split; [reflexivity | simpl; lia].
Qed.

Lemma finish_batch_settles (w : world) (vs : list violation) (st : state) :
  Forall has_node vs ->
  exists ss, settle_all (fst (finish_batch w vs st)) =
               Returned (zip_with enhance vs ss)
             /\ length ss = length vs.
Proof.
  intros Hall. unfold finish_batch.
  set (ps := map (fun v => (v, begin_suggestion (with_nodes v)
                                 (RESPONSE_CACHE st))) vs).
  assert (Hps : map fst ps = vs).
  { subst ps. rewrite map_map. simpl. apply map_id. }
  destruct (finish_pending_settles w ps st) as [ss [Hss Hlen]].
  - subst ps. apply Forall_fmap. eapply Forall_impl; [exact Hall |].
    intros v Hv e He. simpl in He.
    destruct (begin_not_thrown (with_nodes v) (RESPONSE_CACHE st)
                (with_nodes_has_node v Hv)) as [[q Hq]|[k [r Hr]]];
      congruence.
  - exists ss. rewrite Hss, Hps. split; [reflexivity |].
    rewrite Hlen. subst ps. apply length_map.
Qed.

Lemma process_batches_returns (w : world) (bs : list (list violation))
    (acc : list enhanced) (st : state) :
  Forall (Forall has_node) bs ->
  exists es, fst (process_batches w bs acc st) = Returned (acc ++ es)
             /\ map raw es = concat bs
             /\ Forall (fun e => severity e = severity_of (impact (raw e))) es.
Proof.
  intros Hall. revert acc st.
  induction Hall as [|b bs Hb Hbs IH]; intros acc st.
  - exists []. simpl. rewrite app_nil_r. repeat split; constructor.
  - simpl.
    destruct (finish_batch_settles w b st Hb) as [ss [Hss Hlen]].
    destruct (finish_batch w b st) as [os st1]. simpl in Hss. rewrite Hss.
    destruct (IH (acc ++ zip_with enhance b ss) st1) as [es [Hes [Hraw Hsev]]].
    exists (zip_with enhance b ss ++ es).
    rewrite Hes, <- app_assoc. split; [reflexivity |]. split.
    + rewrite map_app, Hraw. f_equal.
      clear -Hlen. revert ss Hlen.
      induction b as [|v b IHb]; intros [|s ss] Hlen; simpl in *;
        try reflexivity; try lia.
      f_equal. apply IHb. lia.
    + apply Forall_app. split; [| exact Hsev].
      clear. revert ss. induction b as [|v b IHb]; intros [|s ss]; simpl;
        constructor; [reflexivity | apply IHb].
Qed.

(** A scan whose violations all have a node is enhanced entry by entry,
    whatever the suggestion provider answers. *)
Lemma enhanceResults_returns (w : world) (results : list violation)
    (st : state) :
  Forall has_node results ->
  exists r, fst (enhanceResults w results st) = Returned r
            /\ map raw (violations r) = results
            /\ Forall (fun e => severity e = severity_of (impact (raw e)))
                 (violations r).
Proof.
  intros Hall. unfold enhanceResults.
  assert (Hbs : Forall (Forall has_node) (batches BATCH_SIZE results)).
  { apply Forall_forall. intros b Hb. apply Forall_forall. intros v Hv.
    rewrite Forall_forall in Hall. apply Hall.
    rewrite <- (batches_concat BATCH_SIZE results) by (unfold BATCH_SIZE; lia).
    apply list_elem_of_In, in_concat. exists b.
    split; apply list_elem_of_In; assumption. }
  destruct (process_batches_returns w _ [] st Hbs) as [es [Hes [Hraw Hsev]]].
  destruct (process_batches w (batches BATCH_SIZE results) [] st)
    as [[processed|e] st'] eqn:Hrun; simpl in Hes; [| discriminate].
  injection Hes as ->. simpl. eexists. split; [reflexivity |]. simpl.
  split; [| exact Hsev].
  rewrite Hraw. apply batches_concat. unfold BATCH_SIZE; lia.
Qed.

End SuggestionFacts.

(** ** What an enhanced scan contains *)

Module EnhanceFacts.
Import JS Scanner ScannerTerms SeverityFacts SuggestionFacts.

Lemma enhance_by_table (v : violation) (s : payload) : by_table (enhance v s).
Proof. apply severity_of_table. Qed.

Lemma finish_pending_inputs (w : world) (ps : list (violation * pending))
    (st : state) :
  map fst (fst (finish_pending w ps st)) = map fst ps.
Proof.
  revert st. induction ps as [|[v p] ps IH]; intros st; [reflexivity |].
  cbn [finish_pending]. destruct (finish_suggestion _ _ _ _) as [o st1].
  specialize (IH st1). destruct (finish_pending w ps st1) as [os st2].
  simpl in *. congruence.
Qed.

Lemma finish_batch_inputs (w : world) (vs : list violation) (st : state) :
  map fst (fst (finish_batch w vs st)) = vs.
Proof.
  unfold finish_batch. rewrite finish_pending_inputs, map_map. simpl.
  apply map_id.
Qed.

Lemma settle_all_returned (os : list (violation * outcome payload))
    (es : list enhanced) :
  settle_all os = Returned es ->
  map raw es = map fst os /\ Forall by_table es.
Proof.
  revert es. induction os as [|[v [s|e]] os IH]; intros es Hes; simpl in Hes.
  - injection Hes as <-. split; constructor.
  - destruct (settle_all os) as [es'|e']; [| discriminate].
    injection Hes as <-. destruct (IH es' eq_refl) as [Hraw Hall].
    split; [simpl; congruence |].
    constructor; [apply enhance_by_table | exact Hall].
  - discriminate.
Qed.

Lemma process_batches_returned (w : world) (bs : list (list violation))
    (acc out : list enhanced) (st : state) :
  fst (process_batches w bs acc st) = Returned out ->
  exists es, out = acc ++ es /\ map raw es = concat bs /\ Forall by_table es.
Proof.
  revert acc st. induction bs as [|b bs IH]; intros acc st Hout; simpl in Hout.
  - injection Hout as <-. exists []. rewrite app_nil_r.
    repeat split; constructor.
  - pose proof (finish_batch_inputs w b st) as Hin.
    destruct (finish_batch w b st) as [os st1]. simpl in Hin.
    destruct (settle_all os) as [eb|e] eqn:Hos; [| discriminate].
    destruct (settle_all_returned os eb Hos) as [Hraw Hall].
    destruct (IH _ _ Hout) as [es [-> [Hes Hrest]]].
    exists (eb ++ es). rewrite app_assoc. split; [reflexivity |].
    split; [| apply Forall_app; auto].
    rewrite map_app, Hes, Hraw, Hin. reflexivity.
Qed.

Lemma enhanceResults_returned (w : world) (results : list violation)
    (st st' : state) (r : scan) :
  enhanceResults w results st = (Returned r, st') ->
  map raw (violations r) = results /\ Forall by_table (violations r).
Proof.
  unfold enhanceResults. intros Hr.
  destruct (process_batches w (batches BATCH_SIZE results) [] st)
    as [[out|e] st1] eqn:Hrun; [| discriminate].
  injection Hr as <- <-. simpl.
  destruct (process_batches_returned w (batches BATCH_SIZE results) [] out st)
    as [es [-> [Hraw Hall]]].
  { rewrite Hrun. reflexivity. }
  simpl. split; [| exact Hall].
  rewrite Hraw. apply batches_concat. unfold BATCH_SIZE. lia.
Qed.

End EnhanceFacts.

Module ScannerSpec.
Import JS Scanner ScannerTerms SeverityFacts SuggestionFacts EnhanceFacts.

(** C7. For every raw violation, [enhanceResults] maps the impact to the
    severity by the fixed table: serious and critical to "critical",
    moderate to "high", minor to "medium", cosmetic to "low", anything else
    to "unknown".  The enhanced list keeps the raw violations in order, and
    an entry whose impact is "serious" has severity "critical", not "high". *)
Theorem enhanceResults_severity_by_table (w : world)
    (results : list violation) (st st' : state) (r : scan) :
  enhanceResults w results st = (Returned r, st') ->
  map raw (violations r) = results
  /\ Forall (fun e => severity e = severity_table (impact (raw e)))
       (violations r)
  /\ Forall (fun e => impact (raw e) = Some "serious"%string ->
                      severity e = "critical"%string
                      /\ severity e <> "high"%string)
       (violations r).
Proof.
  intros Hr. destruct (enhanceResults_returned w results st st' r Hr)
    as [Hraw Hall].
  split; [exact Hraw |]. split; [exact Hall |].
  eapply Forall_impl; [exact Hall |].
  intros e He Hserious. unfold by_table in He.
  rewrite He, Hserious. split; [reflexivity | discriminate].
Qed.

Lemma enhanceResults_severity_by_table_witness :
  exists r st',
    enhanceResults rate_limited three_findings fresh = (Returned r, st')
    /\ map severity (violations r)
       = ["critical"; "high"; "unknown"]%string
    /\ Forall (fun e => severity e = severity_table (impact (raw e)))
         (violations r).
Proof.
  eexists. eexists. split; [vm_compute; reflexivity |].
  split; [reflexivity |].
  refine (proj1 (proj2
            (enhanceResults_severity_by_table rate_limited three_findings
               fresh _ _ _))).
  vm_compute; reflexivity.
Defined.

(** C9, as stated, fails: on a violation that lists no node the call
    throws, and so does the enhancement of a scan that contains it. *)
Lemma generateFixSuggestions_throws_without_node :
  (exists e, fst (generateFixSuggestions rate_limited no_nodes fresh) = Threw e)
  /\ (exists e, fst (enhanceResults rate_limited
                       [sample "image-alt" None; no_nodes] fresh) = Threw e).
Proof. split; eexists; vm_compute; reflexivity. Qed.

(** C9 (amended). For every violation that lists at least one node,
    [generateFixSuggestions] returns; when the call to the suggestion
    provider fails it returns the error payload, which carries the
    violation's id and help URL and is not cached; and a scan whose
    violations all list a node is enhanced entry by entry whatever the
    provider answers. *)
Theorem generateFixSuggestions_never_throws (w : world) (v : violation)
    (st : state) :
  has_node v ->
  (exists p, fst (generateFixSuggestions w v st) = Returned p)
  /\ (forall key req code,
        begin_suggestion v (RESPONSE_CACHE st) = Awaiting key req ->
        complete w (calls st) req = Failed code ->
        fst (generateFixSuggestions w v st)
          = Returned (Unavailable (id v)
                        ("AI Service Unavailable: " +:+ code_or_timeout code)
                        (helpUrl v) false)
        /\ RESPONSE_CACHE (snd (generateFixSuggestions w v st))
           = RESPONSE_CACHE st)
  /\ (forall results, Forall has_node results ->
        exists r, fst (enhanceResults w results st) = Returned r
                  /\ map raw (violations r) = results).
Proof.
  intros Hn. split; [apply generate_returns; exact Hn |]. split.
  - intros key req code Hbegin Hfail. unfold generateFixSuggestions.
    rewrite Hbegin. simpl. rewrite Hfail. simpl. split; reflexivity.
  - intros results Hall.
    destruct (enhanceResults_returns w results st Hall) as [r [Hr [Hraw _]]].
    exists r. split; assumption.
Qed.

Lemma generateFixSuggestions_never_throws_witness :
  fst (generateFixSuggestions rate_limited
         (sample "region" (Some "moderate"%string)) fresh)
  = Returned (Unavailable "region"
                "AI Service Unavailable: rate_limit_exceeded"
                (Some "https://rules.example/help"%string) false).
Proof.
  pose proof (generateFixSuggestions_never_throws rate_limited
                (sample "region" (Some "moderate"%string)) fresh) as H.
  assert (Hn : has_node (sample "region" (Some "moderate"%string)))
    by (unfold has_node; simpl; discriminate).
  destruct (H Hn) as [_ [Hfail _]].
  refine (proj1 (Hfail _ _ (Some "rate_limit_exceeded"%string) _ _));
    vm_compute; reflexivity.
Defined.

End ScannerSpec.

(** ** Facts about binary64 arithmetic *)

Module Binary64Facts.

Lemma digits2_iter_xO (p k : positive) :
  digits2_pos (Pos.iter xO p k) = (digits2_pos p + k)%positive.
Proof.
  induction k as [|k IH] using Pos.peano_ind.
  - simpl. lia.
  - rewrite Pos.iter_succ. simpl. rewrite IH. lia.
Qed.

(** A positive number of [d] binary digits lies in [[2^(d-1), 2^d)]. *)
Lemma digits2_pos_bound (p : positive) :
  2 ^ (Z.pos (digits2_pos p) - 1) <= Z.pos p < 2 ^ Z.pos (digits2_pos p).
Proof.
  induction p as [p IH|p IH|]; simpl digits2_pos.
  - rewrite Pos2Z.inj_succ.
    replace (Z.succ (Z.pos (digits2_pos p)) - 1)
      with (Z.succ (Z.pos (digits2_pos p) - 1)) by lia.
    rewrite !Z.pow_succ_r by lia. lia.
  - rewrite Pos2Z.inj_succ.
    replace (Z.succ (Z.pos (digits2_pos p)) - 1)
      with (Z.succ (Z.pos (digits2_pos p) - 1)) by lia.
    rewrite !Z.pow_succ_r by lia. lia.
  - simpl. lia.
Qed.



(** Rounding leaves a 53-digit mantissa with an exponent in range as it is. *)
Lemma binary_round_aux_normal (s : bool) (m : positive) (e : Z) :
  Z.pos (digits2_pos m) = 53 -> -1074 <= e <= 971 ->
  binary_round_aux prec emax s (Z.pos m) e loc_Exact = S754_finite s m e.
Proof.
  intros Hd He.
  assert (Hshift : fexp prec emax (Zdigits2 (Z.pos m) + e) - e = 0).
  { unfold fexp, emin, Zdigits2. rewrite Hd.
    change prec with 53. change emax with 1024. lia. }
  unfold binary_round_aux, shr_fexp.
  rewrite Hshift.
  cbn [shr shr_record_of_loc shr_m loc_of_shr_record round_nearest_even].
  rewrite Hshift. cbn [shr shr_record_of_loc shr_m].
  change (emax - prec) with 971.
  destruct (Z.leb_spec e 971); [reflexivity | lia].
Qed.




End Binary64Facts.

(** ** Risk score *)

Module RiskScoreFacts.
Import JS Scanner ScannerTerms.

Lemma add_weight_name (n : Z) (s : Severity) :
  add_weight (Num n) (severity_name s) = Num (n + weight s).
Proof. destruct s; reflexivity. Qed.

Lemma fold_add_weight (vs : list Severity) (n : Z) :
  fold_left add_weight (names vs) (Num n) = Num (n + weights vs).
Proof.
  revert n. induction vs as [|s vs IH]; intros n.
  - simpl. f_equal. unfold weights. simpl. lia.
  - unfold names. rewrite map_cons. cbn [fold_left].
    rewrite add_weight_name. fold (names vs). rewrite IH.
    f_equal. unfold weights. simpl. lia.
Qed.

Lemma rawScore_names (vs : list Severity) :
  rawScore (names vs) = Num (weights vs).
Proof. unfold rawScore. rewrite fold_add_weight. f_equal. Qed.

Lemma weights_app (vs ws : list Severity) :
  weights (vs ++ ws) = weights vs + weights ws.
Proof.
  unfold weights. induction vs as [|s vs IH]; simpl; [reflexivity |].
  rewrite IH. lia.
Qed.

Lemma weight_positive (s : Severity) : 1 <= weight s <= 10.
Proof. destruct s; simpl; lia. Qed.



(** Membership in a list of strings, decided by [String.eqb]. *)
Lemma not_elem_of_compute (s : string) (l : list string) :
  existsb (String.eqb s) l = false -> s ∉ l.
Proof.
  intros Hex Hin. apply list_elem_of_In in Hin.
  assert (existsb (String.eqb s) l = true); [| congruence].
  apply existsb_exists. exists s. split; [exact Hin | apply String.eqb_refl].
Qed.

Lemma not_inherited (s : string) :
  s ∉ prototype_keys -> existsb (String.eqb s) prototype_keys = false.
Proof.
  intros Hs. destruct (existsb (String.eqb s) prototype_keys) eqn:Hex;
    [| reflexivity].
  apply existsb_exists in Hex as [k [Hk Heq]].
  apply String.eqb_eq in Heq. subst k.
  exfalso. apply Hs, list_elem_of_In. exact Hk.
Qed.

Lemma not_weighted (s : string) :
  s ∉ ["critical"; "high"; "medium"; "low"]%string ->
  assoc s SEVERITY_WEIGHTS = None.
Proof.
  intros Hs. unfold assoc, SEVERITY_WEIGHTS.
  repeat match goal with
  | |- context [String.eqb ?k s] =>
      destruct (String.eqb_spec k s) as [<- | _];
        [exfalso; apply Hs; set_solver |]
  end.
  reflexivity.
Qed.

(** Without inherited names the running total stays a number. *)
Lemma rawScore_number (severities : list string) (a : Z) :
  Forall (fun x => x ∉ prototype_keys) severities ->
  exists n, fold_left add_weight severities (Num a) = Num n.
Proof.
  intros Hall. revert a. induction Hall as [|s l Hs Hl IH]; intros a.
  - exists a. reflexivity.
  - cbn [fold_left].
    assert (Hnum : exists m, add_weight (Num a) s = Num m).
    { unfold add_weight, get. rewrite (not_inherited s Hs).
      destruct (assoc s SEVERITY_WEIGHTS); eauto. }
    destruct Hnum as [m ->]. apply IH.
Qed.

End RiskScoreFacts.

Module RiskScoreSpec.
Import JS Scanner ScannerTerms RiskScoreFacts.

(** C2, as stated, fails: one critical violation scores 100, and adding a
    low one to it brings the score down to 55. *)
Lemma score_drops_when_low_is_added :
  calculateRiskScore ["critical"%string] = 100%float
  /\ calculateRiskScore (["critical"%string] ++ ["low"%string]) = 55%float
  /\ PrimFloat.leb (calculateRiskScore ["critical"%string])
       (calculateRiskScore (["critical"%string] ++ ["low"%string])) = false.
Proof. repeat split; vm_compute; reflexivity. Qed.

(** On two violations: adding [b] to the single violation [a] keeps or
    raises the score exactly when [b] weighs at least as much as [a]. *)
Lemma second_violation (a b : Severity) :
  PrimFloat.leb (calculateRiskScore (names [a]))
                (calculateRiskScore (names [a; b]))
  = (weight a <=? weight b).
Proof. destruct a, b; vm_compute; reflexivity. Qed.

(** C10: the code does not do what the claim says.  [SEVERITY_WEIGHTS[s]
    || 1] is meant to give every other severity the weight 1, but for a
    severity that names a member every object inherits ("constructor",
    "toString", ...) the lookup yields the inherited member, which is
    truthy: the default is not taken, the running total becomes a string
    and the score is NaN. *)
Lemma inherited_severity_breaks_the_score :
  add_weight (Num 0) "constructor" = Text
  /\ calculateRiskScore ["constructor"%string] = nan
  /\ calculateRiskScore ["high"; "toString"]%string = nan.
Proof. repeat split; vm_compute; reflexivity. Qed.

(** Where the default is taken: a severity that is neither critical, high,
    medium nor low, and is not the name of a member inherited from
    [Object.prototype] either -- "unknown", a missing severity, any other
    word -- contributes exactly 1 to the raw score; and over a list without
    inherited names the raw score is a number. *)
Lemma other_severities_weigh_1 (severities : list string) (s : string) :
  Forall (fun x => x ∉ prototype_keys) severities ->
  s ∉ ["critical"; "high"; "medium"; "low"]%string ->
  s ∉ prototype_keys ->
  (forall n, add_weight (Num n) s = Num (n + 1))
  /\ exists n, rawScore severities = Num n
               /\ rawScore (severities ++ [s]) = Num (n + 1).
Proof.
  intros Hall Hown Hproto.
  assert (Hone : forall n, add_weight (Num n) s = Num (n + 1)).
  { intros n. unfold add_weight, get.
    rewrite (not_weighted s Hown), (not_inherited s Hproto). reflexivity. }
  split; [exact Hone |].
  destruct (rawScore_number severities 0 Hall) as [n Hn].
  exists n. split; [exact Hn |].
  unfold rawScore in *. rewrite fold_left_app, Hn. simpl. apply Hone.
Qed.

Lemma other_severities_weigh_1_witness :
  rawScore ["high"; "unknown"]%string = Num 7
  /\ rawScore (["high"; "unknown"] ++ ["undefined"])%list%string = Num 8.
Proof.
  assert (Hall : Forall (fun x => x ∉ prototype_keys) ["high"; "unknown"]%string).
  { repeat constructor; apply not_elem_of_compute; reflexivity. }
  assert (Hown : ("undefined" : string) ∉ ["critical"; "high"; "medium"; "low"]%string)
    by (apply not_elem_of_compute; reflexivity).
  assert (Hproto : ("undefined" : string) ∉ prototype_keys)
    by (apply not_elem_of_compute; reflexivity).
  destruct (other_severities_weigh_1 ["high"; "unknown"]%string "undefined"
              Hall Hown Hproto) as [_ [n [Hn Hn1]]].
  assert (n = 7) as -> by (vm_compute in Hn; congruence).
  split; [exact Hn | exact Hn1].
Defined.

End RiskScoreSpec.

(** ** Crawler *)

Module CrawlerFacts.
Import Crawler CrawlerTerms.

Lemma NoDup_snoc_fresh (l : list string) (u : string) :
  NoDup l -> u ∉ l -> NoDup (l ++ [u]).
Proof.
  intros Hl Hu. apply NoDup_app.
  split; [exact Hl |]. split; [| apply NoDup_singleton].
  intros x Hx Hxu. apply list_elem_of_singleton in Hxu. subst x. exact (Hu Hx).
Qed.

Lemma snoc_visited (l : list string) (u : string) (seen : gset string) :
  (forall x, x ∈ l -> x ∈ seen) ->
  forall x, x ∈ l ++ [u] -> x ∈ {[u]} ∪ seen.
Proof.
  intros Hl x. rewrite elem_of_app, list_elem_of_singleton.
  intros [Hx | ->]; [apply elem_of_union_r, Hl, Hx |].
  apply elem_of_union_l, elem_of_singleton. reflexivity.
Qed.

Lemma fetches_enqueued (links : list string) (d : Z) :
  fetches (map (fun l => Enqueued l d) links) = [].
Proof. induction links; [reflexivity | assumption]. Qed.

Lemma enqueued_not_fetched (links : list string) (d : Z) (k : nat) (u : string) :
  map (fun l => Enqueued l d) links !! k <> Some (Fetched u).
Proof.
  change (map (fun l => Enqueued l d) links)
    with ((fun l => Enqueued l d) <$> links).
  rewrite list_lookup_fmap. destruct (links !! k); simpl; congruence.
Qed.

(** Appending the events of one visit keeps every navigation after its mark. *)
Lemma marked_first_visit (tr tail : list event) (u : string) :
  marked_first tr ->
  (forall k v, tail !! k <> Some (Fetched v)) ->
  marked_first (tr ++ [Marked u; Fetched u] ++ tail).
Proof.
  intros Htr Htail i v Hi.
  apply lookup_app_Some in Hi as [Hold | [Hge Hnew]].
  - destruct (Htr i v Hold) as [j [Hj Hm]].
    exists j. split; [exact Hj |]. apply lookup_app_Some. left. exact Hm.
  - destruct (i - length tr)%nat as [|[|k]] eqn:Hk; simpl in Hnew.
    + discriminate.
    + injection Hnew as <-. exists (length tr). split; [lia |].
      apply lookup_app_Some. right. split; [lia |].
      rewrite Nat.sub_diag. reflexivity.
    + exfalso. exact (Htail k v Hnew).
Qed.

Lemma fetches_visit (tr : list event) (u : string) (tail : list event) :
  fetches tail = [] ->
  fetches (tr ++ [Marked u; Fetched u] ++ tail) = fetches tr ++ [u].
Proof.
  intros Htail. unfold fetches in *. rewrite !omap_app, Htail. reflexivity.
Qed.

Lemma step_invariant (w : web) (domain : string) (maxDepth : Z) (st : state) :
  invariant st -> invariant (step w domain maxDepth st).
Proof.
  intros [Hf Hfv Hr Hrv Hm]. unfold step.
  destruct (queue st) as [|[u d] rest]; [constructor; assumption |].
  destruct (maxDepth <? d); simpl; [constructor; assumption |].
  case_bool_decide as Hu; simpl; [constructor; assumption |].
  assert (Hnf : u ∉ fetches (trace st)) by (intros Hin; exact (Hu (Hfv u Hin))).
  assert (Hnr : u ∉ map fst (pages st)) by (intros Hin; exact (Hu (Hrv u Hin))).
  destruct (goto w (navigations st) u) as [msg | title hrefs].
  - constructor; cbn [trace visited pages].
    + rewrite (fetches_visit _ u []) by reflexivity.
      apply NoDup_snoc_fresh; assumption.
    + rewrite (fetches_visit _ u []) by reflexivity.
      apply snoc_visited. exact Hfv.
    + exact Hr.
    + intros x Hx. apply elem_of_union_r, Hrv, Hx.
    + apply (marked_first_visit (trace st) [] u Hm).
      intros k v. destruct k; discriminate.
  - set (links := internal_links w domain hrefs).
    assert (Htail : fetches (Recorded u title
                               :: map (fun l => Enqueued l (d + 1)) links) = [])
      by apply fetches_enqueued.
    constructor; cbn [trace visited pages].
    + rewrite (fetches_visit _ u _ Htail).
      apply NoDup_snoc_fresh; assumption.
    + rewrite (fetches_visit _ u _ Htail).
      apply snoc_visited. exact Hfv.
    + rewrite map_app. apply NoDup_snoc_fresh; assumption.
    + rewrite map_app. apply snoc_visited. exact Hrv.
    + apply (marked_first_visit (trace st)
               (Recorded u title :: map (fun l => Enqueued l (d + 1)) links)
               u Hm).
      intros [|k] v; [discriminate |]. simpl. apply enqueued_not_fetched.
Qed.

Lemma run_invariant (w : web) (domain : string) (maxDepth : Z) (fuel : nat)
    (st : state) :
  invariant st -> invariant (run w domain maxDepth fuel st).
Proof.
  revert st. induction fuel as [|fuel IH]; intros st Hst; [exact Hst |].
  simpl. destruct (queue st) eqn:Hq; [exact Hst |].
  apply IH, step_invariant, Hst.
Qed.

Lemma start_invariant (baseUrl : string) (visited0 : gset string) :
  invariant (start baseUrl visited0).
Proof.
  constructor.
  - apply NoDup_nil_2.
  - intros u Hu. apply elem_of_nil in Hu. contradiction.
  - apply NoDup_nil_2.
  - intros u Hu. apply elem_of_nil in Hu. contradiction.
  - intros [|i] u Hi; simpl in Hi; discriminate.
Qed.

(** A dequeued URL that is already in the visited set is skipped: nothing
    but the queue changes. *)
Lemma step_skips_visited (w : web) (domain : string) (maxDepth : Z)
    (st : state) (u : string) (d : Z) (rest : list item) :
  queue st = {| url := u; depth := d |} :: rest ->
  u ∈ visited st ->
  step w domain maxDepth st =
    {| queue := rest; visited := visited st; pages := pages st;
       trace := trace st; navigations := navigations st |}.
Proof.
  intros Hq Hu. unfold step. rewrite Hq.
  rewrite (bool_decide_eq_true_2 _ Hu), orb_true_r. reflexivity.
Qed.

(** Items deeper than [maxDepth] are dropped one by one; nothing else
    changes. *)
Lemma run_drops_deep (w : web) (domain : string) (maxDepth : Z) (fuel : nat)
    (st : state) :
  Forall (fun it => maxDepth < depth it) (queue st) ->
  (length (queue st) <= fuel)%nat ->
  run w domain maxDepth fuel st =
    {| queue := []; visited := visited st; pages := pages st;
       trace := trace st; navigations := navigations st |}.
Proof.
  revert st. induction fuel as [|fuel IH]; intros st Hdeep Hlen.
  - destruct st as [q v p t n]. simpl in *.
    destruct q; [reflexivity | simpl in Hlen; lia].
  - destruct st as [q v p t n]. simpl in *.
    destruct q as [|[u d] rest]; [reflexivity |].
    inversion Hdeep as [|? ? Hd Hrest]; subst. simpl in Hd.
    unfold step. simpl.
    destruct (Z.ltb_spec maxDepth d); [| lia]. simpl.
    rewrite IH; simpl; [reflexivity | exact Hrest | simpl in Hlen; lia].
Qed.

End CrawlerFacts.

Module CrawlerSpec.
Import Crawler CrawlerTerms CrawlerFacts.

(** C6. Within one run no URL is fetched twice and none is recorded
    twice, whatever the links between the pages: after any number of
    iterations of the loop, the navigations are pairwise distinct, so are
    the recorded URLs, every navigation comes after the URL was added to the
    visited set, and an iteration that dequeues a visited URL changes
    nothing but the queue.  In particular the pages [crawl] returns have
    pairwise distinct URLs. *)
Theorem no_url_visited_twice (w : web) (domain baseUrl : string)
    (maxDepth : Z) (fuel : nat) (visited0 : gset string) :
  let st := run w domain maxDepth fuel (start baseUrl visited0) in
  NoDup (fetches (trace st))
  /\ NoDup (map fst (pages st))
  /\ marked_first (trace st)
  /\ (forall st0 u d rest,
        queue st0 = {| url := u; depth := d |} :: rest ->
        u ∈ visited st0 ->
        step w domain maxDepth st0 =
          {| queue := rest; visited := visited st0; pages := pages st0;
             trace := trace st0; navigations := navigations st0 |})
  /\ (forall found final,
        crawl w fuel baseUrl maxDepth visited0 = Returned found final ->
        NoDup (map fst found) /\ NoDup (fetches (trace final))).
Proof.
  intros st.
  destruct (run_invariant w domain maxDepth fuel _
              (start_invariant baseUrl visited0)) as [Hf _ Hr _ Hm].
  split; [exact Hf |]. split; [exact Hr |]. split; [exact Hm |].
  split; [intros st0 u d rest; apply step_skips_visited |].
  intros found final. unfold crawl.
  destruct (hostname w baseUrl) as [host|]; [| discriminate].
  destruct (run_invariant w host maxDepth fuel _
              (start_invariant baseUrl visited0)) as [Hf' _ Hr' _ _].
  destruct (queue (run w host maxDepth fuel (start baseUrl visited0)));
    [| discriminate].
  intros [= <- <-]. split; assumption.
Qed.

(** C5, as stated, fails: with [maxDepth = 0] the internal link found on
    the start page is still pushed on the queue (at depth 1). *)
Lemma depth_zero_still_enqueues :
  exists final,
    crawl small_site 3 "https://site.example/" 0 ∅
      = Returned [("https://site.example/", "Home")]%string final
    /\ enqueues (trace final)
       = [("https://site.example/", 0); ("https://site.example/about", 1)]%string
    /\ enqueues (trace final) <> [("https://site.example/"%string, 0)].
Proof.
  eexists. split; [vm_compute; reflexivity |].
  split; [reflexivity | discriminate].
Qed.

(** C5 (amended). A crawl with [maxDepth = 0] by a new crawler navigates to
    the start URL and to nothing else, and returns the start page alone
    (no page when that navigation fails).  The internal links of the start
    page are still enqueued, at depth 1, and dropped unfetched when they
    are dequeued. *)
Theorem crawl_depth_zero (w : web) (baseUrl domain : string) (fuel : nat) :
  hostname w baseUrl = Some domain ->
  (2 + length (seed_links w domain baseUrl) <= fuel)%nat ->
  exists final,
    crawl w fuel baseUrl 0 ∅ = Returned (seed_page w baseUrl) final
    /\ fetches (trace final) = [baseUrl]
    /\ enqueues (trace final)
       = (baseUrl, 0) :: map (fun l => (l, 1)) (seed_links w domain baseUrl)
    /\ visited final = {[baseUrl]} ∪ ∅.
Proof.
  intros Hhost Hfuel. unfold crawl. rewrite Hhost.
  destruct fuel as [|fuel]; [lia |].
  cbn [run start queue].
  unfold step. cbn [queue start visited pages trace navigations].
  change (0 <? 0) with false.
  rewrite bool_decide_eq_false_2 by apply not_elem_of_empty.
  cbn [orb]. unfold seed_links, seed_page in *.
  destruct (goto w 0 baseUrl) as [msg | title hrefs].
  - rewrite run_drops_deep; simpl; [| constructor | lia].
    eexists. split; [reflexivity |]. repeat split.
  - rewrite run_drops_deep; cbn [queue app].
    + eexists. split; [reflexivity |]. cbn [trace visited].
      split; [| split; [| reflexivity]].
      * unfold fetches. simpl. fold (fetches (map (fun l => Enqueued l (0 + 1))
                                    (internal_links w domain hrefs))).
        rewrite fetches_enqueued. reflexivity.
      * unfold enqueues. simpl. f_equal. clear Hfuel.
        induction (internal_links w domain hrefs) as [|l ls IH];
          [reflexivity | simpl; f_equal; exact IH].
    + apply Forall_forall. intros it Hit.
      apply list_elem_of_fmap in Hit as [l [-> _]]. simpl. lia.
    + rewrite length_map. simpl in Hfuel. lia.
Qed.

Lemma crawl_depth_zero_witness :
  exists final,
    crawl small_site 3 "https://site.example/" 0 ∅
      = Returned (seed_page small_site "https://site.example/") final
    /\ fetches (trace final) = ["https://site.example/"%string].
Proof.
  destruct (crawl_depth_zero small_site "https://site.example/"
              "site.example" 3 eq_refl) as [final [Hc [Hf _]]].
  - vm_compute. lia.
  - exists final. split; assumption.
Defined.

End CrawlerSpec.

(** ** Storing a page *)

Module IndexerFacts.
Import JS Numbers Indexer IndexerTerms.

Section Lists.
Context {A : Type} (P : A -> Prop) `{!forall x, Decision (P x)}.

Lemma filter_none (l : list A) :
  Forall (fun x => ~ P x) l -> filter P l = [].
Proof.
  induction 1 as [|x l Hx Hl IH]; [reflexivity |].
  rewrite filter_cons_False by exact Hx. exact IH.
Qed.


End Lists.

Lemma upsert_page_after_website (domain url title : string) (score risk : float)
    (blob : string) (t : tables) :
  exists t2,
    upsert_page domain url title risk blob (upsert_website domain score t)
      = Some (page_seq t + 1, t2)
    /\ page_seq t2 = page_seq t + 1
    /\ filter (fun p => p_url p = url) (pages t2)
       = [{| p_id := page_seq t + 1; website_id := website_seq t + 1;
             p_url := url; p_title := title; risk_score := risk;
             scan_data := blob |}].
Proof.
  unfold upsert_page.
  assert (Hw : filter (fun w => w_domain w = domain)
                 (websites (upsert_website domain score t))
               = [{| w_id := website_seq t + 1; w_domain := domain;
                     compliance_score := score |}]).
  { unfold upsert_website, delete_website, delete_pages. simpl.
    rewrite filter_app, filter_cons_True, filter_nil by reflexivity.
    rewrite filter_none; [reflexivity |].
    apply Forall_forall. intros w Hin.
    apply list_elem_of_filter in Hin as [Hne _]. exact Hne. }
  rewrite Hw. eexists. split; [reflexivity |]. split; [reflexivity |].
  simpl. rewrite filter_app, filter_cons_True, filter_nil by reflexivity.
  rewrite filter_none; [reflexivity |].
  apply Forall_forall. intros p Hin.
  apply list_elem_of_filter in Hin as [Hne _].
  intros Heq. rewrite Heq, String.eqb_refl in Hne. discriminate.
Qed.

Lemma rollback_begin (d : db) :
  undo d = None -> rollback (begin_transaction d) = d.
Proof. destruct d as [t0 u]. simpl. intros ->. reflexivity. Qed.

(** How a call can end.  It never resolves.  It rejects exactly when the
    website upsert fails, and the connection is then as it was.  In every
    other case the promise stays pending and the transaction stays open:
    nothing was rolled back and nothing committed. *)
Lemma storePageResults_endings (env : environment)
    (domain url title : string) (scanData : Scanner.scan) (blob : string)
    (d : db) :
  undo d = None ->
  let r := storePageResults env domain url title scanData blob d in
  result r <> Resolved
  /\ (website_fails env = true ->
      result r = Rejected WebsiteUpsert /\ connection r = d)
  /\ (website_fails env = false ->
      result r
      = Pending (if page_fails env then PageUpsert else ViolationDelete)
      /\ undo (connection r) = Some (data d)
      /\ committed (connection r) = data d).
Proof.
  intros Hundo r. subst r. unfold storePageResults.
  set (risk := Scanner.riskScore (Scanner.scan_metrics scanData)).
  assert (Hbegin : begin_transaction d
                   = {| data := data d; undo := Some (data d) |}).
  { destruct d as [t0 u]. simpl in Hundo. subst u. reflexivity. }
  destruct (website_fails env).
  { unfold reject. cbn [result connection]. rewrite (rollback_begin d Hundo).
    split; [discriminate |]. split; [auto | discriminate]. }
  destruct (page_fails env).
  { rewrite Hbegin. cbn. split; [discriminate |].
    split; [discriminate | auto]. }
  rewrite Hbegin. cbn [data set_data undo].
  destruct (upsert_page_after_website domain url title (100 - risk)%float
              risk blob (data d)) as [t2 [Ht2 _]].
  rewrite Ht2. cbn. split; [discriminate |].
  split; [discriminate | auto].
Qed.

End IndexerFacts.

Module IndexerSpec.
Import JS Numbers Indexer IndexerTerms IndexerFacts.

(** C1: the code does not do what the claim says.  The store holds the
    page with two violations.  When the page upsert fails, nothing is
    rolled back: the call neither resolves nor rejects, the transaction
    stays open, and on the connection the website row is replaced and the
    page is gone with its violations.  When no statement fails the call
    ends the same way at the DELETE: the new page row is there without a
    violation, and nothing is committed.  Only a failure of the website
    upsert is rolled back. *)
Theorem failed_page_upsert_is_not_rolled_back :
  let url := "https://site.example/"%string in
  let store env :=
    storePageResults env "site.example" url "Home" rescan "{}" one_page in
  map violation_id (violations_of url (data one_page))
  = ["label"; "region"]%string
  /\ (result (store page_upsert_fails) = Pending PageUpsert
      /\ undo (connection (store page_upsert_fails)) = Some (data one_page)
      /\ pages (data (connection (store page_upsert_fails))) = []
      /\ violations (data (connection (store page_upsert_fails))) = [])
  /\ (result (store all_succeed) = Pending ViolationDelete
      /\ undo (connection (store all_succeed)) = Some (data one_page)
      /\ map p_url (pages (data (connection (store all_succeed)))) = [url]
      /\ violations (data (connection (store all_succeed))) = [])
  /\ (result (store website_upsert_fails) = Rejected WebsiteUpsert
      /\ connection (store website_upsert_fails) = one_page).
Proof. vm_compute. repeat split; reflexivity. Qed.

End IndexerSpec.

(** ** The order of binary64 and the sign of a difference *)

Module Binary64Order.
Import Binary64Terms Binary64Facts.

(** Case analysis on every sign bit in the context. *)
Ltac destruct_signs :=
  repeat match goal with s : bool |- _ => destruct s end.

(** The two directions of a comparison settled by computation or by linear
    arithmetic. *)
Ltac settle_order :=
  split; intros; try discriminate; try reflexivity; try lia.

Lemma SFltb_rank (x y : spec_float) :
  is_number x -> is_number y ->
  SFltb x y = true <-> rank_lt (rank x) (rank y).
Proof.
  unfold is_number, SFltb, SFcompare, rank_lt.
  destruct x as [sx|sx| |sx mx ex], y as [sy|sy| |sy my ey];
    try congruence; intros _ _; destruct_signs;
    simpl; try (split; [discriminate | lia]); try (split; [lia | reflexivity]);
    try (split; [reflexivity | lia]).
  all: destruct (Z.compare_spec ex ey); rewrite ?Pos.compare_cont_spec; simpl;
    try destruct (Pos.compare_spec mx my); simpl; settle_order.
Qed.

Lemma iter_xO_value (m d : positive) :
  Z.pos (Pos.iter xO m d) = Z.pos m * 2 ^ Z.pos d.
Proof.
  induction d as [|d IH] using Pos.peano_ind.
  - simpl. lia.
  - rewrite Pos.iter_succ, Pos2Z.inj_succ, Z.pow_succ_r by lia.
    rewrite Pos2Z.inj_xO, IH. lia.
Qed.

Lemma shl_align_value (m : positive) (e ez : Z) :
  ez <= e -> Z.pos (fst (shl_align m e ez)) = Z.pos m * 2 ^ (e - ez).
Proof.
  intros Hle. unfold shl_align.
  destruct (ez - e) as [|d|d] eqn:Hd; try lia.
  - replace (e - ez) with 0 by lia. simpl. lia.
  - simpl. rewrite iter_xO_value. f_equal. f_equal. lia.
Qed.

(** What validity says about a finite number's mantissa and exponent. *)
Lemma bounded_facts (m : positive) (e : Z) :
  SpecFloat.bounded prec emax m e = true ->
  Z.pos (digits2_pos m) <= 53 /\ -1074 <= e
  /\ (e <> -1074 -> Z.pos (digits2_pos m) = 53).
Proof.
  unfold SpecFloat.bounded, canonical_mantissa, fexp, emin.
  change prec with 53. change emax with 1024.
  intros Hb. apply andb_prop in Hb as [Hc _].
  apply Z.eqb_eq in Hc. lia.
Qed.

Lemma mantissa_bounds (m : positive) (e : Z) :
  SpecFloat.bounded prec emax m e = true ->
  Z.pos m < 2 ^ 53 /\ (e <> -1074 -> 2 ^ 52 <= Z.pos m).
Proof.
  intros Hb. destruct (bounded_facts m e Hb) as [Hd [_ Hn]].
  pose proof (digits2_pos_bound m) as [Hlo Hhi]. split.
  - eapply Z.lt_le_trans; [exact Hhi |]. apply Z.pow_le_mono_r; lia.
  - intros He. rewrite (Hn He) in Hlo. exact Hlo.
Qed.

Lemma scaled_order (mx my : positive) (ex ey : Z) :
  SpecFloat.bounded prec emax mx ex = true -> SpecFloat.bounded prec emax my ey = true ->
  ex < ey ->
  Z.pos mx * 2 ^ (ex - Z.min ex ey) < Z.pos my * 2 ^ (ey - Z.min ex ey).
Proof.
  intros Hx Hy Hlt.
  destruct (mantissa_bounds mx ex Hx) as [Hmx _].
  destruct (bounded_facts mx ex Hx) as [_ [Hex _]].
  destruct (mantissa_bounds my ey Hy) as [_ Hmy].
  specialize (Hmy ltac:(lia)).
  rewrite Z.min_l by lia. rewrite Z.sub_diag. simpl (2 ^ 0).
  assert (2 ^ 1 <= 2 ^ (ey - ex)) by (apply Z.pow_le_mono_r; lia).
  assert (2 ^ 52 * 2 ^ 1 <= Z.pos my * 2 ^ (ey - ex)).
  { apply Z.mul_le_mono_nonneg; lia. }
  change (2 ^ 52 * 2 ^ 1) with (2 ^ 53) in *. lia.
Qed.

Lemma rank_scaled (sx sy : bool) (mx my : positive) (ex ey : Z) :
  SpecFloat.bounded prec emax mx ex = true -> SpecFloat.bounded prec emax my ey = true ->
  rank_lt (rank (S754_finite sx mx ex)) (rank (S754_finite sy my ey))
  <-> scaled sx mx ex (Z.min ex ey) < scaled sy my ey (Z.min ex ey).
Proof.
  intros Hx Hy. unfold scaled.
  rewrite !shl_align_value by lia.
  assert (Hpx : 0 < Z.pos mx * 2 ^ (ex - Z.min ex ey))
    by (apply Z.mul_pos_pos; [lia | apply Z.pow_pos_nonneg; lia]).
  assert (Hpy : 0 < Z.pos my * 2 ^ (ey - Z.min ex ey))
    by (apply Z.mul_pos_pos; [lia | apply Z.pow_pos_nonneg; lia]).
  destruct (Z.lt_trichotomy ex ey) as [Hlt | [Heq | Hgt]].
  - pose proof (scaled_order mx my ex ey Hx Hy Hlt) as Ho.
    destruct sx, sy; simpl; lia.
  - subst ey. rewrite Z.min_id, Z.sub_diag in *. simpl (2 ^ 0) in *.
    destruct sx, sy; simpl; lia.
  - pose proof (scaled_order my mx ey ex Hy Hx Hgt) as Ho.
    rewrite (Z.min_comm ey ex) in Ho.
    destruct sx, sy; simpl; lia.
Qed.

Lemma shr_1_halves (r : shr_record) :
  0 <= shr_m r -> shr_m (shr_1 r) = shr_m r / 2.
Proof.
  destruct r as [m rb sb]. simpl. intros Hm.
  destruct m as [|[p|p|]|p]; simpl; try lia.
  - reflexivity.
  - rewrite (Pos2Z.inj_xI p). apply Z.div_unique with 1; lia.
  - rewrite (Pos2Z.inj_xO p). apply Z.div_unique with 0; lia.
  - reflexivity.
Qed.

Lemma shr_iter_divides (p : positive) (r : shr_record) :
  0 <= shr_m r -> shr_m (SpecFloat.iter_pos shr_1 p r) = shr_m r / 2 ^ Z.pos p.
Proof.
  revert r. induction p as [p IH|p IH|]; intros r Hr; simpl SpecFloat.iter_pos.
  - assert (H1 : 0 <= shr_m (shr_1 r))
      by (rewrite shr_1_halves by exact Hr; apply Z.div_pos; lia).
    assert (H2 : 0 <= shr_m (SpecFloat.iter_pos shr_1 p (shr_1 r)))
      by (rewrite IH by exact H1; apply Z.div_pos; [lia | apply Z.pow_pos_nonneg; lia]).
    rewrite IH by exact H2. rewrite IH by exact H1.
    rewrite shr_1_halves by exact Hr.
    rewrite !Z.div_div by (try apply Z.pow_pos_nonneg; lia).
    f_equal. replace (Z.pos p~1) with (1 + Z.pos p + Z.pos p) by lia.
    rewrite !Z.pow_add_r by lia. change (2 ^ 1) with 2. lia.
  - assert (H1 : 0 <= shr_m (SpecFloat.iter_pos shr_1 p r))
      by (rewrite IH by exact Hr; apply Z.div_pos; [lia | apply Z.pow_pos_nonneg; lia]).
    rewrite IH by exact H1. rewrite IH by exact Hr.
    rewrite !Z.div_div by (try apply Z.pow_pos_nonneg; lia).
    f_equal. replace (Z.pos p~0) with (Z.pos p + Z.pos p) by lia.
    rewrite Z.pow_add_r by lia. reflexivity.
  - rewrite shr_1_halves by exact Hr. reflexivity.
Qed.

Lemma shr_record_of_loc_m (m : Z) (l : location) :
  shr_m (shr_record_of_loc m l) = m.
Proof. destruct l as [|[| |]]; reflexivity. Qed.

(** Shifting a positive mantissa to its place keeps it positive. *)
Lemma shr_fexp_positive (m e : Z) (l : location) :
  0 < m -> -1074 <= e ->
  0 < shr_m (fst (shr_fexp prec emax m e l))
  /\ -1074 <= snd (shr_fexp prec emax m e l).
Proof.
  intros Hm He. unfold shr_fexp, shr.
  destruct m as [|p|p]; try lia.
  unfold Zdigits2.
  pose proof (digits2_pos_bound p) as [Hlo _].
  set (D := Z.pos (digits2_pos p)) in *.
  assert (Hf : fexp prec emax (D + e) = Z.max (D + e - 53) (-1074)) by reflexivity.
  destruct (fexp prec emax (D + e) - e) as [|k|k] eqn:Hk; simpl fst; simpl snd.
  - rewrite shr_record_of_loc_m. lia.
  - rewrite shr_iter_divides by (rewrite shr_record_of_loc_m; lia).
    rewrite shr_record_of_loc_m. split; [| lia].
    apply Z.div_str_pos. split; [apply Z.pow_pos_nonneg; lia |].
    eapply Z.le_trans; [| exact Hlo]. apply Z.pow_le_mono_r; lia.
  - rewrite shr_record_of_loc_m. lia.
Qed.

Lemma round_nearest_even_positive (m : Z) (l : location) :
  0 < m -> 0 < round_nearest_even m l.
Proof.
  intros Hm. destruct l as [|[| |]]; simpl; try destruct (Z.even m); lia.
Qed.

Lemma binary_round_aux_positive (m e : Z) (l : location) :
  0 < m -> -1074 <= e ->
  positive_result (binary_round_aux prec emax false m e l).
Proof.
  intros Hm He. unfold binary_round_aux.
  pose proof (shr_fexp_positive m e l Hm He) as [Hm1 He1].
  destruct (shr_fexp prec emax m e l) as [mrs' e']. simpl in Hm1, He1.
  pose proof (shr_fexp_positive
                (round_nearest_even (shr_m mrs') (loc_of_shr_record mrs'))
                e' loc_Exact
                (round_nearest_even_positive _ _ Hm1) He1) as [Hm2 _].
  destruct (shr_fexp prec emax _ e' loc_Exact) as [mrs'' e'']. simpl in Hm2.
  destruct (shr_m mrs'') as [|q|q]; try lia.
  destruct (e'' <=? emax - prec); exact I.
Qed.

Lemma binary_round_positive (p : positive) (e : Z) :
  -1074 <= e -> positive_result (binary_round prec emax false p e).
Proof.
  intros He. unfold binary_round, shl_align.
  assert (Hf : -1074 <= fexp prec emax (Z.pos (digits2_pos p) + e)).
  { unfold fexp, emin. change prec with 53. change emax with 1024. lia. }
  destruct (fexp prec emax (Z.pos (digits2_pos p) + e) - e);
    apply binary_round_aux_positive; lia.
Qed.

(** Rounding never turns a negative number into a positive one. *)
Lemma binary_round_negative (p : positive) (e : Z) :
  SFltb (S754_zero false) (binary_round prec emax true p e) = false.
Proof.
  unfold binary_round. destruct (shl_align p e _) as [mz ez].
  unfold binary_round_aux.
  destruct (shr_fexp prec emax (Z.pos mz) ez loc_Exact) as [mrs' e'].
  destruct (shr_fexp prec emax _ e' loc_Exact) as [mrs'' e''].
  destruct (shr_m mrs''); try reflexivity.
  destruct (e'' <=? emax - prec); reflexivity.
Qed.

Lemma positive_result_ltb (x : spec_float) :
  positive_result x -> SFltb (S754_zero false) x = true.
Proof. destruct x as [s|[|]| |[|] m e]; simpl; intros []; reflexivity. Qed.

(** The sign of a difference of two finite numbers is the sign of the
    difference of their values. *)
Lemma SFsub_sign (sx sy : bool) (mx my : positive) (ex ey : Z) :
  SpecFloat.bounded prec emax mx ex = true ->
  SpecFloat.bounded prec emax my ey = true ->
  SFltb (S754_zero false)
    (SFsub prec emax (S754_finite sy my ey) (S754_finite sx mx ex)) = true
  <-> scaled sx mx ex (Z.min ex ey) < scaled sy my ey (Z.min ex ey).
Proof.
  intros Hx Hy. unfold SFsub. rewrite (Z.min_comm ey ex).
  fold (scaled sy my ey (Z.min ex ey)). fold (scaled sx mx ex (Z.min ex ey)).
  destruct (bounded_facts mx ex Hx) as [_ [Hex _]].
  destruct (bounded_facts my ey Hy) as [_ [Hey _]].
  destruct (scaled sy my ey (Z.min ex ey) - scaled sx mx ex (Z.min ex ey))
    as [|d|d] eqn:Hd; unfold binary_normalize.
  - split; [discriminate | lia].
  - split; [lia | intros _].
    apply positive_result_ltb, binary_round_positive. lia.
  - rewrite binary_round_negative. split; [discriminate | lia].
Qed.

Lemma bool_iff (a b : bool) : (a = true <-> b = true) -> a = b.
Proof.
  destruct a, b; intros [H1 H2]; try reflexivity;
    [symmetry; apply H1; reflexivity | apply H2; reflexivity].
Qed.

Lemma ltb_numbers (x y : float) :
  PrimFloat.ltb x y = true ->
  is_number (Prim2SF x) /\ is_number (Prim2SF y).
Proof.
  rewrite FloatAxioms.ltb_spec. unfold SFltb, SFcompare, is_number.
  destruct (Prim2SF x), (Prim2SF y); intros Hlt; split; congruence.
Qed.

Lemma ltb_rank (x y : float) :
  is_number (Prim2SF x) -> is_number (Prim2SF y) ->
  PrimFloat.ltb x y = true <-> rank_lt (rank (Prim2SF x)) (rank (Prim2SF y)).
Proof. intros Hx Hy. rewrite FloatAxioms.ltb_spec. apply SFltb_rank; assumption. Qed.

Lemma ltb_asymmetric (x y : float) :
  PrimFloat.ltb x y = true -> PrimFloat.ltb y x = false.
Proof.
  intros Hlt. destruct (ltb_numbers x y Hlt) as [Hx Hy].
  apply (ltb_rank x y Hx Hy) in Hlt.
  destruct (PrimFloat.ltb y x) eqn:Hyx; [| reflexivity].
  apply (ltb_rank y x Hy Hx) in Hyx.
  unfold rank_lt in *.
  destruct (rank (Prim2SF x)) as [[a1 a2] a3].
  destruct (rank (Prim2SF y)) as [[b1 b2] b3]. lia.
Qed.

Lemma not_ltb_transitive (x y z : float) :
  is_number (Prim2SF x) -> is_number (Prim2SF y) -> is_number (Prim2SF z) ->
  PrimFloat.ltb x y = false -> PrimFloat.ltb y z = false ->
  PrimFloat.ltb x z = false.
Proof.
  intros Hx Hy Hz Hxy Hyz.
  destruct (PrimFloat.ltb x z) eqn:Hxz; [| reflexivity].
  apply (ltb_rank x z Hx Hz) in Hxz.
  assert (Hxy' : ~ rank_lt (rank (Prim2SF x)) (rank (Prim2SF y)))
    by (intros Hr; apply (ltb_rank x y Hx Hy) in Hr; congruence).
  assert (Hyz' : ~ rank_lt (rank (Prim2SF y)) (rank (Prim2SF z)))
    by (intros Hr; apply (ltb_rank y z Hy Hz) in Hr; congruence).
  unfold rank_lt in *.
  destruct (rank (Prim2SF x)) as [[a1 a2] a3].
  destruct (rank (Prim2SF y)) as [[b1 b2] b3].
  destruct (rank (Prim2SF z)) as [[c1 c2] c3]. lia.
Qed.

(** The comparator of the sort: for two numbers, [y - x] is positive
    exactly when [x < y]. *)
Lemma sub_positive (x y : float) :
  is_number (Prim2SF x) -> is_number (Prim2SF y) ->
  PrimFloat.ltb 0 (y - x) = PrimFloat.ltb x y.
Proof.
  intros Hx Hy. apply bool_iff.
  rewrite (ltb_rank x y Hx Hy).
  rewrite FloatAxioms.ltb_spec, FloatAxioms.sub_spec.
  change (Prim2SF 0) with (S754_zero false).
  pose proof (Prim2SF_valid x) as Vx. pose proof (Prim2SF_valid y) as Vy.
  unfold is_number in *.
  destruct (Prim2SF x) as [sx|sx| |sx mx ex], (Prim2SF y) as [sy|sy| |sy my ey];
    try congruence.
  9: { simpl in Vx, Vy. rewrite (SFsub_sign sx sy mx my ex ey Vx Vy).
        symmetry. apply rank_scaled; assumption. }
  all: destruct_signs; unfold rank_lt; simpl; settle_order.
Qed.

Lemma not_ltb_leb (x y : float) :
  is_number (Prim2SF x) -> is_number (Prim2SF y) ->
  PrimFloat.ltb x y = false -> PrimFloat.leb y x = true.
Proof.
  intros Hx Hy. rewrite FloatAxioms.ltb_spec, FloatAxioms.leb_spec.
  unfold is_number, SFltb, SFleb, SFcompare in *.
  destruct (Prim2SF x) as [sx|sx| |sx mx ex], (Prim2SF y) as [sy|sy| |sy my ey];
    try congruence; destruct_signs; simpl; try congruence.
  all: rewrite (Z.compare_antisym ey ex), !Pos.compare_cont_spec,
         (Pos.compare_antisym my mx);
    destruct (ey ?= ex); simpl; try congruence;
    destruct (my ?= mx)%positive; simpl; congruence.
Qed.

End Binary64Order.

(** ** Ranking *)

Module SearchFacts.
Import JS Numbers SearchEngine SearchTerms.

Section Lists.
Context {A : Type} (R : A -> A -> Prop).

Lemma StronglySorted_take (n : nat) (l : list A) :
  StronglySorted R l -> StronglySorted R (take n l).
Proof.
  intros Hl. revert n. induction Hl as [|x l Hl IH Hx]; intros [|n]; simpl;
    try constructor.
  - apply IH.
  - apply Forall_take. exact Hx.
Qed.

End Lists.

Lemma slice0_length {A} (limit : Z) (xs : list A) :
  0 <= limit -> Z.of_nat (length (slice0 limit xs)) <= limit.
Proof.
  intros Hl. unfold slice0. destruct (Z.ltb_spec limit 0); [lia |].
  rewrite length_take. lia.
Qed.

Lemma slice0_elem {A} (limit : Z) (xs : list A) (x : A) :
  x ∈ slice0 limit xs -> x ∈ xs.
Proof.
  unfold slice0. destruct (limit <? 0); intros Hx;
    apply elem_of_take in Hx as [i [Hi _]];
    apply list_elem_of_lookup; eauto.
Qed.

Section Sorting.
Context {N : Type} `{Number N}.

(** Sorting neither adds nor drops a result. *)
Lemma insert_sorted_elem (cmp : scored -> scored -> N) (x y : scored)
    (l : list scored) :
  y ∈ insert_sorted cmp x l <-> y = x \/ y ∈ l.
Proof.
  induction l as [|z l IH]; simpl.
  - rewrite list_elem_of_singleton. split; [auto | intros [|Hin]; [assumption |]].
    apply elem_of_nil in Hin. contradiction.
  - destruct (ltb (of_int 0) (cmp x z)).
    + rewrite !elem_of_cons, IH. tauto.
    + rewrite !elem_of_cons. tauto.
Qed.

Lemma sort_elem (cmp : scored -> scored -> N) (y : scored) (l : list scored) :
  y ∈ sort cmp l <-> y ∈ l.
Proof.
  induction l as [|x l IH]; simpl; [reflexivity |].
  unfold sort in *. simpl. rewrite insert_sorted_elem, elem_of_cons, IH.
  reflexivity.
Qed.

(** What the comparator needs of the numbers it is applied to. *)
Variable number : N -> Prop.
Hypothesis sub_sign : forall x y, number x -> number y ->
  ltb (of_int 0) (sub y x) = ltb x y.
Hypothesis ltb_asym : forall x y, ltb x y = true -> ltb y x = false.
Hypothesis not_ltb_trans : forall x y z, number x -> number y -> number z ->
  ltb x y = false -> ltb y z = false -> ltb x z = false.

Lemma insert_sorted_descending (x : scored) (l : list scored) :
  number (snd x) -> Forall (fun r => number (snd r)) l ->
  descending l -> descending (insert_sorted compare_desc x l).
Proof.
  intros Hx Hl Hs. induction Hs as [|y l Hs IH Hy]; simpl.
  - constructor; constructor.
  - inversion Hl as [|? ? Hny Hnl]; subst.
    unfold compare_desc at 1. rewrite (sub_sign _ _ Hx Hny).
    destruct (ltb (snd x) (snd y)) eqn:Hxy.
    + constructor; [apply IH; exact Hnl |].
      apply Forall_forall. intros z Hz.
      apply insert_sorted_elem in Hz as [-> | Hz].
      * apply ltb_asym. exact Hxy.
      * rewrite Forall_forall in Hy. apply Hy. exact Hz.
    + constructor; [constructor; assumption |].
      constructor; [exact Hxy |].
      apply Forall_forall. intros z Hz.
      rewrite Forall_forall in Hy, Hnl.
      apply (not_ltb_trans (snd x) (snd y) (snd z)); auto.
Qed.

Lemma sort_descending (l : list scored) :
  Forall (fun r => number (snd r)) l -> descending (sort compare_desc l).
Proof.
  induction 1 as [|x l Hx Hl IH]; [constructor |].
  unfold sort. simpl. apply insert_sorted_descending; [exact Hx | | exact IH].
  apply Forall_forall. intros y Hy. apply sort_elem in Hy.
  rewrite Forall_forall in Hl. apply Hl. exact Hy.
Qed.

End Sorting.

Section Search.
Context {N : Type} `{Number N}.

Lemma score_some (q : list N) (v : row N) (r : scored) :
  score q v = Some r ->
  fst r = v /\ exists vec, r_embedding v = Some vec /\ length vec = length q
    /\ snd r = cosineSimilarity (Some (Array q)) (Some (Array vec)).
Proof.
  unfold score. destruct (r_embedding v) as [vec|]; [| discriminate].
  destruct (Nat.eqb_spec (length vec) (length q)) as [Heq|]; simpl;
    [| discriminate].
  intros [= <-]. simpl. eauto.
Qed.

Lemma semanticSearch_candidates (s : services N) (query : string) (limit : Z) :
  Forall (candidate s query) (semanticSearch s query limit).
Proof.
  apply Forall_forall. intros r Hr. unfold semanticSearch in Hr.
  fold (query_embedding s query) in Hr.
  destruct (query_embedding s query) as [|q0 q] eqn:Hq;
    [apply elem_of_nil in Hr; contradiction |].
  destruct (db_all s) as [rows|] eqn:Hrows;
    [| apply elem_of_nil in Hr; contradiction].
  apply slice0_elem, sort_elem, list_elem_of_filter in Hr as [Hthr Hin].
  apply list_elem_of_omap in Hin as [v [Hv Hscore]].
  apply score_some in Hscore as [Hfst [vec [Hvec [Hlen Hsim]]]].
  exists rows, vec. rewrite Hfst, Hq. repeat split; assumption.
Qed.

Lemma semanticSearch_failure (s : services N) (query : string) (limit : Z) :
  query_embedding s query = [] \/ db_all s = None ->
  semanticSearch s query limit = [].
Proof.
  unfold semanticSearch. fold (query_embedding s query).
  intros [-> | Hdb]; [reflexivity |].
  rewrite Hdb. destruct (query_embedding s query); reflexivity.
Qed.

End Search.

End SearchFacts.

Module SearchSpec.
Import JS Numbers SearchEngine Binary64Terms SearchTerms SearchFacts Binary64Order.

Lemma descending_ranked (l : list (row float * float)) :
  Forall (fun r => is_float_number (snd r)) l ->
  descending l -> ranked l.
Proof.
  intros Hn Hd. induction Hd as [|x l Hd IH Hx]; [constructor |].
  inversion Hn as [|? ? Hnx Hnl]; subst.
  constructor; [apply IH; exact Hnl |].
  rewrite Forall_forall in Hx, Hnl. apply Forall_forall. intros y Hy.
  apply not_ltb_leb; [exact Hnx | apply Hnl; exact Hy | apply Hx; exact Hy].
Qed.

Lemma above_threshold_number (r : row float * float) :
  ltb threshold (snd r) = true -> is_float_number (snd r).
Proof. intros Hr. exact (proj2 (ltb_numbers _ _ Hr)). Qed.

(** The threshold is the binary64 value of the literal [0.3]. *)
Example threshold_literal :
  threshold (N := float) = 0x1.3333333333333p-2%float.
Proof. vm_compute. reflexivity. Qed.

(** C4. For every query and every limit (a number of results, so not
    negative), [semanticSearch] returns at most [limit] results, in
    descending order of similarity; every result is a stored row whose
    embedding has the length of the query's embedding and whose similarity
    to the query is above the threshold 0.3; and when the query embedding
    cannot be generated, or the store cannot be read, the result is the
    empty list. *)
Theorem semanticSearch_ranked (s : services float) (query : string)
    (limit : Z) :
  0 <= limit ->
  let results := semanticSearch s query limit in
  Z.of_nat (length results) <= limit
  /\ ranked results
  /\ Forall (candidate s query) results
  /\ Forall (fun r => PrimFloat.ltb threshold (snd r) = true) results
  /\ (embeddings_create s
        ("Accessibility violation about " +:+ query +:+ " in web development")
        = None
      \/ query_embedding s query = [] \/ db_all s = None -> results = []).
Proof.
  intros Hlimit results.
  pose proof (semanticSearch_candidates s query limit) as Hcand.
  fold results in Hcand.
  assert (Hthr : Forall (fun r => PrimFloat.ltb threshold (snd r) = true)
                   results).
  { eapply Forall_impl; [exact Hcand |].
    intros r [rows [vec [_ [_ [_ [_ [_ Hr]]]]]]]. exact Hr. }
  split; [| split; [| split; [exact Hcand | split; [exact Hthr |]]]].
  - subst results. unfold semanticSearch.
    destruct (generateEmbedding s _); [simpl; lia |].
    destruct (db_all s); [| simpl; lia].
    apply slice0_length. exact Hlimit.
  - subst results. unfold semanticSearch.
    destruct (generateEmbedding s _) as [|q0 q]; [constructor |].
    destruct (db_all s) as [rows|]; [| constructor].
    set (kept := filter _ _).
    assert (Hkept : Forall (fun r => is_float_number (snd r)) kept).
    { apply Forall_forall. intros r Hr.
      apply list_elem_of_filter in Hr as [Hr _].
      apply above_threshold_number. exact Hr. }
    unfold slice0. destruct (limit <? 0).
    all: apply descending_ranked;
      [ apply Forall_take, Forall_forall; intros r Hr;
        apply sort_elem in Hr; rewrite Forall_forall in Hkept; auto
      | apply StronglySorted_take;
        apply (sort_descending is_float_number);
          [ intros x y; apply sub_positive
          | intros x y; apply ltb_asymmetric
          | intros x y z; apply not_ltb_transitive
          | exact Hkept ] ].
  - intros [Hfail | [Hempty | Hdb]].
    + apply semanticSearch_failure. left.
      unfold query_embedding, generateEmbedding. rewrite Hfail. reflexivity.
    + apply semanticSearch_failure. left. exact Hempty.
    + apply semanticSearch_failure. right. exact Hdb.
Qed.

Lemma semanticSearch_ranked_witness :
  map (fun r => r_violation_id (fst r))
      (semanticSearch five_rows "missing alt text" 5)
  = ["image-alt"; "label"]%string
  /\ ranked (semanticSearch five_rows "missing alt text" 5).
Proof.
  split; [vm_compute; reflexivity |].
  refine (proj1 (proj2
    (semanticSearch_ranked five_rows "missing alt text" 5 _))).
  lia.
Defined.

End SearchSpec.

(** ** The embedding codec *)

Module CodecSpec.
Import JS Numbers Indexer SearchEngine CodecTerms.


(** The similarity of a round-tripped vector with itself on a sample: the
    three components 0.5, -0.25 and 1 are stored as 64, -32 and 127, and
    the similarity is within the tolerance. *)
Example binary64_round_trip_sample :
  compressEmbedding [0.5; -0.25; 1]%float = [64; -32; 127]%Z
  /\ PrimFloat.leb (1 - 1 / 127)%float
       (self_cosine (N := float) [64; -32; 127]%Z) = true
  /\ PrimFloat.leb (self_cosine (N := float) [64; -32; 127]%Z)
       (1 + 1 / 127)%float = true.
Proof. repeat split; vm_compute; reflexivity. Qed.

(** The rounding of the operations shows: the similarity of the stored
    vector 3, 5, 7 with itself is 0.99999999999999978 (one unit in the
    last place below 1), not 1; and the component 0.003937007874015748,
    the binary64 number just below 1/254, is stored as 1 because its
    product with 127 rounds to 0.5. *)
Example binary64_rounding_shows :
  self_cosine (N := float) [3; 5; 7]%Z = 0x1.ffffffffffffep-1%float
  /\ compressEmbedding [0x1.0204081020408p-8%float] = [1%Z].
Proof. split; vm_compute; reflexivity. Qed.

End CodecSpec.

(* ================================================================== *)
(** * Part III. Further properties of the code *)
(* ================================================================== *)

(** ** The crawl loop ends *)

Module CrawlerRunFacts.
Import Crawler CrawlerTerms CrawlerFacts CrawlerReach.






End CrawlerRunFacts.

(** ** Where a crawl goes *)

Module CrawlerReachFacts.
Import Crawler CrawlerTerms CrawlerFacts CrawlerReach.

Lemma internal_links_on_site (w : web) (domain baseUrl : string)
    (hrefs : list string) :
  Forall (on_site w domain baseUrl) (internal_links w domain hrefs).
Proof.
  apply Forall_forall. intros l Hl. unfold internal_links in Hl.
  apply list_elem_of_filter in Hl as [Hint Hl].
  apply list_elem_of_filter in Hl as [Hhttp _].
  right. split; [exact Hhttp |].
  unfold internal in Hint. destruct (hostname w l) as [h|]; [| discriminate].
  apply String.eqb_eq in Hint. congruence.
Qed.

Lemma enqueues_enqueued (links : list string) (d : Z) :
  enqueues (map (fun l => Enqueued l d) links) = map (fun l => (l, d)) links.
Proof.
  unfold enqueues. induction links as [|l ls IH]; [reflexivity |].
  simpl. f_equal. exact IH.
Qed.

Lemma step_reach (w : web) (domain baseUrl : string) (maxDepth : Z)
    (visited0 : gset string) (st : state) :
  reach w domain baseUrl maxDepth visited0 st ->
  reach w domain baseUrl maxDepth visited0 (step w domain maxDepth st).
Proof.
  intros Hst. pose proof Hst as [Hq Hf Hn Hm Hv He Hr Hl Hc]. unfold step.
  destruct (queue st) as [|[u d] rest] eqn:Hqueue; [exact Hst |].
  inversion Hq as [|? ? [Hu Hd] Hrest]; subst. simpl in Hu, Hd.
  destruct (Z.ltb_spec maxDepth d) as [Hdeep | Hok]; simpl;
    [constructor; assumption |].
  case_bool_decide as Hseen; simpl; [constructor; assumption |].
  assert (Hu0 : u ∉ visited0) by (intros Hin; apply Hseen, Hv, Hin).
  assert (Hmark : Forall (fun x => x ∈ {[u]} ∪ visited st)
                    (fetches (trace st) ++ [u])).
  { apply Forall_app. split.
    - eapply Forall_impl; [exact Hm |]. intros x Hx.
      apply elem_of_union_r, Hx.
    - apply Forall_singleton, elem_of_union_l, elem_of_singleton.
      reflexivity. }
  assert (Hgrow : visited0 ⊆ {[u]} ∪ visited st).
  { intros x Hx. apply elem_of_union_r, Hv, Hx. }
  destruct (goto w (navigations st) u) as [msg | title hrefs] eqn:Hgo.
  - constructor; cbn [queue trace visited pages navigations];
      rewrite ?(fetches_visit _ u []) by reflexivity; try assumption.
    + apply Forall_app. split; [exact Hf | apply Forall_singleton, Hu].
    + apply Forall_app. split; [exact Hn | apply Forall_singleton, Hu0].
    + unfold enqueues in *. rewrite omap_app. simpl. rewrite app_nil_r.
      exact He.
    + apply sublist_inserts_r. exact Hr.
    + rewrite length_app. simpl. lia.
  - set (links := internal_links w domain hrefs).
    assert (Htail : fetches (Recorded u title
                               :: map (fun l => Enqueued l (d + 1)) links) = [])
      by apply fetches_enqueued.
    constructor; cbn [queue trace visited pages navigations];
      rewrite ?(fetches_visit _ u _ Htail); try assumption.
    + apply Forall_app. split; [exact Hrest |].
      apply Forall_fmap. eapply Forall_impl;
        [apply (internal_links_on_site w domain baseUrl hrefs) |].
      intros l Hon. simpl. split; [exact Hon |]. right. destruct Hd; lia.
    + apply Forall_app. split; [exact Hf | apply Forall_singleton, Hu].
    + apply Forall_app. split; [exact Hn | apply Forall_singleton, Hu0].
    + unfold enqueues in *. rewrite omap_app. simpl.
      fold (enqueues (map (fun l => Enqueued l (d + 1)) links)).
      rewrite enqueues_enqueued. apply Forall_app. split; [exact He |].
      apply Forall_fmap, Forall_forall. intros l _. simpl.
      right. destruct Hd; lia.
    + rewrite map_app. simpl. apply sublist_app; [exact Hr | reflexivity].
    + apply Forall_app. split; [exact Hl |].
      apply Forall_singleton. exists (navigations st), hrefs. exact Hgo.
    + rewrite length_app. simpl. lia.
Qed.

Lemma run_reach (w : web) (domain baseUrl : string) (maxDepth : Z)
    (visited0 : gset string) (fuel : nat) (st : state) :
  reach w domain baseUrl maxDepth visited0 st ->
  reach w domain baseUrl maxDepth visited0 (run w domain maxDepth fuel st).
Proof.
  revert st. induction fuel as [|fuel IH]; intros st Hst; [exact Hst |].
  simpl. destruct (queue st); [exact Hst |]. apply IH, step_reach, Hst.
Qed.

Lemma start_reach (w : web) (domain baseUrl : string) (maxDepth : Z)
    (visited0 : gset string) :
  reach w domain baseUrl maxDepth visited0 (start baseUrl visited0).
Proof.
  constructor; simpl; try constructor; try reflexivity.
  - split; [left; reflexivity | left; reflexivity].
  - constructor.
  - left. reflexivity.
  - constructor.
Qed.

(** The visited set only grows. *)
Lemma step_visited (w : web) (domain : string) (maxDepth : Z) (st : state) :
  visited st ⊆ visited (step w domain maxDepth st).
Proof.
  unfold step. destruct (queue st) as [|[u d] rest]; [reflexivity |].
  destruct (_ || _); [reflexivity |].
  destruct (goto w (navigations st) u); simpl; apply union_subseteq_r.
Qed.

Lemma run_visited (w : web) (domain : string) (maxDepth : Z) (fuel : nat)
    (st : state) :
  visited st ⊆ visited (run w domain maxDepth fuel st).
Proof.
  revert st. induction fuel as [|fuel IH]; intros st; [reflexivity |].
  simpl. destruct (queue st); [reflexivity |].
  etransitivity; [apply step_visited | apply IH].
Qed.

(** A crawl that may fetch anything at all marks its start URL. *)
Lemma start_marked (w : web) (domain baseUrl : string) (maxDepth : Z)
    (visited0 : gset string) (fuel : nat) :
  0 <= maxDepth ->
  baseUrl ∈ visited (run w domain maxDepth (S fuel) (start baseUrl visited0)).
Proof.
  intros Hd. simpl. apply run_visited. unfold step. simpl.
  destruct (Z.ltb_spec maxDepth 0); [lia |]. simpl.
  case_bool_decide as Hseen; simpl; [exact Hseen |].
  destruct (goto w 0 baseUrl); simpl;
    apply elem_of_union_l, elem_of_singleton; reflexivity.
Qed.

Lemma crawl_skips (w : web) (domain baseUrl : string) (maxDepth : Z)
    (seen : gset string) (fuel : nat) :
  hostname w baseUrl = Some domain -> baseUrl ∈ seen ->
  crawl w (S fuel) baseUrl maxDepth seen = Returned [] (skipped baseUrl seen).
Proof.
  intros Hhost Hseen. unfold crawl. rewrite Hhost.
  cbn [run start queue].
  rewrite (step_skips_visited w domain maxDepth (start baseUrl seen)
             baseUrl 0 [] eq_refl Hseen).
  destruct fuel; reflexivity.
Qed.

End CrawlerReachFacts.

Module CrawlerProperties.
Import Crawler CrawlerTerms CrawlerFacts CrawlerReach CrawlerRunFacts
       CrawlerReachFacts.


(** X2. A crawl stays on the start URL's host: every URL it navigates to
    has the host name of the start URL and is the start URL itself or an
    absolute http(s) link.  The pages it returns are among the URLs it
    navigated to, in that order, each with the title a navigation to it
    reported; there are as many navigations as the browser was asked for;
    nothing is queued deeper than one level below the limit; and a negative
    depth limit fetches nothing. *)
Theorem crawl_stays_on_site (w : web) (fuel : nat) (baseUrl : string)
    (maxDepth : Z) (visited0 : gset string) (found : list (string * string))
    (final : state) :
  crawl w fuel baseUrl maxDepth visited0 = Returned found final ->
  Forall (fun u => hostname w u = hostname w baseUrl
                   /\ (u = baseUrl \/ starts_with_http u = true))
         (fetches (trace final))
  /\ sublist (map fst found) (fetches (trace final))
  /\ Forall (loaded_as w) found
  /\ length (fetches (trace final)) = navigations final
  /\ Forall (fun e => depth_ok maxDepth (snd e)) (enqueues (trace final))
  /\ (maxDepth < 0 -> found = [] /\ fetches (trace final) = []).
Proof.
  unfold crawl. destruct (hostname w baseUrl) as [domain|] eqn:Hhost;
    [| discriminate].
  pose proof (run_reach w domain baseUrl maxDepth visited0 fuel _
                (start_reach w domain baseUrl maxDepth visited0)) as Hreach.
  destruct (queue (run w domain maxDepth fuel (start baseUrl visited0)))
    eqn:Hq; [| discriminate].
  intros [= <- <-]. destruct Hreach as [_ Hf _ _ _ He Hr Hl Hc].
  split; [| split; [exact Hr | split; [exact Hl | split; [exact Hc |
            split; [exact He |]]]]].
  - eapply Forall_impl; [exact Hf |].
    intros u [-> | [Hhttp Hu]]; [split; [congruence | left; reflexivity] |].
    split; [congruence | right; exact Hhttp].
  - intros Hneg. destruct fuel as [|fuel]; [discriminate |].
    rewrite run_drops_deep; simpl; [split; reflexivity | | lia].
    repeat constructor. simpl. exact Hneg.
Qed.

Lemma crawl_stays_on_site_witness :
  exists found final,
    crawl small_site 10 "https://site.example/" 2 ∅ = Returned found final
    /\ map fst found
       = ["https://site.example/"; "https://site.example/about"]%string
    /\ sublist (map fst found) (fetches (trace final)).
Proof.
  assert (Hc : exists found final,
             crawl small_site 10 "https://site.example/" 2 ∅
             = Returned found final
             /\ map fst found
                = ["https://site.example/"; "https://site.example/about"]%string).
  { eexists. eexists. split; vm_compute; reflexivity. }
  destruct Hc as [found [final [Hc Hfound]]].
  exists found, final. split; [exact Hc |]. split; [exact Hfound |].
  exact (proj1 (proj2 (crawl_stays_on_site small_site 10 _ 2 ∅ found final Hc))).
Defined.

(** X3. A crawler remembers what it visited: the visited set a crawl
    starts with is kept, no URL in it is navigated to, and every URL
    navigated to is added to it.  So a second crawl from the same start URL
    on the same crawler (after a first one with a depth limit of 0 or more)
    returns no page and navigates nowhere, whatever its depth limit. *)
Theorem crawler_never_revisits (w : web) (fuel : nat) (baseUrl : string)
    (maxDepth : Z) (visited0 : gset string) (found : list (string * string))
    (final : state) :
  crawl w fuel baseUrl maxDepth visited0 = Returned found final ->
  visited0 ⊆ visited final
  /\ Forall (fun u => (u ∉ visited0) /\ u ∈ visited final)
       (fetches (trace final))
  /\ (0 <= maxDepth ->
      forall fuel' maxDepth',
        crawl w (S fuel') baseUrl maxDepth' (visited final)
        = Returned [] (skipped baseUrl (visited final))).
Proof.
  unfold crawl at 1. destruct (hostname w baseUrl) as [domain|] eqn:Hhost;
    [| discriminate].
  pose proof (run_reach w domain baseUrl maxDepth visited0 fuel _
                (start_reach w domain baseUrl maxDepth visited0)) as Hreach.
  destruct (queue (run w domain maxDepth fuel (start baseUrl visited0)))
    eqn:Hq; [| discriminate].
  intros [= <- <-]. destruct Hreach as [_ _ Hn Hm Hv _ _ _ _].
  split; [exact Hv |]. split.
  - apply Forall_forall. intros u Hu. rewrite Forall_forall in Hn, Hm. auto.
  - intros Hd fuel' maxDepth'. apply (crawl_skips w domain); [exact Hhost |].
    destruct fuel as [|fuel]; [discriminate |].
    apply start_marked. exact Hd.
Qed.

Lemma crawler_never_revisits_witness :
  exists found final,
    crawl small_site 10 "https://site.example/" 2 ∅ = Returned found final
    /\ crawl small_site 10 "https://site.example/" 2 (visited final)
       = Returned [] (skipped "https://site.example/" (visited final)).
Proof.
  assert (Hc : exists found final,
             crawl small_site 10 "https://site.example/" 2 ∅
             = Returned found final).
  { eexists. eexists. vm_compute; reflexivity. }
  destruct Hc as [found [final Hc]].
  exists found, final. split; [exact Hc |].
  refine (proj2 (proj2 (crawler_never_revisits small_site 10 _ 2 ∅ found final
                          Hc)) _ 9%nat 2).
  lia.
Defined.

End CrawlerProperties.

(** ** Batches of five *)

Module BatchFacts.
Import JS.

Section Slices.
Context {A : Type}.

(** The [k]-th batch is [xs.slice(k * size, k * size + size)]. *)
Lemma batches_aux_lookup (size fuel : nat) (xs : list A) (k : nat) :
  (0 < size)%nat -> (length xs <= fuel)%nat ->
  batches_aux fuel size xs !! k
  = if decide (k * size < length xs)%nat
    then Some (take size (drop (k * size) xs)) else None.
Proof.
  intros Hsize. revert xs k.
  induction fuel as [|fuel IH]; intros xs k Hlen.
  - destruct xs; [| simpl in Hlen; lia].
    case_decide as Hlt; [simpl in Hlt; lia | reflexivity].
  - destruct xs as [|x xs].
    { case_decide as Hlt; [simpl in Hlt; lia | reflexivity]. }
    change (batches_aux (S fuel) size (x :: xs))
      with (take size (x :: xs)
              :: batches_aux fuel size (drop size (x :: xs))).
    destruct k as [|k].
    + rewrite Nat.mul_0_l, drop_0.
      case_decide as Hge; [reflexivity | simpl in Hge; lia].
    + change ((?b :: ?bs) !! S k) with (bs !! k).
      rewrite IH by (rewrite length_drop; simpl in *; lia).
      rewrite length_drop, drop_drop.
      replace (size + k * size)%nat with (S k * size)%nat by lia.
      repeat case_decide; try reflexivity; lia.
Qed.

Lemma batches_lookup (size : nat) (xs : list A) (k : nat) :
  (0 < size)%nat ->
  batches size xs !! k
  = if decide (k * size < length xs)%nat
    then Some (take size (drop (k * size) xs)) else None.
Proof. intros Hsize. apply batches_aux_lookup; [exact Hsize | lia]. Qed.

End Slices.
End BatchFacts.

(** ** What a scan counts, truncates and caches *)

Module ScanFacts.
Import JS Scanner ScannerTerms SeverityFacts SuggestionFacts EnhanceFacts
       RiskScoreFacts ScannerBatch ScanTerms.

(** *** The breakdown counts every severity *)

Lemma assoc_bump (key s : string) (acc : list (string * Z)) :
  assoc s (bump key acc)
  = if String.eqb key s then Some (count_of s acc + 1) else assoc s acc.
Proof.
  unfold count_of. induction acc as [|[k n] acc IH]; simpl.
  - destruct (String.eqb_spec key s); reflexivity.
  - destruct (String.eqb_spec k key) as [-> | Hk]; simpl.
    + destruct (String.eqb_spec key s); reflexivity.
    + destruct (String.eqb_spec k s) as [-> | Hs].
      * destruct (String.eqb_spec key s); [congruence | reflexivity].
      * exact IH.
Qed.

Lemma count_of_bump (key s : string) (acc : list (string * Z)) :
  count_of s (bump key acc)
  = count_of s acc + (if String.eqb key s then 1 else 0).
Proof.
  unfold count_of at 1. rewrite assoc_bump.
  destruct (String.eqb key s); [reflexivity |]. unfold count_of. lia.
Qed.

Lemma keys_bump (key : string) (acc : list (string * Z)) :
  NoDup (map fst acc) ->
  NoDup (map fst (bump key acc))
  /\ forall k, k ∈ map fst (bump key acc) <-> k = key \/ k ∈ map fst acc.
Proof.
  induction acc as [|[k n] acc IH]; simpl; intros Hnd.
  - split; [apply NoDup_singleton |].
    intros k. rewrite list_elem_of_singleton, elem_of_nil. tauto.
  - apply NoDup_cons in Hnd as [Hk Hnd].
    destruct (String.eqb_spec k key) as [-> | Hne]; simpl.
    + split; [apply NoDup_cons; auto |].
      intros k. rewrite elem_of_cons. tauto.
    + destruct (IH Hnd) as [Hnd' Hin]. split.
      * apply NoDup_cons. split; [| exact Hnd'].
        rewrite Hin. intros [|]; congruence.
      * intros k'. rewrite !elem_of_cons, Hin. tauto.
Qed.

Lemma sum_bump (key : string) (acc : list (string * Z)) :
  foldr Z.add 0 (map snd (bump key acc)) = foldr Z.add 0 (map snd acc) + 1.
Proof.
  induction acc as [|[k n] acc IH]; simpl; [reflexivity |].
  destruct (String.eqb k key); simpl; lia.
Qed.

Lemma occurrences_snoc (s x : string) (l : list string) :
  occurrences s (l ++ [x])
  = occurrences s l + (if String.eqb x s then 1 else 0).
Proof.
  unfold occurrences. rewrite filter_app, length_app, Nat2Z.inj_add.
  f_equal. destruct (String.eqb_spec x s) as [-> | Hne].
  - rewrite filter_cons_True by reflexivity. reflexivity.
  - rewrite filter_cons_False by exact Hne. reflexivity.
Qed.

Lemma breakdown_counts (severities : list string) :
  NoDup (map fst (breakdown severities))
  /\ (forall s, count_of s (breakdown severities) = occurrences s severities)
  /\ (forall s, s ∈ map fst (breakdown severities) <-> s ∈ severities)
  /\ foldr Z.add 0 (map snd (breakdown severities))
     = Z.of_nat (length severities).
Proof.
  unfold breakdown.
  induction severities as [|x l IH] using rev_ind.
  - simpl. repeat split; try constructor; intros H; inversion H.
  - rewrite fold_left_app. simpl.
    destruct IH as [Hnd [Hcount [Hkeys Hsum]]].
    destruct (keys_bump x _ Hnd) as [Hnd' Hin].
    split; [exact Hnd' |]. split; [| split].
    + intros s. rewrite count_of_bump, Hcount, occurrences_snoc. reflexivity.
    + intros s. rewrite Hin, Hkeys, elem_of_app, list_elem_of_singleton. tauto.
    + rewrite sum_bump, Hsum, length_app. simpl. lia.
Qed.

Lemma fold_bump_severity (es : list enhanced) (acc : list (string * Z)) :
  fold_left (fun acc v => bump (severity v) acc) es acc
  = fold_left (fun acc s => bump s acc) (map severity es) acc.
Proof.
  revert acc. induction es as [|e es IH]; intros acc; [reflexivity |].
  simpl. apply IH.
Qed.

(** *** What [enhanceResults] returns *)

Lemma enhanceResults_metrics (w : world) (results : list violation)
    (st st' : state) (r : scan) :
  enhanceResults w results st = (Returned r, st') ->
  scan_metrics r
  = {| riskScore := calculateRiskScore (map severity (violations r));
       violationCount := length (violations r);
       severityBreakdown := breakdown (map severity (violations r)) |}.
Proof.
  unfold enhanceResults. intros Hr.
  destruct (process_batches w (batches BATCH_SIZE results) [] st)
    as [[out|e] st1]; [| discriminate].
  injection Hr as <- <-. simpl. unfold breakdown.
  rewrite fold_bump_severity. reflexivity.
Qed.

Lemma severities_by_table (es : list enhanced) :
  Forall by_table es ->
  map severity es = map (fun v => severity_of (impact v)) (map raw es).
Proof.
  induction 1 as [|e es He Hes IH]; [reflexivity |].
  simpl. rewrite IH. f_equal. unfold by_table in He.
  rewrite He. symmetry. apply severity_of_table.
Qed.


(** *** Truncated HTML *)

Lemma substring0_length (n : nat) (s : string) :
  String.length (substring0 n s) = Nat.min n (String.length s).
Proof.
  revert s. induction n as [|n IH]; intros [|c s]; simpl; try reflexivity.
  rewrite IH. reflexivity.
Qed.

Lemma substring0_prefix (n : nat) (s : string) :
  String.prefix (substring0 n s) s = true.
Proof.
  revert s. induction n as [|n IH]; intros [|c s]; simpl; try reflexivity.
  destruct (ascii_dec c c) as [_ | Hne]; [apply IH | congruence].
Qed.

Lemma substring0_short (n : nat) (s : string) :
  (String.length s <= n)%nat -> substring0 n s = s.
Proof.
  revert s. induction n as [|n IH]; intros [|c s]; simpl; intros Hlen;
    try reflexivity; try lia.
  rewrite IH by lia. reflexivity.
Qed.

(** *** Every entry is the raw violation, enhanced *)

Lemma settle_all_enhanced (os : list (violation * outcome payload))
    (es : list enhanced) :
  settle_all os = Returned es ->
  Forall (fun e => exists s, e = enhance (raw e) s) es.
Proof.
  revert es. induction os as [|[v [s|e]] os IH]; intros es Hes; simpl in Hes.
  - injection Hes as <-. constructor.
  - destruct (settle_all os) as [es'|e']; [| discriminate].
    injection Hes as <-.
    constructor; [exists s; reflexivity | apply IH; reflexivity].
  - discriminate.
Qed.

Lemma process_batches_enhanced (w : world) (bs : list (list violation))
    (acc out : list enhanced) (st : state) :
  fst (process_batches w bs acc st) = Returned out ->
  Forall (fun e => exists s, e = enhance (raw e) s) acc ->
  Forall (fun e => exists s, e = enhance (raw e) s) out.
Proof.
  revert acc st. induction bs as [|b bs IH]; intros acc st Hout Hacc;
    simpl in Hout.
  - injection Hout as <-. exact Hacc.
  - destruct (finish_batch w b st) as [os st1].
    destruct (settle_all os) as [eb|e] eqn:Hos; [| discriminate].
    apply (IH _ _ Hout). apply Forall_app. split; [exact Hacc |].
    apply (settle_all_enhanced os). exact Hos.
Qed.

Lemma enhanceResults_enhanced (w : world) (results : list violation)
    (st st' : state) (r : scan) :
  enhanceResults w results st = (Returned r, st') ->
  Forall (fun e => exists s, e = enhance (raw e) s) (violations r).
Proof.
  unfold enhanceResults. intros Hr.
  destruct (process_batches w (batches BATCH_SIZE results) [] st)
    as [[out|e] st1] eqn:Hrun; [| discriminate].
  injection Hr as <- <-. simpl.
  apply (process_batches_enhanced w (batches BATCH_SIZE results) [] out st);
    [rewrite Hrun; reflexivity | constructor].
Qed.

(** *** The suggestion cache *)

Lemma begin_awaiting_key (v : violation) (cache : gmap cache_key payload)
    (key : cache_key) (req : request) :
  begin_suggestion v cache = Awaiting key req ->
  key_of v = Some key /\ cache !! key = None.
Proof.
  unfold begin_suggestion, key_of.
  destruct (nodes v) as [|n0 ns]; [discriminate |].
  destruct (cache !! _) eqn:Hc; [discriminate |].
  destruct (get VIOLATION_TEMPLATES (id v)); intros [= <- _]; auto.
Qed.

Lemma begin_hit (v : violation) (cache : gmap cache_key payload)
    (key : cache_key) (p : payload) :
  key_of v = Some key -> cache !! key = Some p ->
  begin_suggestion v cache = Settled (Returned (mark_cached p)).
Proof.
  unfold begin_suggestion, key_of.
  destruct (nodes v) as [|n0 ns]; [discriminate |].
  intros [= <-] Hc. cbv zeta.
  match goal with
  | |- context [cache !! ?k] =>
      replace (cache !! k) with (Some p) by (symmetry; exact Hc)
  end.
  reflexivity.
Qed.

(** Only the cache entry under the violation's own key matters. *)
Lemma begin_suggestion_ext (v : violation) (c c' : gmap cache_key payload) :
  (forall key, key_of v = Some key -> c !! key = c' !! key) ->
  begin_suggestion v c = begin_suggestion v c'.
Proof.
  unfold begin_suggestion, key_of.
  destruct (nodes v) as [|n0 ns]; [reflexivity |].
  intros Hext. cbv zeta.
  match goal with
  | |- context [c !! ?k] =>
      replace (c !! k) with (c' !! k) by (symmetry; exact (Hext _ eq_refl))
  end.
  reflexivity.
Qed.

(** Consuming an answer changes the cache at most under the call's key. *)
Lemma finish_cache (w : world) (v : violation) (c : gmap cache_key payload)
    (st : state) (key : cache_key) :
  key_of v <> Some key ->
  RESPONSE_CACHE (snd (finish_suggestion w v (begin_suggestion v c) st)) !! key
  = RESPONSE_CACHE st !! key.
Proof.
  intros Hkey.
  destruct (begin_suggestion v c) as [o | k req] eqn:Hb; [reflexivity |].
  apply begin_awaiting_key in Hb as [Hk _]. simpl.
  destruct (complete w (calls st) req); simpl; [| reflexivity].
  apply lookup_insert_ne. congruence.
Qed.

(** *** A cached suggestion stays *)

(** An answer is stored only under a key that missed the cache when the
    call looked, so what the cache holds under a key it already has stays
    there. *)
Lemma finish_suggestion_keeps (w : world) (v : violation) (p : pending)
    (st : state) (key : cache_key) (q : payload) :
  (forall k req, p = Awaiting k req -> k <> key) ->
  RESPONSE_CACHE st !! key = Some q ->
  RESPONSE_CACHE (snd (finish_suggestion w v p st)) !! key = Some q.
Proof.
  intros Hp Hq. destruct p as [o | k req]; [exact Hq |].
  simpl. destruct (complete w (calls st) req); simpl; [| exact Hq].
  rewrite lookup_insert_ne; [exact Hq | exact (Hp k req eq_refl)].
Qed.

Lemma begin_suggestion_other_key (v : violation)
    (c : gmap cache_key payload) (key : cache_key) (q : payload) :
  c !! key = Some q ->
  forall k req, begin_suggestion v c = Awaiting k req -> k <> key.
Proof.
  intros Hq k req Hb. apply begin_awaiting_key in Hb as [_ Hmiss].
  intros ->. rewrite Hq in Hmiss. discriminate.
Qed.

Lemma generateFixSuggestions_keeps (w : world) (v : violation) (st : state)
    (key : cache_key) (q : payload) :
  RESPONSE_CACHE st !! key = Some q ->
  RESPONSE_CACHE (snd (generateFixSuggestions w v st)) !! key = Some q.
Proof.
  intros Hq. unfold generateFixSuggestions.
  apply finish_suggestion_keeps; [| exact Hq].
  apply (begin_suggestion_other_key v _ key q Hq).
Qed.

Lemma finish_pending_keeps (w : world) (ps : list (violation * pending))
    (st : state) (key : cache_key) (q : payload) :
  Forall (fun vp => forall k req, snd vp = Awaiting k req -> k <> key) ps ->
  RESPONSE_CACHE st !! key = Some q ->
  RESPONSE_CACHE (snd (finish_pending w ps st)) !! key = Some q.
Proof.
  intros Hps. revert st. induction Hps as [|[v p] ps Hp Hps IH]; intros st Hq.
  - exact Hq.
  - cbn [finish_pending].
    pose proof (finish_suggestion_keeps w (with_nodes v) p st key q Hp Hq)
      as H1.
    destruct (finish_suggestion w (with_nodes v) p st) as [o st1].
    specialize (IH st1 H1).
    destruct (finish_pending w ps st1) as [os st2]. exact IH.
Qed.

Lemma finish_batch_keeps (w : world) (vs : list violation) (st : state)
    (key : cache_key) (q : payload) :
  RESPONSE_CACHE st !! key = Some q ->
  RESPONSE_CACHE (snd (finish_batch w vs st)) !! key = Some q.
Proof.
  intros Hq. unfold finish_batch. apply finish_pending_keeps; [| exact Hq].
  apply Forall_fmap, Forall_forall. intros v _ k req Hb.
  exact (begin_suggestion_other_key (with_nodes v) _ key q Hq k req Hb).
Qed.

Lemma process_batches_keeps (w : world) (bs : list (list violation))
    (acc : list enhanced) (st : state) (key : cache_key) (q : payload) :
  RESPONSE_CACHE st !! key = Some q ->
  RESPONSE_CACHE (snd (process_batches w bs acc st)) !! key = Some q.
Proof.
  revert acc st. induction bs as [|b bs IH]; intros acc st Hq; [exact Hq |].
  cbn [process_batches].
  pose proof (finish_batch_keeps w b st key q Hq) as H1.
  destruct (finish_batch w b st) as [os st1].
  destruct (settle_all os); [apply IH; exact H1 | exact H1].
Qed.

Lemma enhanceResults_keeps (w : world) (results : list violation)
    (st : state) (key : cache_key) (q : payload) :
  RESPONSE_CACHE st !! key = Some q ->
  RESPONSE_CACHE (snd (enhanceResults w results st)) !! key = Some q.
Proof.
  intros Hq. unfold enhanceResults.
  pose proof (process_batches_keeps w (batches BATCH_SIZE results) [] st
                key q Hq) as H1.
  destruct (process_batches w (batches BATCH_SIZE results) [] st)
    as [[out | e] st1]; exact H1.
Qed.

Lemma run_activities_keeps (l : list activity) (st : state)
    (key : cache_key) (q : payload) :
  RESPONSE_CACHE st !! key = Some q ->
  RESPONSE_CACHE (run_activities l st) !! key = Some q.
Proof.
  unfold run_activities. revert st.
  induction l as [|a l IH]; intros st Hq; [exact Hq |].
  cbn [fold_left]. apply IH. destruct a as [w v | w results].
  - apply generateFixSuggestions_keeps. exact Hq.
  - apply enhanceResults_keeps. exact Hq.
Qed.

(** Calls that run one after the other do what calls that all looked at
    the cache [c] beforehand do, as long as no two of them share a key. *)
Lemma sequential_batch_pending (w : world) (vs : list violation)
    (c : gmap cache_key payload) (st : state) :
  NoDup (omap (fun v => key_of (with_nodes v)) vs) ->
  (forall v key, v ∈ vs -> key_of (with_nodes v) = Some key ->
                 RESPONSE_CACHE st !! key = c !! key) ->
  sequential_batch w vs st
  = finish_pending w
      (map (fun v => (v, begin_suggestion (with_nodes v) c)) vs) st.
Proof.
  revert st. induction vs as [|v vs IH]; intros st Hnd Hc; [reflexivity |].
  cbn [sequential_batch map finish_pending]. unfold generateFixSuggestions.
  rewrite (begin_suggestion_ext (with_nodes v) (RESPONSE_CACHE st) c)
    by (intros key Hkey; apply (Hc v key); [left | exact Hkey]).
  pose proof (fun key => finish_cache w (with_nodes v) c st key) as Hkeep.
  destruct (finish_suggestion w (with_nodes v) _ st) as [o st1]. simpl in Hkeep.
  rewrite IH; [reflexivity | |].
  - simpl in Hnd. destruct (key_of (with_nodes v)); [| exact Hnd].
    apply NoDup_cons in Hnd as [_ Hnd]. exact Hnd.
  - intros v' key Hin Hkey. rewrite Hkeep; [apply (Hc v' key); [right |]; auto |].
    intros Hv. simpl in Hnd. rewrite Hv in Hnd.
    apply NoDup_cons in Hnd as [Hnot _]. apply Hnot.
    apply list_elem_of_omap. exists v'. split; assumption.
Qed.

End ScanFacts.

Module ScannerProperties.
Import JS Scanner ScannerTerms SeverityFacts SuggestionFacts EnhanceFacts
       RiskScoreFacts ScannerBatch ScanTerms BatchFacts ScanFacts.

(** X4. The batches the scanner and the indexer work through partition
    the list: put end to end they give the list back, every batch holds
    one to five items, the [k]-th batch is [slice(5k, 5k + 5)], and there
    are as many batches as the length divided by five, rounded up. *)
Theorem batches_partition {A} (xs : list A) :
  concat (batches BATCH_SIZE xs) = xs
  /\ Forall (fun b => (1 <= length b <= 5)%nat) (batches BATCH_SIZE xs)
  /\ (forall k b, batches BATCH_SIZE xs !! k = Some b ->
                  b = take 5 (drop (5 * k) xs))
  /\ length (batches BATCH_SIZE xs) = ((length xs + 4) / 5)%nat.
Proof.
  assert (Hlookup : forall k,
            batches BATCH_SIZE xs !! k
            = if decide (k * 5 < length xs)%nat
              then Some (take 5 (drop (k * 5) xs)) else None).
  { intros k. apply (batches_lookup 5 xs k). lia. }
  split; [apply batches_concat; unfold BATCH_SIZE; lia |].
  split; [| split].
  - apply Forall_forall. intros b Hb.
    apply list_elem_of_lookup in Hb as [k Hk]. rewrite Hlookup in Hk.
    case_decide as Hlt; [| discriminate]. injection Hk as <-.
    rewrite length_take, length_drop. lia.
  - intros k b Hk. rewrite Hlookup in Hk.
    case_decide; [| discriminate]. injection Hk as <-.
    rewrite (Nat.mul_comm 5 k). reflexivity.
  - set (n := ((length xs + 4) / 5)%nat).
    assert (Hn : (5 * n <= length xs + 4 < 5 * (n + 1))%nat).
    { subst n. pose proof (Nat.div_mod_eq (length xs + 4) 5).
      pose proof (Nat.mod_upper_bound (length xs + 4) 5). lia. }
    destruct (Nat.lt_trichotomy (length (batches BATCH_SIZE xs)) n)
      as [Hlt | [Heq | Hgt]]; [| exact Heq |].
    + exfalso.
      pose proof (lookup_ge_None_2 (batches BATCH_SIZE xs)
                    (length (batches BATCH_SIZE xs)) (Nat.le_refl _)) as Hnone.
      rewrite Hlookup in Hnone. case_decide; [discriminate | lia].
    + exfalso.
      destruct (lookup_lt_is_Some_2 (batches BATCH_SIZE xs) n Hgt) as [b Hb].
      rewrite Hlookup in Hb. case_decide; [lia | discriminate].
Qed.

(** X5. The metrics of an enhanced scan depend on the impacts of the raw
    violations alone: the violation count is the number of raw violations,
    the risk score is [calculateRiskScore] of the severities the table
    gives their impacts, and the severity breakdown lists every severity
    that occurs once, with the number of violations that have it; the
    counts add up to the violation count. *)
Theorem enhanceResults_metrics_count (w : world) (results : list violation)
    (st st' : state) (r : scan) :
  enhanceResults w results st = (Returned r, st') ->
  let severities := map (fun v => severity_of (impact v)) results in
  let m := scan_metrics r in
  violationCount m = length results
  /\ riskScore m = calculateRiskScore severities
  /\ NoDup (map fst (severityBreakdown m))
  /\ (forall s, count_of s (severityBreakdown m) = occurrences s severities)
  /\ (forall s, s ∈ map fst (severityBreakdown m) <-> s ∈ severities)
  /\ foldr Z.add 0 (map snd (severityBreakdown m)) = Z.of_nat (length results).
Proof.
  intros Hr severities m. subst m.
  rewrite (enhanceResults_metrics w results st st' r Hr). cbn.
  destruct (enhanceResults_returned w results st st' r Hr) as [Hraw Hall].
  rewrite (severities_by_table _ Hall), Hraw. fold severities.
  destruct (breakdown_counts severities) as [Hnd [Hcount [Hkeys Hsum]]].
  split; [rewrite <- Hraw; symmetry; apply length_map |].
  split; [reflexivity |]. split; [exact Hnd |]. split; [exact Hcount |].
  split; [exact Hkeys |].
  rewrite Hsum. subst severities. rewrite length_map. reflexivity.
Qed.

Lemma enhanceResults_metrics_count_witness :
  exists r st',
    enhanceResults rate_limited three_findings fresh = (Returned r, st')
    /\ severityBreakdown (scan_metrics r)
       = [("critical", 1); ("high", 1); ("unknown", 1)]%string
    /\ violationCount (scan_metrics r) = 3%nat.
Proof.
  assert (Hr : exists r st',
             enhanceResults rate_limited three_findings fresh = (Returned r, st')
             /\ severityBreakdown (scan_metrics r)
                = [("critical", 1); ("high", 1); ("unknown", 1)]%string).
  { eexists. eexists. split; vm_compute; reflexivity. }
  destruct Hr as [r [st' [Hr Hb]]]. exists r, st'.
  split; [exact Hr |]. split; [exact Hb |].
  exact (proj1 (enhanceResults_metrics_count rate_limited three_findings
                  fresh st' r Hr)).
Defined.

(** X6. Every enhanced violation keeps the nodes of the raw one, one for
    one: the HTML of a node is a prefix of the raw HTML, at most 500
    characters long and unchanged when the raw HTML is that short, and the
    target is the raw selectors joined by " > ". *)
Theorem enhanceResults_truncates_nodes (w : world) (results : list violation)
    (st st' : state) (r : scan) :
  enhanceResults w results st = (Returned r, st') ->
  Forall (fun e => Forall2 truncated (e_nodes e) (nodes (raw e)))
         (violations r).
Proof.
  intros Hr. eapply Forall_impl; [apply (enhanceResults_enhanced _ _ _ _ _ Hr) |].
  intros e [s He]. rewrite He. cbn [e_nodes raw enhance]. clear.
  induction (nodes (raw e)) as [|n ns IH]; cbn [map]; constructor;
    [| exact IH].
  unfold truncated. cbn [enhance_node e_html e_target].
  split; [apply substring0_prefix |].
  split; [rewrite substring0_length; lia |].
  split; [apply substring0_short | reflexivity].
Qed.

Lemma enhanceResults_truncates_nodes_witness :
  exists r st',
    enhanceResults rate_limited three_findings fresh = (Returned r, st')
    /\ Forall (fun e => Forall2 truncated (e_nodes e) (nodes (raw e)))
         (violations r).
Proof.
  assert (Hr : exists r st',
             enhanceResults rate_limited three_findings fresh = (Returned r, st')).
  { eexists. eexists. vm_compute; reflexivity. }
  destruct Hr as [r [st' Hr]]. exists r, st'. split; [exact Hr |].
  exact (enhanceResults_truncates_nodes rate_limited three_findings fresh st'
           r Hr).
Defined.

(** X7. A suggestion the provider gave is served from the cache from then
    on: when a call missed the cache and the provider answered, the call
    returns the trimmed answer (not marked as cached) after one request;
    and whatever calls of [generateFixSuggestions] and scans by
    [enhanceResults] are started and finished after that call, every
    later call for a violation with the same cache key -- the same id,
    impact and help URL, and the same first-node HTML up to white space --
    returns that very suggestion marked as cached, without asking the
    provider and without changing the cache, whatever the provider would
    answer now. *)
Theorem suggestion_is_cached (w w' : world) (v v' : violation) (st : state)
    (key : cache_key) (req : request) (content : string)
    (between : list activity) :
  begin_suggestion v (RESPONSE_CACHE st) = Awaiting key req ->
  complete w (calls st) req = Completed content ->
  key_of v' = Some key ->
  let result :=
    Suggestion (id v) (trim content) (OPENAI_MODEL w) (clock w (calls st)) in
  let st1 := snd (generateFixSuggestions w v st) in
  let st2 := run_activities between st1 in
  fst (generateFixSuggestions w v st) = Returned (result false)
  /\ calls st1 = S (calls st)
  /\ generateFixSuggestions w' v' st2 = (Returned (result true), st2).
Proof.
  intros Hbegin Hdone Hkey result st1 st2.
  assert (Hgen : generateFixSuggestions w v st
                 = (Returned (result false),
                    {| RESPONSE_CACHE :=
                         <[key := result false]> (RESPONSE_CACHE st);
                       calls := S (calls st) |})).
  { unfold generateFixSuggestions. rewrite Hbegin. simpl.
    rewrite Hdone. reflexivity. }
  assert (Hkept : RESPONSE_CACHE st2 !! key = Some (result false)).
  { subst st2. apply run_activities_keeps. subst st1. rewrite Hgen.
    cbn [snd RESPONSE_CACHE]. apply lookup_insert_eq. }
  subst st1. rewrite Hgen. cbn [fst snd calls].
  split; [reflexivity |]. split; [reflexivity |].
  unfold generateFixSuggestions.
  rewrite (begin_hit v' _ key (result false) Hkey Hkept). reflexivity.
Qed.

Lemma suggestion_is_cached_witness :
  let st1 :=
    snd (generateFixSuggestions helpful
           (sample "region" (Some "moderate"%string)) fresh) in
  let st2 :=
    run_activities
      [Scan helpful three_findings; Call rate_limited (sample "label" None)]
      st1 in
  generateFixSuggestions rate_limited (sample "region" (Some "moderate"%string))
    st2
  = (Returned (Suggestion "region" "Add an alt attribute."
                 (Some "gpt-4-turbo"%string) "2024-01-01T00:00:00.000Z" true),
     st2).
Proof.
  refine (proj2 (proj2
    (suggestion_is_cached helpful rate_limited
       (sample "region" (Some "moderate"%string))
       (sample "region" (Some "moderate"%string)) fresh
       ("region", "<img src=logo.png>", Some "moderate",
        Some "https://rules.example/help")%string
       {| system_context := Some "https://rules.example/help"%string;
          system_element := "<img src=logo.png>"%string;
          user := Generic "region" (Some "moderate"%string)
                    (Some "https://rules.example/help"%string)
                    "<img src=logo.png>"%string |}
       "  Add an alt attribute.  "
       [Scan helpful three_findings; Call rate_limited (sample "label" None)]
       _ _ _)));
    vm_compute; reflexivity.
Defined.

(** White space in the cache key is that of JavaScript: a no-break space
    (code unit 160) is collapsed and trimmed like a blank, so two element
    texts that differ only in such spaces share a key. *)
Example key_ignores_no_break_space :
  let nbsp := String (ascii_of_nat 160) EmptyString in
  let v html :=
    {| id := "region"%string; impact := None; helpUrl := None;
       description := ""%string; tags := [];
       nodes := [{| Scanner.html := html; target := [] |}] |} in
  key_of (v (nbsp +:+ "<p>" +:+ nbsp +:+ " a</p> ")%string)
  = key_of (v "<p> a</p>"%string).
Proof. vm_compute. reflexivity. Qed.

(** X8. Within one batch every call consults the cache before any answer
    arrives.  When the violations of the batch have pairwise distinct cache
    keys this makes no difference: the batch, as [finish_batch] runs it,
    gives the same outcomes and the same cache as running the calls one
    after the other. *)
Theorem batch_interleaving (w : world) (vs : list violation) (st : state) :
  NoDup (omap (fun v => key_of (with_nodes v)) vs) ->
  finish_batch w vs st = sequential_batch w vs st.
Proof.
  intros Hnd. symmetry.
  apply sequential_batch_pending; [exact Hnd | reflexivity].
Qed.

Lemma batch_interleaving_witness :
  finish_batch helpful three_findings fresh
  = sequential_batch helpful three_findings fresh.
Proof.
  apply batch_interleaving.
  apply (bool_decide_unpack _). vm_compute. exact I.
Defined.

(** With the same violation twice in one batch the two differ: in the
    batch both calls find the cache empty and ask the provider; one after
    the other, the second call would be served from the cache. *)
Remark duplicate_in_batch :
  let v := sample "region" (Some "moderate"%string) in
  calls (snd (finish_batch helpful [v; v] fresh)) = 2%nat
  /\ calls (snd (sequential_batch helpful [v; v] fresh)) = 1%nat.
Proof. split; vm_compute; reflexivity. Qed.

End ScannerProperties.

(** ** Signs and whole numbers in binary64 *)

Module Binary64SignFacts.
Import Binary64Terms Binary64Facts Binary64Order Binary64Sign.

Lemma shr_fexp_nonneg (m e : Z) (l : location) :
  0 <= m -> 0 <= shr_m (fst (shr_fexp prec emax m e l)).
Proof.
  intros Hm. unfold shr_fexp, shr.
  destruct (fexp prec emax (Zdigits2 m + e) - e) as [|k|k]; simpl fst.
  - rewrite shr_record_of_loc_m. exact Hm.
  - rewrite shr_iter_divides by (rewrite shr_record_of_loc_m; exact Hm).
    rewrite shr_record_of_loc_m. apply Z.div_pos; [exact Hm |].
    apply Z.pow_pos_nonneg; lia.
  - rewrite shr_record_of_loc_m. exact Hm.
Qed.

Lemma round_nearest_even_nonneg (m : Z) (l : location) :
  0 <= m -> 0 <= round_nearest_even m l.
Proof.
  intros Hm. destruct l as [|[| |]]; simpl; try destruct (Z.even m); lia.
Qed.

(** Rounding a non-negative value with a positive sign bit never yields NaN
    or a negative number. *)
Lemma binary_round_aux_nonneg (m e : Z) (l : location) :
  0 <= m -> nonneg_result (binary_round_aux prec emax false m e l).
Proof.
  intros Hm. unfold binary_round_aux.
  pose proof (shr_fexp_nonneg m e l Hm) as H1.
  destruct (shr_fexp prec emax m e l) as [mrs' e']. simpl in H1.
  pose proof (shr_fexp_nonneg
                (round_nearest_even (shr_m mrs') (loc_of_shr_record mrs'))
                e' loc_Exact (round_nearest_even_nonneg _ _ H1)) as H2.
  destruct (shr_fexp prec emax _ e' loc_Exact) as [mrs'' e'']. simpl in H2.
  destruct (shr_m mrs'') as [|q|q]; try lia; [exact I |].
  destruct (e'' <=? emax - prec); exact I.
Qed.

Lemma SFdiv_nonneg (mx my : positive) (ex ey : Z) :
  nonneg_result
    (SFdiv prec emax (S754_finite false mx ex) (S754_finite false my ey)).
Proof.
  unfold SFdiv, SFdiv_core_binary.
  set (e' := Z.min _ _). set (m' := match ex - ey - e' with 0 => _ | _ => _ end).
  assert (Hm' : 0 <= m').
  { subst m'. destruct (ex - ey - e') as [|s|s]; try lia.
    rewrite Z.shiftl_mul_pow2 by lia.
    apply Z.mul_nonneg_nonneg; [lia |]. apply Z.pow_nonneg. lia. }
  pose proof (Z.div_pos m' (Z.pos my) Hm' ltac:(lia)) as Hq.
  unfold Z.div in Hq. destruct (Z.div_eucl m' (Z.pos my)) as [q r].
  apply binary_round_aux_nonneg. exact Hq.
Qed.

Lemma SFmul_nonneg (x : spec_float) (my : positive) (ey : Z) :
  nonneg_result x ->
  nonneg_result (SFmul prec emax x (S754_finite false my ey)).
Proof.
  destruct x as [[|]|[|]| |[|] mx ex]; simpl; intros Hx; try contradiction;
    try exact I.
  apply binary_round_aux_nonneg. lia.
Qed.

(** A finite number is not NaN. *)
Lemma finite_not_nan (x : float) (s : bool) (m : positive) (e : Z) :
  Prim2SF x = S754_finite s m e -> JS.is_nan x = false.
Proof.
  intros Hx. unfold JS.is_nan. rewrite FloatAxioms.eqb_spec, Hx.
  unfold SFeqb, SFcompare. rewrite Z.compare_refl, Pos.compare_cont_refl.
  destruct s; reflexivity.
Qed.

(** The binary64 value of a positive integer below 2^53: the integer
    itself, its mantissa normalized to 53 digits. *)
Lemma of_Z_value (z : Z) :
  0 < z < 2 ^ 53 ->
  exists m e, Prim2SF (JS.of_Z z) = S754_finite false m e
              /\ -52 <= e <= 0 /\ Z.pos m = z * 2 ^ (- e)
              /\ 2 ^ 52 <= Z.pos m < 2 ^ 53.
Proof.
  intros Hz. unfold JS.of_Z.
  destruct (Z.ltb_spec z 0); [lia |].
  rewrite of_uint63_spec, Uint63.of_Z_spec.
  rewrite Z.mod_small by (change wB with (2 ^ 63); split; [lia |];
    apply Z.lt_trans with (2 ^ 53); [lia | reflexivity]).
  destruct z as [|p|p]; try lia.
  pose proof (digits2_pos_bound p) as [Hlo Hhi].
  set (D := Z.pos (digits2_pos p)) in *.
  assert (HD : 1 <= D <= 53).
  { split; [subst D; lia |].
    destruct (Z.le_gt_cases D 53) as [|Hgt]; [assumption |].
    exfalso. assert (2 ^ 53 <= 2 ^ (D - 1)) by (apply Z.pow_le_mono_r; lia).
    lia. }
  change (binary_normalize prec emax (Z.pos p) 0 false)
    with (binary_round prec emax false p 0).
  unfold binary_round.
  assert (Hf : fexp prec emax (Z.pos (digits2_pos p) + 0) = D - 53).
  { unfold fexp, emin. change prec with 53. change emax with 1024.
    subst D. lia. }
  rewrite Hf.
  pose proof (shl_align_value p 0 (D - 53) ltac:(lia)) as Hval.
  assert (Hsnd : snd (shl_align p 0 (D - 53)) = D - 53).
  { unfold shl_align. destruct (D - 53 - 0) eqn:Hk; simpl; lia. }
  assert (Hdig : Z.pos (digits2_pos (fst (shl_align p 0 (D - 53)))) = 53).
  { unfold shl_align. destruct (D - 53 - 0) as [|k|k] eqn:Hk; simpl fst.
    - subst D. lia.
    - lia.
    - rewrite digits2_iter_xO. subst D. lia. }
  destruct (shl_align p 0 (D - 53)) as [mz ez]. cbn [fst snd] in *. subst ez.
  exists mz, (D - 53).
  rewrite binary_round_aux_normal by (try exact Hdig; lia).
  split; [reflexivity |]. split; [lia |].
  split; [rewrite Hval; f_equal; f_equal; lia |].
  pose proof (digits2_pos_bound mz) as Hmz. rewrite Hdig in Hmz.
  exact Hmz.
Qed.

(** An integer above 100 is above 100 as a number. *)
Lemma of_Z_above_100 (z : Z) :
  100 < z < 2 ^ 53 -> PrimFloat.ltb 100 (JS.of_Z z) = true.
Proof.
  intros Hz. destruct (of_Z_value z ltac:(lia)) as [m [e [Hm [He [Hv Hn]]]]].
  rewrite FloatAxioms.ltb_spec, Hm.
  change (Prim2SF 100) with (S754_finite false 7036874417766400 (-46)).
  apply SFltb_rank; [discriminate | discriminate |].
  unfold rank_lt, rank. right. split; [reflexivity |].
  destruct (Z.lt_trichotomy (-46) e) as [Hlt | [Heq | Hgt]].
  - left. exact Hlt.
  - right. split; [exact Heq |]. subst e.
    change (2 ^ (- -46)) with 70368744177664 in Hv. lia.
  - exfalso.
    assert (Hp : 2 ^ 47 <= 2 ^ (- e)) by (apply Z.pow_le_mono_r; lia).
    assert (Hmul : 101 * 2 ^ 47 <= z * 2 ^ (- e))
      by (apply Z.mul_le_mono_nonneg; lia).
    assert (H53 : 2 ^ 53 < 101 * 2 ^ 47) by reflexivity.
    lia.
Qed.

Lemma map_agree {A B} (f g : A -> B) (l : list A) (x : A) :
  map f l = map g l -> x ∈ l -> f x = g x.
Proof.
  intros Heq Hx. apply list_elem_of_In in Hx.
  exact (proj1 (map_ext_in_iff (f:=f) (g:=g) (l:=l)) Heq x Hx).
Qed.

Lemma percentage_elem (k : Z) : 0 <= k <= 100 -> k ∈ percentages.
Proof. intros Hk. apply elem_of_seqZ. lia. Qed.

(** A whole number from 0 to 100 is left alone by [Math.min(_, 100)]. *)
Lemma min_percentage (k : Z) :
  0 <= k <= 100 -> JS.Math_min (JS.of_Z k) 100 = JS.of_Z k.
Proof.
  intros Hk.
  apply (map_agree (fun k => JS.Math_min (JS.of_Z k) 100) JS.of_Z percentages);
    [vm_compute; reflexivity | apply percentage_elem, Hk].
Qed.


Lemma min_above_100 (x : float) (s : bool) (m : positive) (e : Z) :
  Prim2SF x = S754_finite s m e -> PrimFloat.ltb 100 x = true ->
  JS.Math_min x 100 = 100%float.
Proof.
  intros Hx Hlt. unfold JS.Math_min.
  rewrite (finite_not_nan x s m e Hx), Hlt. reflexivity.
Qed.

(** [Math.round] of a non-negative number, capped at 100, is a whole number
    from 0 to 100. *)
Lemma round_min_percentage (y : float) :
  nonneg_result (Prim2SF y) ->
  exists k, 0 <= k <= 100 /\ JS.Math_min (JS.Math_round y) 100 = JS.of_Z k.
Proof.
  intros Hy. pose proof (Prim2SF_valid y) as Hvalid.
  destruct (Prim2SF y) as [[|]|[|]| |[|] m e] eqn:Hsf; try contradiction.
  - exists 0. split; [lia |].
    assert (y = 0%float) as -> by (apply Prim2SF_inj; rewrite Hsf; reflexivity).
    vm_compute. reflexivity.
  - exists 100. split; [lia |].
    assert (y = infinity) as -> by (apply Prim2SF_inj; rewrite Hsf; reflexivity).
    vm_compute. reflexivity.
  - simpl in Hvalid. destruct (mantissa_bounds m e Hvalid) as [Hm _].
    unfold JS.Math_round. rewrite Hsf.
    destruct (Z.leb_spec 0 e) as [He | He].
    + exists 100. split; [lia |].
      apply (min_above_100 y false m e Hsf).
      rewrite FloatAxioms.ltb_spec, Hsf.
      change (Prim2SF 100) with (S754_finite false 7036874417766400 (-46)).
      apply SFltb_rank; [discriminate | discriminate |].
      unfold rank_lt, rank. right. split; [reflexivity |]. left. lia.
    + set (d := 2 ^ (- e)).
      assert (Hd : 2 <= d).
      { change 2 with (2 ^ 1) at 1. apply Z.pow_le_mono_r; lia. }
      set (r := (2 * Z.pos m + d) / (2 * d)).
      assert (Hr0 : 0 <= r) by (apply Z.div_pos; lia).
      assert (Hr : r < 2 ^ 53).
      { apply Z.div_lt_upper_bound; [lia |].
        assert (2 * 2 ^ 53 <= d * 2 ^ 53) by (apply Z.mul_le_mono_nonneg_r; lia).
        lia. }
      destruct (Z.eqb_spec r 0) as [_ | Hne].
      * exists 0. split; [lia |]. vm_compute. reflexivity.
      * destruct (Z.le_gt_cases r 100) as [Hle | Hgt].
        -- exists r. split; [lia |]. apply min_percentage. lia.
        -- exists 100. split; [lia |].
           destruct (of_Z_value r ltac:(lia)) as [mr [er [Hmr _]]].
           apply (min_above_100 _ false mr er Hmr).
           apply of_Z_above_100. lia.
Qed.

(** The quotient of two positive integers, times 100, is not negative. *)
Lemma ratio_nonneg (a b : Z) :
  0 < a < 2 ^ 53 -> 0 < b < 2 ^ 53 ->
  nonneg_result (Prim2SF (JS.of_Z a / JS.of_Z b * 100)%float).
Proof.
  intros Ha Hb.
  destruct (of_Z_value a Ha) as [ma [ea [Hma _]]].
  destruct (of_Z_value b Hb) as [mb [eb [Hmb _]]].
  rewrite FloatAxioms.mul_spec, FloatAxioms.div_spec, Hma, Hmb.
  change (Prim2SF 100) with (S754_finite false 7036874417766400 (-46)).
  apply SFmul_nonneg, SFdiv_nonneg.
Qed.

End Binary64SignFacts.

(** ** The range of the risk score *)

Module RiskScoreRangeFacts.
Import JS Scanner ScannerTerms RiskScoreFacts Binary64Sign Binary64SignFacts.

(** Every severity that is not an inherited name adds between 1 and 10. *)
Lemma add_weight_bounds (s : string) (n : Z) :
  s ∉ prototype_keys ->
  exists m, add_weight (Num n) s = Num m /\ n + 1 <= m <= n + 10.
Proof.
  intros Hs. unfold add_weight, get. rewrite (not_inherited s Hs).
  unfold assoc, SEVERITY_WEIGHTS.
  repeat match goal with
  | |- context [String.eqb ?k s] => destruct (String.eqb k s)
  end; simpl; eexists; (split; [reflexivity | lia]).
Qed.

Lemma rawScore_bounds (severities : list string) (a : Z) :
  Forall (fun x => x ∉ prototype_keys) severities ->
  exists n, fold_left add_weight severities (Num a) = Num n
            /\ a + Z.of_nat (length severities) <= n
               <= a + 10 * Z.of_nat (length severities).
Proof.
  intros Hall. revert a. induction Hall as [|s l Hs Hl IH]; intros a.
  - exists a. split; [reflexivity | simpl; lia].
  - cbn [fold_left]. destruct (add_weight_bounds s a Hs) as [m [-> Hm]].
    destruct (IH m) as [n [Hn Hb]]. exists n. split; [exact Hn |].
    rewrite length_cons, Nat2Z.inj_succ. lia.
Qed.

Lemma score_percentage (severities : list string) :
  Forall (fun x => x ∉ prototype_keys) severities ->
  Z.of_nat (length severities) < 2 ^ 32 ->
  exists k, 0 <= k <= 100 /\ calculateRiskScore severities = of_Z k.
Proof.
  intros Hall Hlen. unfold calculateRiskScore.
  destruct (Z.ltb_spec 0 (Z.of_nat (length severities) * 10)) as [Hpos | Hzero].
  - destruct (rawScore_bounds severities 0 Hall) as [n [Hn Hb]].
    unfold rawScore. rewrite Hn.
    assert (H53 : 10 * 2 ^ 32 < 2 ^ 53) by reflexivity.
    apply round_min_percentage, ratio_nonneg; lia.
  - exists 0. split; [lia | reflexivity].
Qed.

End RiskScoreRangeFacts.

Module RiskScoreProperties.
Import JS Scanner ScannerTerms RiskScoreFacts RiskScoreRangeFacts.

(** X9. [calculateRiskScore] yields a whole number from 0 to 100, never
    NaN, a fraction or a negative number: for fewer than 2^32 severities
    (the longest array there is), none of them the name of a member every
    object inherits, the score is the binary64 value of an integer [k] with
    [0 <= k <= 100]. *)
Theorem calculateRiskScore_percentage (severities : list string) :
  Forall (fun x => x ∉ prototype_keys) severities ->
  Z.of_nat (length severities) < 2 ^ 32 ->
  exists k, 0 <= k <= 100 /\ calculateRiskScore severities = of_Z k.
Proof. apply score_percentage. Qed.

Lemma calculateRiskScore_percentage_witness :
  exists k, 0 <= k <= 100
            /\ calculateRiskScore ["high"; "unknown"; "low"]%string = of_Z k.
Proof.
  apply calculateRiskScore_percentage.
  - repeat constructor; apply not_elem_of_compute; reflexivity.
  - reflexivity.
Defined.

End RiskScoreProperties.

(** ** What a store leaves in the tables *)

Module StoreFacts.
Import JS Numbers Indexer IndexerTerms IndexerFacts StoreTerms.





Lemma filter_app_all {A} (P Q : A -> Prop) `{!forall x, Decision (P x)}
    `{!forall x, Decision (Q x)} (l rest : list A) :
  (forall x, x ∈ l -> P x -> Q x) -> Forall (fun x => ~ P x) rest ->
  filter P (filter Q l ++ rest) = filter P l.
Proof.
  intros Hl Hrest. rewrite filter_app, (filter_none P rest Hrest), app_nil_r.
  induction l as [|x l IH]; [reflexivity |].
  assert (IH' : filter P (filter Q l) = filter P l)
    by (apply IH; intros y Hy; apply Hl; right; exact Hy).
  destruct (decide (P x)) as [Hp | Hp].
  - rewrite (filter_cons_True Q) by (apply Hl; [left | exact Hp]).
    rewrite !filter_cons_True by exact Hp. f_equal. exact IH'.
  - rewrite (filter_cons_False P x l) by exact Hp.
    destruct (decide (Q x)) as [Hq | Hq].
    + rewrite (filter_cons_True Q) by exact Hq.
      rewrite filter_cons_False by exact Hp. exact IH'.
    + rewrite (filter_cons_False Q) by exact Hq. exact IH'.
Qed.


End StoreFacts.

Module StoreProperties.
Import JS Numbers Scanner ScannerTerms Indexer IndexerTerms IndexerFacts
       StoreTerms StoreFacts EnhanceFacts ScanTerms ScanFacts
       RiskScoreRangeFacts Binary64SignFacts.







End StoreProperties.

(** ** Stored bytes, and the symmetry of the similarity *)

Module Binary64CodecFacts.
Import JS Numbers Indexer SearchEngine Binary64CodecTerms.

Lemma wrap8_range (z : Z) : -128 <= wrap8 z <= 127.
Proof. unfold wrap8. pose proof (Z.mod_pos_bound (z + 128) 256). lia. Qed.

Lemma recompress_byte (k : Z) : -128 <= k <= 127 -> recompress k = k.
Proof.
  intros Hk.
  assert (Hall : map recompress bytes = map (fun k => k) bytes)
    by (vm_compute; reflexivity).
  assert (Hin : In k bytes) by (apply list_elem_of_In, elem_of_seqZ; lia).
  exact (proj1 (map_ext_in_iff (f := recompress) (g := fun k => k)
                  (l := bytes)) Hall k Hin).
Qed.

Lemma recompress_bytes (c : list Z) :
  Forall (fun k => -128 <= k <= 127) c ->
  compressEmbedding (N := float) (decompress (Text c)) = c.
Proof.
  induction 1 as [|k c Hk Hc IH]; [reflexivity |].
  unfold compressEmbedding, decompress in *. cbn [map].
  rewrite IH. f_equal. apply (recompress_byte k Hk).
Qed.

(** *** Multiplication commutes *)

Lemma SFmul_comm (x y : spec_float) :
  SFmul prec emax x y = SFmul prec emax y x.
Proof.
  destruct x as [sx|sx| |sx mx ex], y as [sy|sy| |sy my ey]; simpl;
    try reflexivity; rewrite (xorb_comm sx sy); try reflexivity.
  rewrite (Pos.mul_comm mx my), (Z.add_comm ex ey). reflexivity.
Qed.

Lemma mul_comm (x y : float) : (x * y = y * x)%float.
Proof.
  apply Prim2SF_inj. rewrite !FloatAxioms.mul_spec. apply SFmul_comm.
Qed.

Lemma accumulate_swap (a b : list float) (dot magA magB : float) :
  accumulate b a dot magB magA
  = let '(d, ma, mb) := accumulate a b dot magA magB in (d, mb, ma).
Proof.
  revert b dot magA magB.
  induction a as [|x a IH]; intros [|y b] dot magA magB; try reflexivity.
  cbn [accumulate]. rewrite IH. cbn [mul binary64]. rewrite (mul_comm y x).
  reflexivity.
Qed.

Lemma cosineSimilarity_comm (vecA vecB : option (vector float)) :
  cosineSimilarity vecA vecB = cosineSimilarity vecB vecA.
Proof.
  destruct vecA as [va|], vecB as [vb|]; try reflexivity.
  unfold cosineSimilarity.
  rewrite (Nat.eqb_sym (length (decompress vb))).
  destruct (length (decompress va) =? length (decompress vb))%nat;
    [| reflexivity]. cbn [negb].
  rewrite (accumulate_swap (decompress va) (decompress vb)).
  destruct (accumulate (decompress va) (decompress vb) _ _ _)
    as [[dot magA] magB].
  rewrite (andb_comm (truthy magB)). cbn [mul binary64].
  rewrite (mul_comm (sqrt magB)). reflexivity.
Qed.

(** *** A zero vector *)

Lemma zero_square (x : float) : is_zero x -> (x * x)%float = 0%float.
Proof.
  unfold is_zero. rewrite FloatAxioms.eqb_spec. intros Hx.
  apply Prim2SF_inj. rewrite FloatAxioms.mul_spec.
  change (Prim2SF 0) with (S754_zero false) in *.
  destruct (Prim2SF x) as [[|]|[|]| |[|] m e]; try discriminate; reflexivity.
Qed.

Lemma accumulate_zero (a b : list float) (dot magA : float) :
  Forall is_zero b ->
  snd (accumulate a b dot magA 0%float) = 0%float.
Proof.
  intros Hb. revert a dot magA.
  induction Hb as [|y b Hy Hb IH]; intros [|x a] dot magA; try reflexivity.
  cbn [accumulate add mul binary64]. rewrite (zero_square y Hy).
  change (0 + 0)%float with 0%float. apply IH.
Qed.

End Binary64CodecFacts.

Module CodecProperties.
Import JS Numbers Indexer SearchEngine Binary64CodecTerms Binary64CodecFacts.

(** X13. Compression loses nothing a second time: a compressed embedding
    has one byte per component, each from -128 to 127, and decompressing it
    as [cosineSimilarity] does (dividing by 127) and compressing the result
    again gives the same bytes back. *)
Theorem compress_decompress_compress (v : list float) :
  let c := compressEmbedding v in
  length c = length v
  /\ Forall (fun k => -128 <= k <= 127) c
  /\ compressEmbedding (N := float) (decompress (Text c)) = c.
Proof.
  intros c.
  assert (Hc : Forall (fun k => -128 <= k <= 127) c).
  { subst c. unfold compressEmbedding. apply Forall_fmap, Forall_forall.
    intros x _. apply wrap8_range. }
  split; [subst c; unfold compressEmbedding; apply length_map |].
  split; [exact Hc | apply recompress_bytes, Hc].
Qed.

(** X14. [cosineSimilarity] is symmetric: swapping the two arguments,
    arrays, stored texts or missing, gives the same number, bit for bit. *)
Theorem cosineSimilarity_symmetric (vecA vecB : option (vector float)) :
  cosineSimilarity vecA vecB = cosineSimilarity vecB vecA.
Proof. apply cosineSimilarity_comm. Qed.

(** X15. A vector of zeros is similar to nothing: when every component of
    one argument is +0 or -0 after decompression, [cosineSimilarity]
    returns 0 on either side, whatever the other argument holds (NaN and
    infinities included) -- the division by a zero magnitude is never
    made. *)
Theorem cosineSimilarity_zero_vector (vecA : option (vector float))
    (vb : vector float) :
  Forall is_zero (decompress vb) ->
  cosineSimilarity vecA (Some vb) = 0%float
  /\ cosineSimilarity (Some vb) vecA = 0%float.
Proof.
  intros Hb.
  assert (Hleft : cosineSimilarity vecA (Some vb) = 0%float).
  { destruct vecA as [va|]; [| reflexivity].
    unfold cosineSimilarity. cbv zeta.
    destruct (negb _); [reflexivity |].
    pose proof (accumulate_zero (decompress va) (decompress vb)
                  (of_int 0) (of_int 0) Hb) as Hz.
    change (of_int (N := float) 0) with 0%float in *.
    destruct (accumulate (decompress va) (decompress vb) 0%float 0%float
                0%float) as [[dot magA] magB].
    simpl in Hz. subst magB.
    rewrite andb_comm. reflexivity. }
  split; [exact Hleft |]. rewrite cosineSimilarity_comm. exact Hleft.
Qed.

Lemma cosineSimilarity_zero_vector_witness :
  cosineSimilarity (Some (Array [0.5; nan]%float))
    (Some (Array [0; -0]%float)) = 0%float
  /\ cosineSimilarity (Some (Text [0; 0])) (Some (Array [0.5; nan]%float))
     = 0%float.
Proof.
  split.
  - refine (proj1 (cosineSimilarity_zero_vector
                     (Some (Array [0.5; nan]%float)) (Array [0; -0]%float) _)).
    repeat constructor.
  - refine (proj2 (cosineSimilarity_zero_vector
                     (Some (Array [0.5; nan]%float)) (Text [0; 0]) _)).
    repeat constructor.
Defined.

End CodecProperties.

(** ** The screen reader simulation *)

Module ScreenReaderFacts.
Import JS Scanner ScannerTerms SuggestionFacts ScanTerms ScreenReader
       ScreenReaderTerms.

(** A call on a violation with a node returns, after at most one request
    to the provider. *)
Lemma generate_calls (w : world) (v : violation) (st : state) :
  has_node v ->
  exists p st1, generateFixSuggestions w v st = (Returned p, st1)
                /\ (calls st <= calls st1 <= S (calls st))%nat.
Proof.
  intros Hn. unfold generateFixSuggestions.
  destruct (begin_not_thrown v (RESPONSE_CACHE st) Hn)
    as [[p ->] | [key [req ->]]]; simpl.
  - eexists _, _. split; [reflexivity | lia].
  - destruct (complete w (calls st) req); eexists _, _;
      (split; [reflexivity | simpl; lia]).
Qed.

Lemma finding_has_node (rule text : string) (el : element) :
  has_node (finding rule text el).
Proof. unfold has_node. simpl. discriminate. Qed.

Lemma check_alt_adds (w : world) (el : element) (issues : list issue)
    (st : state) :
  adds_at_most_one (check_alt w el issues) issues st.
Proof.
  unfold adds_at_most_one, check_alt.
  destruct (_ && _ && _).
  - unfold bind.
    destruct (generate_calls w
                (finding "screenreader-missing-alt" "Image missing alt text" el)
                st (finding_has_node _ _ _)) as [p [st1 [-> Hcalls]]].
    eexists [_], st1. split; [reflexivity |]. split; [simpl; lia |].
    split; [apply Forall_singleton; left; reflexivity | simpl; lia].
  - exists [], st. rewrite app_nil_r. split; [reflexivity |].
    split; [simpl; lia |]. split; [constructor | simpl; lia].
Qed.

Lemma check_aria_adds (w : world) (el : element) (issues : list issue)
    (st : state) :
  adds_at_most_one (check_aria w el issues) issues st.
Proof.
  unfold adds_at_most_one, check_aria.
  destruct (_ && _ && _).
  - unfold bind.
    destruct (generate_calls w
                (finding "screenreader-missing-aria"
                   "Interactive element missing ARIA label" el)
                st (finding_has_node _ _ _)) as [p [st1 [-> Hcalls]]].
    eexists [_], st1. split; [reflexivity |]. split; [simpl; lia |].
    split; [apply Forall_singleton; right; reflexivity | simpl; lia].
  - exists [], st. rewrite app_nil_r. split; [reflexivity |].
    split; [simpl; lia |]. split; [constructor | simpl; lia].
Qed.

(** No element triggers both checks. *)
Lemma checks_exclusive (w : world) (el : element) (issues : list issue)
    (st : state) :
  exists extra st1,
    bind (check_alt w el issues) (check_aria w el) st
    = (Returned (issues ++ extra), st1)
    /\ (length extra <= 1)%nat /\ Forall reported extra
    /\ (calls st <= calls st1 <= calls st + length extra)%nat
    /\ (labelled el -> extra = [] /\ st1 = st).
Proof.
  unfold bind at 1.
  destruct (String.eqb_spec (tagName el) "IMG") as [Himg | Himg].
  - (* an image: the second check does not apply *)
    destruct (check_alt_adds w el issues st) as [extra [st1 [Ha [Hl [Hr Hc]]]]].
    rewrite Ha. unfold check_aria. rewrite Himg. cbn [existsb String.eqb].
    simpl. exists extra, st1. split; [reflexivity |].
    split; [exact Hl |]. split; [exact Hr |]. split; [exact Hc |].
    intros Hlab. unfold check_alt in Ha. unfold labelled in Hlab.
    rewrite Hlab, andb_false_r in Ha. injection Ha as Ha <-.
    split; [| reflexivity].
    apply (app_inv_head issues). rewrite app_nil_r. symmetry. exact Ha.
  - unfold check_alt.
    destruct (String.eqb_spec (tagName el) "IMG") as [| _]; [contradiction |].
    cbn [andb]. unfold ret at 1.
    destruct (check_aria_adds w el issues st) as [extra [st1 [Ha [Hl [Hr Hc]]]]].
    rewrite Ha. exists extra, st1. split; [reflexivity |].
    split; [exact Hl |]. split; [exact Hr |]. split; [exact Hc |].
    intros Hlab. unfold check_aria in Ha. unfold labelled in Hlab.
    rewrite Hlab, andb_false_r in Ha. simpl in Ha. injection Ha as Ha <-.
    split; [| reflexivity].
    apply (app_inv_head issues). rewrite app_nil_r. symmetry. exact Ha.
Qed.

Lemma bind_assoc {A B C} (m : action A) (f : A -> action B)
    (g : B -> action C) (st : state) :
  bind m (fun a => bind (f a) g) st = bind (bind m f) g st.
Proof.
  unfold bind. destruct (m st) as [[a | e] st1]; reflexivity.
Qed.

Lemma each_element_returns (w : world) (elements : list element)
    (issues : list issue) (st : state) :
  exists extra st1,
    each_element w elements issues st = (Returned (issues ++ extra), st1)
    /\ (length extra <= length elements)%nat /\ Forall reported extra
    /\ (calls st <= calls st1 <= calls st + length extra)%nat
    /\ (Forall labelled elements -> extra = [] /\ st1 = st).
Proof.
  revert issues st. induction elements as [|el rest IH]; intros issues st.
  - exists [], st. simpl. rewrite app_nil_r. unfold ret.
    repeat split; try constructor; lia.
  - cbn [each_element]. rewrite bind_assoc. unfold bind at 1.
    destruct (checks_exclusive w el issues st)
      as [e1 [st1 [-> [Hl1 [Hr1 [Hc1 Hlab1]]]]]].
    destruct (IH (issues ++ e1) st1) as [e2 [st2 [-> [Hl2 [Hr2 [Hc2 Hlab2]]]]]].
    exists (e1 ++ e2), st2. rewrite app_assoc. split; [reflexivity |].
    rewrite length_app. split; [simpl; lia |].
    split; [apply Forall_app; split; assumption |]. split; [lia |].
    intros Hall. inversion Hall as [|? ? Hel Hrest]; subst.
    destruct (Hlab1 Hel) as [-> ->]. destruct (Hlab2 Hrest) as [-> ->].
    split; reflexivity.
Qed.

End ScreenReaderFacts.

Module ScreenReaderProperties.
Import JS Scanner ScannerTerms ScanTerms ScreenReader ScreenReaderTerms
       ScreenReaderFacts.

(** X16. Given the elements of the page and their properties,
    [simulateScreenReader] returns and does not throw, whatever the
    provider does.  It reports at most one issue per element (no element
    fails both checks), each of one of the two kinds, and asks the provider
    at most once per issue.  When every element carries an [aria-label] it
    reports nothing, asks nothing and leaves the suggestion cache as it
    was. *)
Theorem simulateScreenReader_returns (w : world) (elements : list element)
    (st : state) :
  exists issues st',
    simulateScreenReader w elements st = (Returned issues, st')
    /\ (length issues <= length elements)%nat
    /\ Forall reported issues
    /\ (calls st <= calls st' <= calls st + length issues)%nat
    /\ (Forall labelled elements -> issues = [] /\ st' = st).
Proof. apply (each_element_returns w elements [] st). Qed.

(** The image and the link of the sample are reported, the labelled button
    is not. *)
Example simulateScreenReader_sample :
  map i_type (match fst (simulateScreenReader rate_limited three_elements fresh)
              with Returned issues => issues | Threw _ => [] end)
  = ["screenreader-missing-alt"; "screenreader-missing-aria"]%string.
Proof. vm_compute. reflexivity. Qed.

End ScreenReaderProperties.

(** ** The statement of a violation search *)

Module ViolationSearchFacts.
Import ViolationSearch ViolationSearchTerms.
Local Open Scope string_scope.



(** One of two filters is given and the other is not. *)
Ltac differ H :=
  exfalso; destruct H as [H1 H2];
  first [discriminate (H1 eq_refl) | discriminate (H2 eq_refl)].

Section Engine.
Variable toLowerCase : string -> string.
Variable db_all : string -> list param -> option (list found).

(** Every clause adds one placeholder and one value. *)
Lemma build_placeholders (f : filters) (limit : Z) :
  count "?" (fst (build toLowerCase f limit))
  = length (snd (build toLowerCase f limit)).
Proof.
  unfold build.
  destruct (given (violationId f)), (given (severity f)), (given (domain f));
    vm_compute; reflexivity.
Qed.

Lemma build_shape (f g : filters) (limit limit' : Z) :
  same_shape f g ->
  fst (build toLowerCase f limit) = fst (build toLowerCase g limit').
Proof.
  unfold same_shape, build. intros [Hv [Hs Hd]].
  destruct (given (violationId f)), (given (violationId g)); try differ Hv;
    destruct (given (severity f)), (given (severity g)); try differ Hs;
    destruct (given (domain f)), (given (domain g)); try differ Hd;
    reflexivity.
Qed.

(** The text does not depend on how letters are lower-cased. *)
Lemma build_text (lower : string -> string) (f : filters) (limit : Z) :
  fst (build lower f limit) = fst (build toLowerCase f limit).
Proof.
  unfold build.
  destruct (given (violationId f)), (given (severity f)), (given (domain f));
    reflexivity.
Qed.


Lemma build_last (f : filters) (limit : Z) :
  last (snd (build toLowerCase f limit)) = Some (Number limit).
Proof.
  unfold build.
  destruct (given (violationId f)), (given (severity f)), (given (domain f));
    reflexivity.
Qed.



End Engine.
End ViolationSearchFacts.

Module ViolationSearchProperties.
Import ViolationSearch ViolationSearchTerms ViolationSearchFacts.
Local Open Scope string_scope.

(** X17. [searchViolations] never puts a filter value into the SQL text.
    The statement has exactly as many [?] placeholders as values are bound,
    the limit is bound last, and the text depends only on which of the
    three filters are given: two calls that use the same filters run the
    same text, whatever the values and the limit. *)
Theorem searchViolations_binds_every_value (toLowerCase : string -> string)
    (f : filters) (limit : Z) :
  let query := fst (build toLowerCase f limit) in
  let params := snd (build toLowerCase f limit) in
  count "?" query = length params
  /\ last params = Some (Number limit)
  /\ (forall lower g limit',
        same_shape f g -> fst (build lower g limit') = query).
Proof.
  split; [apply build_placeholders |]. split; [apply build_last |].
  intros lower g limit' Hshape.
  rewrite (build_shape toLowerCase f g limit limit' Hshape).
  apply build_text.
Qed.



End ViolationSearchProperties.

(** ** The validation of posted scan data *)

Module ReportFacts.
Import JS Scanner Report ReportTerms.
Local Open Scope string_scope.

Lemma or_else_truthy (a : option value) (d : value) :
  to_boolean (Some d) = true -> to_boolean (Some (or_else a d)) = true.
Proof.
  intros Hd. unfold or_else. destruct a as [v|]; [| exact Hd].
  destruct (to_boolean (Some v)) eqn:Hv; assumption.
Qed.

Lemma or_else_kept (v d : value) :
  to_boolean (Some v) = true -> or_else (Some v) d = v.
Proof. intros Hv. unfold or_else. rewrite Hv. reflexivity. Qed.

(** Defaulting twice is defaulting once. *)
Lemma or_else_twice (a : option value) (d : value) :
  or_else (Some (or_else a d)) d = or_else a d.
Proof.
  unfold or_else at 1. destruct (to_boolean (Some (or_else a d))) eqn:Ht;
    [reflexivity |].
  unfold or_else in *. destruct a as [v|]; [| reflexivity].
  destruct (to_boolean (Some v)) eqn:Hv; [congruence | reflexivity].
Qed.

Lemma map_throwing_threw (f : value -> outcome value) (items : list value) :
  (exists e, map_throwing f items = Threw e)
  <-> exists v e, v ∈ items /\ f v = Threw e.
Proof.
  induction items as [|v rest IH]; simpl.
  - split; [intros [e He]; discriminate |].
    intros [v [e [Hv _]]]. apply elem_of_nil in Hv. contradiction.
  - destruct (f v) as [v' | e] eqn:Hv.
    + destruct (map_throwing f rest) as [rest' | e'].
      * split; [intros [e He]; discriminate |].
        intros [x [e [Hx Hf]]]. apply elem_of_cons in Hx as [-> | Hx];
          [congruence |].
        destruct (proj2 IH) as [e' He']; [eauto | discriminate].
      * split; [| eauto]. intros _.
        destruct (proj1 IH) as [x [e [Hx Hf]]]; [eauto |].
        exists x, e. split; [right; exact Hx | exact Hf].
    + split; [| eauto]. intros _. exists v, e. split; [left | exact Hv].
Qed.

Lemma map_throwing_fixed (f : value -> outcome value) (items out : list value) :
  (forall v v', f v = Returned v' -> f v' = Returned v') ->
  map_throwing f items = Returned out -> map_throwing f out = Returned out.
Proof.
  intros Hf. revert out. induction items as [|v rest IH]; simpl; intros out.
  - intros [= <-]. reflexivity.
  - destruct (f v) as [v' | e] eqn:Hv; [| discriminate].
    destruct (map_throwing f rest) as [rest' | e]; [| discriminate].
    intros [= <-]. simpl. rewrite (Hf v v' Hv), (IH rest' eq_refl).
    reflexivity.
Qed.

Lemma validated_violation_threw (v : value) :
  (exists e, validated_violation v = Threw e) <-> v = Null.
Proof.
  destruct v; simpl; split; try discriminate; try (intros [e He]; discriminate);
    eauto.
Qed.

Lemma validated_issue_threw (v : value) :
  (exists e, validated_issue v = Threw e) <-> v = Null.
Proof.
  destruct v; simpl; split; try discriminate; try (intros [e He]; discriminate);
    eauto.
Qed.

Lemma map_array_threw (f : value -> outcome value) (a : option value) :
  (forall v, (exists e, f v = Threw e) <-> v = Null) ->
  (exists e, map_array f a = Threw e) <-> holds_null a.
Proof.
  intros Hf. unfold map_array, holds_null.
  destruct a as [[| | | |items|]|];
    try (split; [intros [e He]; discriminate
                | intros [items' [Heq _]]; discriminate]).
  pose proof (map_throwing_threw f items) as Hm.
  destruct (map_throwing f items) as [out | e].
  - split; [intros [e He]; discriminate |].
    intros [items' [[= <-] Hnull]].
    destruct (proj2 Hm) as [e He]; [| discriminate].
    destruct (proj2 (Hf Null) eq_refl) as [e He]. eauto.
  - split; [| eauto]. intros _.
    destruct (proj1 Hm) as [v [e' [Hv Hfv]]]; [eauto |].
    exists items. split; [reflexivity |].
    rewrite <- (proj1 (Hf v)); eauto.
Qed.

Section Fixed.
Local Arguments or_else : simpl never.
Local Arguments map_array : simpl never.

Lemma validated_violation_fixed (v v' : value) :
  validated_violation v = Returned v' -> validated_violation v' = Returned v'.
Proof.
  intros Hv.
  assert (Hv' : v' = Obj
        [ ("id", or_else (field v "id") (Str "unknown"));
          ("description",
           or_else (field v "description") (Str "No description available"));
          ("severity", or_else (field v "severity") (Str "medium"));
          ("nodes",
           Arr (array_or (field v "nodes")
                  [Obj [("html", or_else (field v "html")
                                   (Str "<div>No HTML available</div>"))]]));
          ("suggestion",
           Obj [("suggestion",
                 or_else (field_opt (field v "suggestion") "suggestion")
                   (Str "No suggestion available"))]) ])
    by (destruct v; cbn [validated_violation] in Hv; try discriminate;
        injection Hv as <-; reflexivity).
  rewrite Hv'. simpl. rewrite !or_else_twice. reflexivity.
Qed.

Lemma validated_issue_fixed (v v' : value) :
  validated_issue v = Returned v' -> validated_issue v' = Returned v'.
Proof.
  intros Hv.
  set (fallback := Obj [("suggestion", Str "No suggestion available")]).
  assert (Hv' : v' = Obj
        [ ("type", or_else (field v "type") (Str "screenreader-issue"));
          ("message",
           or_else (field v "message") (Str "No message available"));
          ("element", or_else (field v "element") (Str "Unknown element"));
          ("suggestion",
           or_else (field v "suggestion")
             (or_else (field v "parsedSuggestion") fallback)) ])
    by (destruct v; cbn [validated_issue] in Hv; try discriminate;
        injection Hv as <-; reflexivity).
  rewrite Hv'. simpl. rewrite !or_else_twice. fold fallback.
  rewrite (or_else_kept (or_else (field v "suggestion") _)); [reflexivity |].
  apply or_else_truthy, or_else_truthy. reflexivity.
Qed.

Lemma map_array_fixed (f : value -> outcome value) (a : option value)
    (out : value) :
  (forall v v', f v = Returned v' -> f v' = Returned v') ->
  map_array f a = Returned out -> map_array f (Some out) = Returned out.
Proof.
  intros Hf. unfold map_array at 1.
  destruct a as [[| | | |items|]|]; try (intros [= <-]; reflexivity).
  destruct (map_throwing f items) as [items' | e] eqn:Hm; [| discriminate].
  intros [= <-]. unfold map_array.
  rewrite (map_throwing_fixed f items items' Hf Hm). reflexivity.
Qed.

Lemma validatedData_fixed (now now' : string) (data out : value) :
  now <> "" ->
  validatedData now data = Returned out ->
  validatedData now' out = Returned out.
Proof.
  intros Hnow. unfold validatedData at 1.
  destruct (map_array validated_violation (field data "violations"))
    as [vs | e] eqn:Hvs; [| discriminate].
  destruct (map_array validated_issue (field data "screenReaderIssues"))
    as [iss | e] eqn:His; [| discriminate].
  intros [= <-]. unfold validatedData. simpl.
  rewrite (map_array_fixed _ _ _ validated_violation_fixed Hvs).
  rewrite (map_array_fixed _ _ _ validated_issue_fixed His).
  rewrite !or_else_twice.
  rewrite (or_else_kept (or_else (field data "scannedAt") (Str now)));
    [reflexivity |].
  apply or_else_truthy. simpl.
  destruct (String.eqb_spec now ""); [contradiction | reflexivity].
Qed.

End Fixed.

End ReportFacts.

Module ReportProperties.
Import JS Scanner Report ReportTerms ReportFacts.
Local Open Scope string_scope.

(** X19. The validation of a posted scan throws exactly when the posted
    [violations] or [screenReaderIssues] is an array that holds [null]:
    every other shape of the data -- missing fields, fields of the wrong
    type, entries that are numbers or strings -- is replaced by defaults
    and goes through. *)
Theorem validatedData_throws_on_null (now : string) (data : value) :
  (exists e, validatedData now data = Threw e)
  <-> holds_null (field data "violations")
      \/ holds_null (field data "screenReaderIssues").
Proof.
  unfold validatedData.
  pose proof (map_array_threw validated_violation (field data "violations")
                validated_violation_threw) as Hv.
  pose proof (map_array_threw validated_issue
                (field data "screenReaderIssues") validated_issue_threw) as Hi.
  destruct (map_array validated_violation _) as [vs | e].
  - destruct (map_array validated_issue _) as [iss | e].
    + split; [intros [e He]; discriminate |].
      intros [H | H]; [apply Hv in H | apply Hi in H]; destruct H; discriminate.
    + split; [intros _; right; apply Hi; eauto | eauto].
  - split; [intros _; left; apply Hv; eauto | eauto].
Qed.

(** X20. Validation is idempotent: a validated scan, posted again (at any
    later time), is validated to itself -- every default that was filled
    in is kept, nothing is defaulted twice. *)
Theorem validatedData_idempotent (now now' : string) (data out : value) :
  now <> "" ->
  validatedData now data = Returned out ->
  validatedData now' out = Returned out.
Proof. apply validatedData_fixed. Qed.

Lemma validatedData_idempotent_witness :
  exists out,
    validatedData "2024-01-01T00:00:00.000Z" sparse = Returned out
    /\ validatedData "2025-06-30T12:00:00.000Z" out = Returned out.
Proof.
  assert (Hout : exists out,
            validatedData "2024-01-01T00:00:00.000Z" sparse = Returned out)
    by (eexists; vm_compute; reflexivity).
  destruct Hout as [out Hout]. exists out. split; [exact Hout |].
  apply (validatedData_idempotent "2024-01-01T00:00:00.000Z" _ sparse out);
    [discriminate | exact Hout].
Defined.

End ReportProperties.

(* ================================================================== *)
(** * Part IV. Rounding *)
(* ================================================================== *)

(** The operations of binary64 round their exact result to 53 significant
    digits.  This part bounds the error of each operation the risk score
    and the similarity use, and with it compares the risk score with its
    reference definition and the similarity of a stored vector with 1. *)

(** ** One rounding *)

Module Binary64RoundingFacts.
Import Binary64Terms Binary64Facts Binary64Order.

Lemma digits2_pos_unique (p : positive) (d : Z) :
  2 ^ (d - 1) <= Z.pos p < 2 ^ d -> Z.pos (digits2_pos p) = d.
Proof.
  intros [Hlo Hhi]. pose proof (digits2_pos_bound p) as [Dlo Dhi].
  set (D := Z.pos (digits2_pos p)) in *.
  assert (HD : 1 <= D) by (subst D; lia).
  assert (Hd : 1 <= d).
  { destruct (Z.le_gt_cases 1 d) as [|Hgt]; [assumption |].
    exfalso. destruct (Z.eq_dec d 0) as [-> | Hne]; [simpl in Hhi; lia |].
    rewrite (Z.pow_neg_r 2 d) in Hhi by lia. lia. }
  destruct (Z.lt_trichotomy D d) as [Hlt | [Heq | Hgt]]; [| exact Heq |].
  - exfalso. assert (2 ^ D <= 2 ^ (d - 1)) by (apply Z.pow_le_mono_r; lia). lia.
  - exfalso. assert (2 ^ d <= 2 ^ (D - 1)) by (apply Z.pow_le_mono_r; lia). lia.
Qed.

(** The first 53 digits of a mantissa of [53 + k] digits. *)
Lemma leading_digits (p : positive) (k : Z) :
  0 <= k -> Z.pos (digits2_pos p) = 53 + k ->
  2 ^ 52 <= Z.pos p / 2 ^ k < 2 ^ 53.
Proof.
  intros Hk Hd. pose proof (digits2_pos_bound p) as [Dlo Dhi].
  rewrite Hd in Dlo, Dhi.
  replace (53 + k - 1) with (52 + k) in Dlo by lia.
  rewrite Z.pow_add_r in Dlo, Dhi by lia.
  assert (Hp : 0 < 2 ^ k) by (apply Z.pow_pos_nonneg; lia).
  split.
  - apply Z.div_le_lower_bound; [exact Hp | lia].
  - apply Z.div_lt_upper_bound; [exact Hp | lia].
Qed.

Lemma round_nearest_even_next (m : Z) (l : location) :
  round_nearest_even m l = m \/ round_nearest_even m l = m + 1.
Proof.
  destruct l as [|[| |]]; simpl; try destruct (Z.even m); auto.
Qed.

(** Rounding a mantissa of at least 53 digits, in the normal range: the
    result is finite and normal, and its mantissa is the leading 53 digits
    or one more. *)
Lemma binary_round_aux_ulp (p : positive) (e : Z) (l : location) (k : Z) :
  Z.pos (digits2_pos p) = 53 + k ->
  0 <= k -> -1074 <= e + k -> e + k < 971 ->
  exists m' e',
    binary_round_aux prec emax false (Z.pos p) e l = S754_finite false m' e'
    /\ 2 ^ 52 <= Z.pos m' < 2 ^ 53
    /\ e + k <= e' <= e + k + 1
    /\ (Z.pos m' * 2 ^ (e' - (e + k)) = Z.pos p / 2 ^ k
        \/ Z.pos m' * 2 ^ (e' - (e + k)) = Z.pos p / 2 ^ k + 1).
Proof.
  intros Hd Hk Hlo Hhi.
  pose proof (leading_digits p k Hk Hd) as Hmk.
  set (mk := Z.pos p / 2 ^ k) in *.
  unfold binary_round_aux.
  assert (H1 : exists r, shr_fexp prec emax (Z.pos p) e l = (r, e + k)
                         /\ shr_m r = mk).
  { unfold shr_fexp, Zdigits2.
    assert (Hf : fexp prec emax (Z.pos (digits2_pos p) + e) - e = k).
    { unfold fexp, emin. change prec with 53. change emax with 1024. lia. }
    rewrite Hf. unfold shr. destruct k as [|kk|kk]; try lia.
    - eexists. split; [f_equal; lia |].
      rewrite shr_record_of_loc_m. subst mk. rewrite Z.pow_0_r, Z.div_1_r.
      reflexivity.
    - eexists. split; [reflexivity |].
      rewrite shr_iter_divides by (rewrite shr_record_of_loc_m; lia).
      rewrite shr_record_of_loc_m. reflexivity. }
  destruct H1 as [r [-> Hr]]. rewrite Hr.
  set (mr := round_nearest_even mk (loc_of_shr_record r)).
  assert (Hmr : mr = mk \/ mr = mk + 1) by apply round_nearest_even_next.
  assert (Hcase : mr < 2 ^ 53 \/ mr = 2 ^ 53) by lia.
  destruct Hcase as [Hsmall | Hbig].
  - assert (Hpos : 0 < mr) by lia.
    destruct mr as [|q|q] eqn:Hq; try lia.
    assert (Hdq : Z.pos (digits2_pos q) = 53)
      by (apply digits2_pos_unique; change (53 - 1) with 52; lia).
    unfold shr_fexp, Zdigits2. rewrite Hdq.
    assert (Hf : fexp prec emax (53 + (e + k)) - (e + k) = 0).
    { unfold fexp, emin. change prec with 53. change emax with 1024. lia. }
    rewrite Hf. cbn [shr shr_record_of_loc shr_m].
    change (emax - prec) with 971.
    destruct (Z.leb_spec (e + k) 971) as [_ | Hbad]; [| lia].
    exists q, (e + k). split; [reflexivity |]. split; [lia |].
    split; [lia |]. rewrite Z.sub_diag, Z.pow_0_r, Z.mul_1_r. lia.
  - rewrite Hbig.
    change (2 ^ 53) with (Z.pos 9007199254740992).
    unfold shr_fexp, Zdigits2.
    change (Z.pos (digits2_pos 9007199254740992)) with 54.
    assert (Hf : fexp prec emax (54 + (e + k)) - (e + k) = 1).
    { unfold fexp, emin. change prec with 53. change emax with 1024. lia. }
    rewrite Hf.
    change (shr (shr_record_of_loc (Z.pos 9007199254740992) loc_Exact)
              (e + k) 1)
      with ({| shr_m := Z.pos 4503599627370496; shr_r := false;
               shr_s := false |}, e + k + 1).
    cbn [shr_m]. change (emax - prec) with 971.
    destruct (Z.leb_spec (e + k + 1) 971) as [_ | Hbad]; [| lia].
    exists 4503599627370496%positive, (e + k + 1).
    split; [reflexivity |]. split; [split; [reflexivity | reflexivity] |].
    split; [lia |]. right.
    replace (e + k + 1 - (e + k)) with 1 by lia.
    change (Z.pos 4503599627370496 * 2 ^ 1) with (2 ^ 53). lia.
Qed.

End Binary64RoundingFacts.

(** ** The value of a rounded result *)

Module Binary64ValueFacts.
Import Binary64Terms Binary64Facts Binary64Order Binary64RoundingFacts
       Binary64Value.

Lemma bpow_pos (e : Z) : (0 < bpow e)%R.
Proof. apply powerRZ_lt. lra. Qed.

Lemma bpow_add (a b : Z) : bpow (a + b) = (bpow a * bpow b)%R.
Proof. apply powerRZ_add. lra. Qed.

Lemma bpow_IZR (k : Z) : 0 <= k -> bpow k = IZR (2 ^ k).
Proof.
  intros Hk. destruct k as [|p|p]; try lia; [reflexivity |].
  symmetry. apply (Zpower_pos_powerRZ 2 p).
Qed.

Lemma bpow_le (a b : Z) : a <= b -> (bpow a <= bpow b)%R.
Proof.
  intros Hab. replace b with (a + (b - a)) by lia. rewrite bpow_add.
  pose proof (bpow_pos a).
  assert (1 <= bpow (b - a))%R.
  { rewrite bpow_IZR by lia. apply IZR_le.
    assert (0 < 2 ^ (b - a)) by (apply Z.pow_pos_nonneg; lia). lia. }
  nra.
Qed.

Lemma bpow_lt (a b : Z) : a < b -> (bpow a < bpow b)%R.
Proof.
  intros Hab. replace b with (a + 1 + (b - a - 1)) by lia.
  rewrite !bpow_add. pose proof (bpow_pos a).
  assert (1 <= bpow (b - a - 1))%R.
  { rewrite bpow_IZR by lia. apply IZR_le.
    assert (0 < 2 ^ (b - a - 1)) by (apply Z.pow_pos_nonneg; lia). lia. }
  assert (bpow 1 = 2)%R by (unfold bpow; simpl; lra). nra.
Qed.

Lemma bpow_lt_inv (a b : Z) : (bpow a < bpow b)%R -> a < b.
Proof.
  intros Hlt. destruct (Z.lt_ge_cases a b) as [|Hge]; [assumption |].
  pose proof (bpow_le b a ltac:(lia)). lra.
Qed.

Lemma value_pos (m : positive) (e : Z) : (0 < value m e)%R.
Proof.
  unfold value. apply Rmult_lt_0_compat; [apply IZR_lt; lia | apply bpow_pos].
Qed.

(** A normal number lies in the binade of its exponent. *)
Lemma value_binade (m : positive) (e : Z) :
  2 ^ 52 <= Z.pos m < 2 ^ 53 ->
  (bpow (52 + e) <= value m e < bpow (53 + e))%R.
Proof.
  intros [Hlo Hhi]. unfold value. rewrite !bpow_add.
  rewrite (bpow_IZR 52), (bpow_IZR 53) by lia.
  pose proof (bpow_pos e). apply IZR_le in Hlo. apply IZR_lt in Hhi.
  split; nra.
Qed.

(** The exponent of a normal number, from bounds on its value. *)
Lemma value_exponent (m : positive) (e a b : Z) :
  2 ^ 52 <= Z.pos m < 2 ^ 53 ->
  (bpow a <= value m e)%R -> (value m e <= bpow b)%R ->
  a - 53 < e <= b - 52.
Proof.
  intros Hm Ha Hb. pose proof (value_binade m e Hm) as [Hlo Hhi]. split.
  - assert (a < 53 + e) by (apply bpow_lt_inv; lra). lia.
  - destruct (Z.le_gt_cases e (b - 52)) as [|Hgt]; [assumption |].
    pose proof (bpow_lt b (52 + e) ltac:(lia)). lra.
Qed.

(** One rounding: the exact value lies between the mantissa and its
    successor at the exponent given; the result is normal and within one
    unit in the last place. *)
Lemma round_near (p : positive) (e : Z) (l : location) (k : Z) (x : R) :
  Z.pos (digits2_pos p) = 53 + k ->
  0 <= k -> -1074 <= e + k -> e + k < 971 ->
  (IZR (Z.pos p) * bpow e <= x <= (IZR (Z.pos p) + 1) * bpow e)%R ->
  exists m' e',
    binary_round_aux prec emax false (Z.pos p) e l = S754_finite false m' e'
    /\ 2 ^ 52 <= Z.pos m' < 2 ^ 53
    /\ e + k <= e' <= e + k + 1
    /\ near (value m' e') x.
Proof.
  intros Hd Hk Hlo Hhi Hx.
  destruct (binary_round_aux_ulp p e l k Hd Hk Hlo Hhi)
    as [m' [e' [Hr [Hm' [He' Hv]]]]].
  exists m', e'. split; [exact Hr |]. split; [exact Hm' |].
  split; [exact He' |].
  set (mk := Z.pos p / 2 ^ k) in *.
  set (c := bpow (e + k)).
  assert (Hc : (0 < c)%R) by apply bpow_pos.
  (* the value of the result *)
  assert (Hval : value m' e' = (IZR (Z.pos m' * 2 ^ (e' - (e + k))) * c)%R).
  { unfold value, c. replace e' with ((e' - (e + k)) + (e + k)) at 1 by lia.
    rewrite bpow_add, (bpow_IZR (e' - (e + k))) by lia.
    rewrite mult_IZR. ring. }
  (* the exact value, in units of the last place *)
  assert (Hp : Z.pos p = mk * 2 ^ k + Z.pos p mod 2 ^ k).
  { subst mk. rewrite Z.mul_comm. apply Z.div_mod.
    assert (0 < 2 ^ k) by (apply Z.pow_pos_nonneg; lia). lia. }
  assert (Hrem : 0 <= Z.pos p mod 2 ^ k < 2 ^ k)
    by (apply Z.mod_pos_bound, Z.pow_pos_nonneg; lia).
  clearbody mk. set (rem := Z.pos p mod 2 ^ k) in *. clearbody rem.
  assert (Hpk : (IZR mk * bpow k <= IZR (Z.pos p)
                 /\ IZR (Z.pos p) + 1 <= (IZR mk + 1) * bpow k)%R).
  { rewrite (bpow_IZR k Hk).
    assert (H1 : mk * 2 ^ k <= Z.pos p) by lia.
    assert (H2 : Z.pos p + 1 <= (mk + 1) * 2 ^ k) by lia.
    apply IZR_le in H1, H2.
    rewrite mult_IZR in H1. rewrite plus_IZR, mult_IZR, plus_IZR in H2.
    split; assumption. }
  assert (Hxc : (IZR mk * c <= x <= (IZR mk + 1) * c)%R).
  { unfold c. rewrite (Z.add_comm e k), bpow_add.
    pose proof (bpow_pos e). destruct Hpk, Hx. split; nra. }
  (* one unit in the last place is at most 2^-52 of the result *)
  assert (Hu : (c <= value m' e' * ulp_error)%R).
  { pose proof (value_binade m' e' Hm') as [Hb _].
    unfold ulp_error.
    assert (bpow (52 + e') * bpow (-52) = bpow e')%R
      by (rewrite <- bpow_add; f_equal; lia).
    pose proof (bpow_le (e + k) e' ltac:(lia)).
    pose proof (bpow_pos (-52)). fold c in H0. nra. }
  unfold near. rewrite Hval in *.
  destruct Hv as [Hv | Hv]; rewrite Hv in *; rewrite ?plus_IZR in *;
    apply Rabs_le; lra.
Qed.

End Binary64ValueFacts.

(** ** Product and quotient *)

Module Binary64OpsFacts.
Import Binary64Terms Binary64Facts Binary64Order Binary64RoundingFacts
       Binary64Value Binary64ValueFacts Binary64Number.

Lemma safe_exponent (m : positive) (e : Z) :
  2 ^ 52 <= Z.pos m < 2 ^ 53 -> safe (value m e) -> -553 < e <= 448.
Proof.
  intros Hm [Hlo Hhi]. pose proof (value_exponent m e (-500) 500 Hm Hlo Hhi).
  lia.
Qed.

(** The digits of a number between two powers of two. *)
Lemma digits2_pos_between (p : positive) (a b : Z) :
  2 ^ a <= Z.pos p < 2 ^ b -> 0 <= a ->
  a < Z.pos (digits2_pos p) <= b.
Proof.
  intros [Hlo Hhi] Ha. pose proof (digits2_pos_bound p) as [Dlo Dhi].
  set (D := Z.pos (digits2_pos p)) in *.
  assert (HD : 1 <= D) by (subst D; lia).
  split.
  - destruct (Z.lt_ge_cases a D) as [|Hge]; [assumption |].
    exfalso. assert (2 ^ D <= 2 ^ a) by (apply Z.pow_le_mono_r; lia). lia.
  - destruct (Z.le_gt_cases D b) as [|Hgt]; [assumption |].
    exfalso.
    assert (0 <= b).
    { destruct (Z.le_gt_cases 0 b) as [|Hneg]; [assumption |].
      rewrite (Z.pow_neg_r 2 b) in Hhi by lia. lia. }
    assert (2 ^ b <= 2 ^ (D - 1)) by (apply Z.pow_le_mono_r; lia). lia.
Qed.

(** *** Multiplication *)

Lemma mul_num (x y : float) (a b : R) :
  num x a -> num y b -> safe a -> safe b ->
  exists c, num (x * y) c /\ near c (a * b).
Proof.
  intros [mx [ex [[Hx Hmx] Ha]]] [my [ey [[Hy Hmy] Hb]]] Sa Sb.
  subst a b.
  pose proof (safe_exponent mx ex Hmx Sa) as Hex.
  pose proof (safe_exponent my ey Hmy Sb) as Hey.
  assert (Hprod : 2 ^ 104 <= Z.pos (mx * my) < 2 ^ 106).
  { rewrite Pos2Z.inj_mul.
    change (2 ^ 104) with (2 ^ 52 * 2 ^ 52).
    change (2 ^ 106) with (2 ^ 53 * 2 ^ 53). split.
    - apply Z.mul_le_mono_nonneg; lia.
    - apply Z.mul_lt_mono_nonneg; lia. }
  pose proof (digits2_pos_between (mx * my) 104 106 Hprod ltac:(lia)) as Hd.
  set (k := Z.pos (digits2_pos (mx * my)) - 53).
  destruct (round_near (mx * my) (ex + ey) loc_Exact k
              (value mx ex * value my ey))
    as [m [e [Hr [Hm [_ Hnear]]]]]; try (subst k; lia).
  { unfold value. rewrite Pos2Z.inj_mul, mult_IZR, bpow_add.
    pose proof (bpow_pos ex). pose proof (bpow_pos ey).
    assert (0 < IZR (Z.pos mx))%R by (apply IZR_lt; lia).
    assert (0 < IZR (Z.pos my))%R by (apply IZR_lt; lia).
    split; nra. }
  exists (value m e). split; [| exact Hnear].
  exists m, e. split; [| reflexivity]. split; [| exact Hm].
  rewrite FloatAxioms.mul_spec, Hx, Hy. exact Hr.
Qed.

(** *** Division *)

Lemma div_num (x y : float) (a b : R) :
  num x a -> num y b -> safe a -> safe b ->
  exists c, num (x / y) c /\ near c (a / b).
Proof.
  intros [mx [ex [[Hx Hmx] Ha]]] [my [ey [[Hy Hmy] Hb]]] Sa Sb.
  subst a b.
  pose proof (safe_exponent mx ex Hmx Sa) as Hex.
  pose proof (safe_exponent my ey Hmy Sb) as Hey.
  assert (Hdx : Z.pos (digits2_pos mx) = 53)
    by (apply digits2_pos_unique; change (53 - 1) with 52; lia).
  assert (Hdy : Z.pos (digits2_pos my) = 53)
    by (apply digits2_pos_unique; change (53 - 1) with 52; lia).
  (* the quotient of the mantissas *)
  set (q := (Z.pos mx * 2 ^ 53) / Z.pos my).
  set (r := (Z.pos mx * 2 ^ 53) mod Z.pos my).
  assert (Hqr : Z.pos mx * 2 ^ 53 = Z.pos my * q + r /\ 0 <= r < Z.pos my).
  { subst q r. split; [apply Z.div_mod; lia | apply Z.mod_pos_bound; lia]. }
  assert (Hq : 2 ^ 52 <= q < 2 ^ 54).
  { destruct Hqr as [Heq Hr]. split.
    - apply Z.div_le_lower_bound; [lia |].
      change (2 ^ 53) with (2 * 2 ^ 52). nia.
    - apply Z.div_lt_upper_bound; [lia |].
      change (2 ^ 54) with (2 * 2 ^ 53). nia. }
  assert (Hcore : SFdiv_core_binary prec emax (Z.pos mx) ex (Z.pos my) ey
                  = (q, ex - ey - 53, new_location (Z.pos my) r)).
  { unfold SFdiv_core_binary, Zdigits2. rewrite Hdx, Hdy.
    assert (He : Z.min (fexp prec emax (53 + ex - (53 + ey))) (ex - ey)
                 = ex - ey - 53).
    { unfold fexp, emin. change prec with 53. change emax with 1024. lia. }
    rewrite He. replace (ex - ey - (ex - ey - 53)) with 53 by lia.
    rewrite Z.shiftl_mul_pow2 by lia.
    unfold q, r, Z.div, Z.modulo.
    destruct (Z.div_eucl (Z.pos mx * 2 ^ 53) (Z.pos my)); reflexivity. }
  destruct q as [|pq|pq] eqn:Eq; try lia.
  pose proof (digits2_pos_between pq 52 54 Hq ltac:(lia)) as Hd.
  set (k := Z.pos (digits2_pos pq) - 53).
  destruct (round_near pq (ex - ey - 53) (new_location (Z.pos my) r) k
              (value mx ex / value my ey))
    as [m [e [Hr [Hm [_ Hnear]]]]]; try (subst k; lia).
  { destruct Hqr as [Heq Hrem].
    assert (Hv : (value mx ex / value my ey
                  = IZR (Z.pos mx * 2 ^ 53) / IZR (Z.pos my)
                    * bpow (ex - ey - 53))%R).
    { unfold value. rewrite mult_IZR, <- (bpow_IZR 53) by lia.
      replace ex with ((ex - ey - 53) + 53 + ey) at 1 by lia.
      rewrite !bpow_add.
      pose proof (bpow_pos ey). pose proof (bpow_pos 53).
      assert (0 < IZR (Z.pos my))%R by (apply IZR_lt; lia).
      field. split; lra. }
    rewrite Hv. pose proof (bpow_pos (ex - ey - 53)) as Hb.
    assert (Hy0 : (0 < IZR (Z.pos my))%R) by (apply IZR_lt; lia).
    assert (Hquot : (IZR (Z.pos pq) <= IZR (Z.pos mx * 2 ^ 53) / IZR (Z.pos my)
                     <= IZR (Z.pos pq) + 1)%R).
    { rewrite Heq, plus_IZR, mult_IZR.
      assert (0 <= IZR r < IZR (Z.pos my))%R
        by (split; [apply IZR_le | apply IZR_lt]; lia).
      split.
      - apply Rmult_le_reg_r with (IZR (Z.pos my)); [exact Hy0 |].
        unfold Rdiv. rewrite Rmult_assoc, Rinv_l by lra. lra.
      - apply Rmult_le_reg_r with (IZR (Z.pos my)); [exact Hy0 |].
        unfold Rdiv. rewrite Rmult_assoc, Rinv_l by lra. lra. }
    destruct Hquot. split; nra. }
  exists (value m e). split; [| exact Hnear].
  exists m, e. split; [| reflexivity]. split; [| exact Hm].
  rewrite FloatAxioms.div_spec, Hx, Hy. unfold SF64div, SFdiv. rewrite Hcore.
  exact Hr.
Qed.

End Binary64OpsFacts.

(** ** Square root and sum *)

Module Binary64SqrtAddFacts.
Import Binary64Terms Binary64Facts Binary64Order Binary64RoundingFacts
       Binary64Value Binary64ValueFacts Binary64Number Binary64OpsFacts.

(** *** Square root *)


(** *** Addition of two positive numbers *)


End Binary64SqrtAddFacts.

(** ** Numbers far from overflow *)

Module Binary64NumberFacts.
Import Binary64Terms Binary64Facts Binary64Order Binary64RoundingFacts
       Binary64Value Binary64ValueFacts Binary64Number Binary64OpsFacts
       Binary64SqrtAddFacts Binary64SignFacts.

Lemma ulp_error_value : ulp_error = (/ 4503599627370496)%R.
Proof.
  unfold ulp_error.
  assert (H : (bpow (-52) * bpow 52 = 1)%R)
    by (rewrite <- bpow_add; reflexivity).
  rewrite (bpow_IZR 52) in H by lia.
  change (2 ^ 52) with 4503599627370496 in H.
  apply Rmult_eq_reg_r with 4503599627370496%R; [| lra].
  rewrite H. field.
Qed.

(** What being within one unit in the last place says. *)
Lemma near_bounds (c x : R) :
  near c x -> (c * (1 - ulp_error) <= x <= c * (1 + ulp_error))%R.
Proof.
  unfold near. intros H.
  unfold Rabs in H. destruct (Rcase_abs (c - x)); lra.
Qed.

Lemma safe_between (r : R) : (bpow (-60) <= r <= bpow 60)%R -> safe r.
Proof.
  intros [Hlo Hhi]. unfold safe.
  pose proof (bpow_le (-500) (-60) ltac:(lia)).
  pose proof (bpow_le 60 500 ltac:(lia)). lra.
Qed.

Lemma bpow_60 : bpow 60 = 1152921504606846976%R.
Proof. rewrite bpow_IZR by lia. reflexivity. Qed.

Lemma bpow_neg_60 : bpow (-60) = (/ 1152921504606846976)%R.
Proof.
  assert (H : (bpow (-60) * bpow 60 = 1)%R)
    by (rewrite <- bpow_add; reflexivity).
  rewrite bpow_60 in H.
  apply Rmult_eq_reg_r with 1152921504606846976%R; [| lra].
  rewrite H. field.
Qed.

(** Between 2^-60 and 2^60, in decimal. *)
Lemma safe_decimal (r : R) :
  (/ 1152921504606846976 <= r <= 1152921504606846976)%R -> safe r.
Proof.
  intros H. apply safe_between. rewrite bpow_60, bpow_neg_60. exact H.
Qed.

(** A positive integer below 2^53 is the number it denotes. *)
Lemma num_of_Z (z : Z) : 0 < z < 2 ^ 53 -> num (JS.of_Z z) (IZR z).
Proof.
  intros Hz. destruct (of_Z_value z Hz) as [m [e [Hm [He [Hv Hn]]]]].
  exists m, e. split; [split; assumption |].
  unfold value. rewrite Hv, mult_IZR, <- bpow_IZR by lia.
  rewrite Rmult_assoc, <- bpow_add.
  replace (- e + e) with 0 by lia. change (bpow 0) with 1%R. ring.
Qed.

Lemma num_pos (x : float) (r : R) : num x r -> (0 < r)%R.
Proof. intros [m [e [_ <-]]]. apply value_pos. Qed.

End Binary64NumberFacts.

(** ** The risk score: rounding the scaled ratio *)

Module RiskScoreRoundingFacts.
Import JS Binary64Terms Binary64Facts Binary64Order Binary64RoundingFacts
       Binary64Value Binary64ValueFacts Binary64Number Binary64OpsFacts
       Binary64SqrtAddFacts Binary64SignFacts Binary64NumberFacts.

(** [Math.round] of a positive normal number below 2^52: the floor of its
    value plus one half. *)
Lemma Math_round_floor (x : float) (c : R) (K : Z) :
  num x c -> (1 <= c <= 200)%R ->
  (IZR K <= c + / 2 < IZR K + 1)%R ->
  Math_round x = of_Z K.
Proof.
  intros [m [e [[Hx Hm] Hc]]] Hrange HK. subst c.
  assert (He : -53 < e <= -44).
  { assert (H0 : (bpow 0 <= value m e)%R) by exact (proj1 Hrange).
    assert (H8 : (value m e <= bpow 8)%R).
    { rewrite (bpow_IZR 8) by lia. change (2 ^ 8) with 256. lra. }
    pose proof (value_exponent m e 0 8 Hm H0 H8). lia. }
  unfold Math_round. rewrite Hx.
  destruct (Z.leb_spec 0 e) as [Hbad | _]; [lia |].
  set (d := 2 ^ (- e)).
  assert (Hd : 0 < d) by (apply Z.pow_pos_nonneg; lia).
  set (c := value m e) in *.
  assert (Hcd : (c * IZR d = IZR (Z.pos m))%R).
  { unfold c, value, d. rewrite <- bpow_IZR by lia.
    rewrite Rmult_assoc, <- bpow_add. replace (e + - e) with 0 by lia.
    change (bpow 0) with 1%R. ring. }
  assert (Hdr : (0 < IZR d)%R) by (apply IZR_lt; exact Hd).
  assert (Hq : (2 * Z.pos m + d) / (2 * d) = K).
  { symmetry. apply Z.div_unique with (2 * Z.pos m + d - 2 * d * K); [| lia].
    left. destruct HK as [Hlo Hhi].
    assert (H1 : (IZR (2 * d * K) <= IZR (2 * Z.pos m + d))%R).
    { rewrite plus_IZR, !mult_IZR, <- Hcd. nra. }
    assert (H2 : (IZR (2 * Z.pos m + d) < IZR (2 * d * (K + 1)))%R).
    { rewrite !plus_IZR, !mult_IZR, plus_IZR, <- Hcd. nra. }
    apply le_IZR in H1. apply lt_IZR in H2. lia. }
  rewrite Hq.
  assert (HKpos : 0 < K).
  { apply lt_IZR. destruct HK. lra. }
  destruct (Z.eqb_spec K 0); [lia | reflexivity].
Qed.

Lemma num_100 : num 100%float 100%R.
Proof.
  exists 7036874417766400%positive, (-46). split; [split |].
  - reflexivity.
  - split; [vm_compute; discriminate | reflexivity].
  - unfold value.
    assert (H : (bpow (-46) * bpow 46 = 1)%R)
      by (rewrite <- bpow_add; reflexivity).
    rewrite (bpow_IZR 46) in H by lia.
    change (2 ^ 46) with 70368744177664 in H. nra.
Qed.

(** The quotient and the product of [calculateRiskScore], rounded twice:
    within 303 units in the last place of 1 of the exact value. *)
Lemma scaled_ratio_near (raw n : Z) :
  0 < n < 2 ^ 32 -> n <= raw <= 10 * n ->
  exists c,
    num (of_Z raw / of_Z (n * 10) * 100)%float c
    /\ (Rabs (c - IZR raw / IZR (n * 10) * 100) <= 303 * ulp_error)%R
    /\ (1 <= c <= 200)%R.
Proof.
  intros Hn Hraw.
  assert (H53 : 10 * 2 ^ 32 < 2 ^ 53) by reflexivity.
  pose proof (num_of_Z raw ltac:(lia)) as Na.
  pose proof (num_of_Z (n * 10) ltac:(lia)) as Nb.
  assert (Ha : (1 <= IZR raw <= 42949672960)%R)
    by (split; apply IZR_le; lia).
  assert (Hb : (10 <= IZR (n * 10) <= 42949672960)%R)
    by (split; apply IZR_le; lia).
  assert (Hab : (IZR (n * 10) <= 10 * IZR raw /\ IZR raw <= IZR (n * 10))%R).
  { split; [rewrite <- mult_IZR |]; apply IZR_le; lia. }
  set (a := IZR raw) in *. set (b := IZR (n * 10)) in *.
  destruct (div_num _ _ a b Na Nb) as [cq [Nq Hq]];
    try (apply safe_decimal; lra).
  apply near_bounds in Hq. rewrite ulp_error_value in *.
  pose proof (num_pos _ _ Nq) as Hcq.
  assert (Hx0 : (/ 10 <= a / b <= 1)%R).
  { assert (0 < b)%R by lra. split.
    - apply Rmult_le_reg_r with b; [lra |].
      unfold Rdiv. rewrite Rmult_assoc, Rinv_l by lra. lra.
    - apply Rmult_le_reg_r with b; [lra |].
      unfold Rdiv. rewrite Rmult_assoc, Rinv_l by lra. lra. }
  set (x0 := (a / b)%R) in *.
  assert (Hcq' : (/ 20 <= cq <= 2)%R) by (split; nra).
  destruct (mul_num _ _ cq 100%R Nq num_100) as [cp [Np Hp]];
    try (apply safe_decimal; lra).
  apply near_bounds in Hp. rewrite ulp_error_value in *.
  pose proof (num_pos _ _ Np) as Hcp.
  exists cp. split; [exact Np |].
  assert (Hcp' : (1 <= cp <= 200)%R) by (split; nra).
  split; [| exact Hcp'].
  apply Rabs_le. split; nra.
Qed.

End RiskScoreRoundingFacts.

(** ** The risk score against exact arithmetic *)

Module RiskScoreExactFacts.
Import JS Scanner ScannerTerms RiskScoreFacts ScoreReference
       Binary64Terms Binary64Facts Binary64Order
       Binary64Value Binary64ValueFacts Binary64Number
       Binary64SignFacts Binary64NumberFacts RiskScoreRoundingFacts.


(** The score of a raw total [raw] over [n] violations: the exact value,
    or one less when the exact value is a tie. *)
Lemma score_rounding (raw n : Z) :
  0 < n < 2 ^ 32 -> n <= raw <= 10 * n ->
  let norm := n * 10 in
  let K := (200 * raw + norm) / (2 * norm) in
  let score := Math_min (Math_round (of_Z raw / of_Z norm * 100)%float) 100 in
  10 <= K <= 100
  /\ ((200 * raw + norm) mod (2 * norm) <> 0 -> score = of_Z K)
  /\ (score = of_Z K \/ score = of_Z (K - 1)).
Proof.
  intros Hn Hraw norm K score.
  set (NN := 200 * raw + norm) in *. set (DD := 2 * norm) in *.
  assert (HDD : 0 < DD) by (subst DD norm; lia).
  assert (Hdm : NN = DD * K + NN mod DD) by (apply Z.div_mod; lia).
  assert (Hrem : 0 <= NN mod DD < DD) by (apply Z.mod_pos_bound; lia).
  set (R := NN mod DD) in *.
  assert (HK : 10 <= K <= 100).
  { subst K. split.
    - apply Z.div_le_lower_bound; [lia | subst NN DD norm; lia].
    - assert (NN / DD < 101); [| lia].
      apply Z.div_lt_upper_bound; [lia | subst NN DD norm; lia]. }
  split; [exact HK |].
  destruct (scaled_ratio_near raw n Hn Hraw) as [c [Nc [Hc Hrange]]].
  fold norm in Nc, Hc.
  rewrite ulp_error_value in Hc.
  (* the exact value plus one half *)
  assert (Hnorm : (0 < IZR norm)%R) by (apply IZR_lt; subst norm; lia).
  assert (HDDr : (0 < IZR DD <= 858993459200)%R).
  { split; [apply IZR_lt; lia | apply IZR_le; subst DD norm; lia]. }
  assert (Hexact : ((IZR raw / IZR norm * 100 + / 2) * IZR DD
                    = IZR K * IZR DD + IZR R)%R).
  { rewrite <- mult_IZR, <- plus_IZR, (Z.mul_comm K DD), <- Hdm.
    subst NN DD. rewrite !plus_IZR, !mult_IZR. field. lra. }
  set (X := (IZR raw / IZR norm * 100)%R) in *.
  assert (Hc' : (- (303 * / 4503599627370496) <= c - X
                 <= 303 * / 4503599627370496)%R)
    by (unfold Rabs in Hc; destruct (Rcase_abs (c - X)); lra).
  clear Hc.
  assert (Hround : forall k : Z,
            (IZR k <= c + / 2 < IZR k + 1)%R -> 0 <= k <= 100 ->
            score = of_Z k).
  { intros k Hk Hk100. subst score.
    rewrite (Math_round_floor _ c k Nc Hrange Hk).
    apply min_percentage. exact Hk100. }
  assert (HR : (0 <= IZR R <= IZR DD - 1)%R).
  { split; [apply IZR_le; lia |].
    rewrite <- minus_IZR. apply IZR_le. lia. }
  split.
  - intros Hne. apply Hround; [| lia].
    assert (HR1 : (1 <= IZR R)%R) by (apply IZR_le; lia).
    split; nra.
  - destruct (Z.eq_dec R 0) as [HR0 | Hne].
    + rewrite HR0 in Hexact.
      destruct (Rle_dec (IZR K) (c + / 2)) as [Hup | Hdown].
      * left. apply Hround; [| lia]. split; [exact Hup | nra].
      * right. apply Hround; [| lia]. rewrite minus_IZR. split; nra.
    + left. apply Hround; [| lia].
      assert (HR1 : (1 <= IZR R)%R) by (apply IZR_le; lia).
      split; nra.
Qed.

End RiskScoreExactFacts.

(** ** The risk score of a list *)

Module RiskScoreListFacts.
Import JS Scanner ScannerTerms RiskScoreFacts ScoreReference
       Binary64SignFacts RiskScoreExactFacts.

Lemma weights_bounds (vs : list Severity) :
  Z.of_nat (length vs) <= weights vs <= 10 * Z.of_nat (length vs).
Proof.
  unfold weights. induction vs as [|s vs IH]; [simpl; lia |].
  cbn [map foldr length]. pose proof (weight_positive s).
  rewrite Nat2Z.inj_succ. lia.
Qed.

(** The score of a non-empty list, as [calculateRiskScore] computes it. *)
Lemma calculateRiskScore_names (vs : list Severity) :
  vs <> [] ->
  calculateRiskScore (names vs)
  = Math_min (Math_round (of_Z (weights vs)
                          / of_Z (Z.of_nat (length vs) * 10) * 100)%float) 100.
Proof.
  intros Hne. unfold calculateRiskScore. rewrite rawScore_names.
  unfold names. rewrite length_map.
  destruct (Z.ltb_spec 0 (Z.of_nat (length vs) * 10)) as [_ | Hle];
    [reflexivity |].
  destruct vs; [congruence | simpl length in Hle; lia].
Qed.




(** *** Adding a violation *)

(** Whole numbers from 0 to 100 compare as numbers the way they compare as
    integers. *)
Lemma leb_percentages (s s' : Z) :
  0 <= s <= s' -> s' <= 100 -> PrimFloat.leb (of_Z s) (of_Z s') = true.
Proof.
  intros Hs Hs'.
  assert (Hall : forallb (fun a => forallb (fun b =>
                     if a <=? b then PrimFloat.leb (of_Z a) (of_Z b) else true)
                   Binary64Sign.percentages) Binary64Sign.percentages = true)
    by (vm_compute; reflexivity).
  rewrite forallb_forall in Hall.
  specialize (Hall s ltac:(apply list_elem_of_In, percentage_elem; lia)).
  rewrite forallb_forall in Hall.
  specialize (Hall s' ltac:(apply list_elem_of_In, percentage_elem; lia)).
  cbv beta in Hall.
  destruct (Z.leb_spec s s'); [exact Hall | lia].
Qed.

(** The exact scores before and after a violation that weighs at least the
    average is added, and their remainders. *)
Lemma exact_scores_ordered (raw n w : Z) :
  0 < n -> n <= raw <= 10 * n -> 1 <= w <= 10 -> raw <= w * n ->
  let K := (200 * raw + n * 10) / (2 * (n * 10)) in
  let K' := (200 * (raw + w) + (n + 1) * 10) / (2 * ((n + 1) * 10)) in
  K <= K'
  /\ ((200 * (raw + w) + (n + 1) * 10) mod (2 * ((n + 1) * 10)) = 0 ->
      K < K').
Proof.
  intros Hn Hraw Hw Havg K K'.
  set (NN := 200 * raw + n * 10) in *. set (DD := 2 * (n * 10)) in *.
  set (NN' := 200 * (raw + w) + (n + 1) * 10) in *.
  set (DD' := 2 * ((n + 1) * 10)) in *.
  assert (HK : DD * K <= NN < DD * (K + 1)).
  { pose proof (Z.div_mod NN DD ltac:(subst DD; lia)) as Hdm.
    pose proof (Z.mod_pos_bound NN DD ltac:(subst DD; lia)) as Hr.
    fold K in Hdm. lia. }
  assert (HK' : DD' * K' <= NN' < DD' * (K' + 1)).
  { pose proof (Z.div_mod NN' DD' ltac:(subst DD'; lia)) as Hdm.
    pose proof (Z.mod_pos_bound NN' DD' ltac:(subst DD'; lia)) as Hr.
    fold K' in Hdm. lia. }
  (* K is at most ten times the weight *)
  assert (HKw : K <= 10 * w).
  { destruct (Z.le_gt_cases K (10 * w)) as [|Hgt]; [assumption |].
    exfalso. subst NN DD. nia. }
  assert (Hle : K <= K').
  { destruct (Z.le_gt_cases K K') as [|Hgt]; [assumption |].
    exfalso. subst NN DD NN' DD'. nia. }
  split; [exact Hle |].
  intros Hmod.
  assert (Hexact : NN' = DD' * K').
  { pose proof (Z.div_mod NN' DD' ltac:(subst DD'; lia)) as Hdm.
    fold K' in Hdm. lia. }
  destruct (Z.eq_dec K K') as [Heq | Hne]; [| lia].
  exfalso. rewrite <- Heq in Hexact. subst NN DD NN' DD'. nia.
Qed.

Lemma score_not_lowered (vs : list Severity) (v : Severity) :
  Z.of_nat (length vs) + 1 < 2 ^ 32 ->
  weights vs <= weight v * Z.of_nat (length vs) ->
  PrimFloat.leb (calculateRiskScore (names vs))
                (calculateRiskScore (names (vs ++ [v]))) = true.
Proof.
  intros Hlen Havg.
  pose proof (weight_positive v) as Hw.
  pose proof (weights_bounds vs) as Hraw.
  assert (Hne' : vs ++ [v] <> []) by (destruct vs; discriminate).
  assert (Hlen' : Z.of_nat (length (vs ++ [v])) = Z.of_nat (length vs) + 1)
    by (rewrite length_app; simpl; lia).
  assert (Hw' : weights (vs ++ [v]) = weights vs + weight v).
  { rewrite weights_app. unfold weights at 2. simpl. lia. }
  pose proof (weights_bounds (vs ++ [v])) as Hraw'.
  destruct (score_rounding (weights (vs ++ [v]))
              (Z.of_nat (length (vs ++ [v]))) ltac:(lia) ltac:(lia))
    as [HK' [Hexact' Heither']].
  rewrite <- (calculateRiskScore_names _ Hne') in Hexact', Heither'.
  rewrite Hlen', Hw' in HK', Hexact', Heither'.
  destruct vs as [|s vs'] eqn:Evs.
  - (* the first violation *)
    change (calculateRiskScore (names [])) with (of_Z 0).
    destruct Heither' as [-> | ->]; apply leb_percentages; lia.
  - rewrite <- Evs in *.
    assert (Hne : vs <> []) by (rewrite Evs; discriminate).
    assert (Hn : 0 < Z.of_nat (length vs)) by (rewrite Evs; simpl; lia).
    destruct (score_rounding (weights vs) (Z.of_nat (length vs))
                ltac:(lia) ltac:(lia)) as [HK [_ Heither]].
    rewrite <- (calculateRiskScore_names _ Hne) in Heither.
    destruct (exact_scores_ordered (weights vs) (Z.of_nat (length vs))
                (weight v) Hn ltac:(lia) Hw Havg) as [Hle Hstrict].
    destruct (Z.eq_dec ((200 * (weights vs + weight v)
                         + (Z.of_nat (length vs) + 1) * 10)
                        mod (2 * ((Z.of_nat (length vs) + 1) * 10))) 0)
      as [Hmod | Hmod].
    + specialize (Hstrict Hmod).
      destruct Heither as [-> | ->], Heither' as [-> | ->];
        apply leb_percentages; lia.
    + rewrite (Hexact' Hmod).
      destruct Heither as [-> | ->]; apply leb_percentages; lia.
Qed.

End RiskScoreListFacts.

Module RiskScoreReferenceSpec.
Import JS Scanner ScannerTerms RiskScoreFacts ScoreReference
       RiskScoreListFacts.





(** C2 (amended). Adding a violation does not lower the risk score when
    the violation weighs at least the average of the list it is added to
    (its weight times the count is at least the sum of the weights); a
    critical violation always does.  The lists are over the five
    severities of the data model and of a length an array can have. *)
Theorem score_not_lowered_by_heavier (vs : list Severity) (v : Severity) :
  Z.of_nat (length vs) + 1 < 2 ^ 32 ->
  (weights vs <= weight v * Z.of_nat (length vs) ->
   PrimFloat.leb (calculateRiskScore (names vs))
                 (calculateRiskScore (names (vs ++ [v]))) = true)
  /\ PrimFloat.leb (calculateRiskScore (names vs))
                   (calculateRiskScore (names (vs ++ [critical]))) = true.
Proof.
  intros Hlen. split.
  - intros Havg. apply score_not_lowered; assumption.
  - apply score_not_lowered; [exact Hlen |].
    pose proof (weights_bounds vs). simpl weight. lia.
Qed.

Lemma score_not_lowered_by_heavier_witness :
  PrimFloat.leb (calculateRiskScore (names [high; low]))
                (calculateRiskScore (names ([high; low] ++ [high]))) = true
  /\ PrimFloat.leb (calculateRiskScore (names [high; low]))
                   (calculateRiskScore (names ([high; low] ++ [critical])))
     = true.
Proof.
  destruct (score_not_lowered_by_heavier [high; low] high) as [Hheavy Hcrit].
  - reflexivity.
  - split; [| exact Hcrit]. apply Hheavy. vm_compute. discriminate.
Defined.

(** Rounding can hide a lighter violation: adding a low violation to a
    medium and five low ones leaves the score at 13, and adding a medium
    one to a high, a medium and a low one leaves it at 33. *)
Remark lighter_violation_may_keep_the_score :
  calculateRiskScore (names [medium; low; low; low; low; low]) = 13%float
  /\ calculateRiskScore (names ([medium; low; low; low; low; low] ++ [low]))
     = 13%float
  /\ calculateRiskScore (names [high; medium; low]) = 33%float
  /\ calculateRiskScore (names ([high; medium; low] ++ [medium])) = 33%float.
Proof. repeat split; vm_compute; reflexivity. Qed.

End RiskScoreReferenceSpec.

(** ** The similarity of a stored vector with itself *)

Module Binary64SquareFacts.
Import JS Numbers Indexer SearchEngine Binary64CodecTerms
       Binary64Terms Binary64Facts Binary64Order
       Binary64Value Binary64ValueFacts Binary64Number Binary64OpsFacts
       Binary64SqrtAddFacts Binary64SignFacts Binary64NumberFacts
       Binary64SquareTerms.










End Binary64SquareFacts.

Module SelfSimilarityFacts.
Import JS Numbers Indexer SearchEngine CodecTerms Binary64CodecTerms
       Binary64CodecFacts
       Binary64Terms Binary64Facts Binary64Order
       Binary64Value Binary64ValueFacts Binary64Number Binary64OpsFacts
       Binary64SqrtAddFacts Binary64SignFacts Binary64NumberFacts
       Binary64SquareTerms Binary64SquareFacts.






End SelfSimilarityFacts.

Module CodecRoundTrip.
Import JS Numbers Indexer SearchEngine CodecTerms Binary64CodecFacts
       Binary64Value Binary64ValueFacts Binary64Number Binary64NumberFacts
       SelfSimilarityFacts.




End CodecRoundTrip.
